(** * Endpoint registry and batch execution engine of graphql-mcp

    A shallow embedding of
      - [graphql_mcp/helpers/endpoint_registry.py] ([EndpointRegistryService]),
      - [graphql_mcp/helpers/combined_operations.py]
        ([CombinedOperationsService]: the batch engine, the schema cache,
        the complexity score and the comparison of schemas),
      - the pydantic models of [graphql_mcp/models/batch.py], [core.py],
        [base.py] that these two services construct.

    The services are coroutines over one shared registry object.  They are
    modelled as computations in a state monad whose outcome is a returned
    value, a raised Python exception, or a coroutine that waits for ever on
    the registry's [asyncio.Lock]. *)

From Stdlib Require Import ZArith Ascii String List Lia DecimalString.
From Stdlib Require Import Floats.SpecFloat.
From stdpp Require Import base option gmap strings list fin_maps fin_sets.

Local Open Scope Z_scope.

(** ** Python values carried by an operation dictionary

    [operations : List[Dict[str, Any]]]: the values of an operation are
    arbitrary (JSON-like) Python objects. *)

#[warnings="-register-all"]
Inductive pyval : Type :=
| PyNone
| PyBool (b : bool)
| PyInt (z : Z)
| PyStr (s : string)
| PyList (l : list pyval)
| PyDict (d : list (string * pyval)).

(** [operation.get(key, default)] on a dictionary kept as an association
    list (a key occurs at most once in a Python dict; the first binding is
    the one that counts). *)
Fixpoint dict_get (d : list (string * pyval)) (key : string) (default : pyval) : pyval :=
  match d with
  | [] => default
  | (k, v) :: rest => if String.eqb k key then v else dict_get rest key default
  end.

(** Lists and dicts are the unhashable values: using one as a dictionary key
    raises [TypeError]. *)
Definition hashable (v : pyval) : bool :=
  match v with
  | PyList _ | PyDict _ => false
  | _ => true
  end.

Definition type_name (v : pyval) : string :=
  match v with
  | PyNone => "NoneType"
  | PyBool _ => "bool"
  | PyInt _ => "int"
  | PyStr _ => "str"
  | PyList _ => "list"
  | PyDict _ => "dict"
  end.

(** [datetime] and [timedelta] have microsecond resolution: both are counted
    in microseconds. *)
Abbreviation datetime := Z (only parsing).
Abbreviation timedelta := Z (only parsing).

(** ** Python's [float]

    A [float] is an IEEE 754 binary64 number; the operations round to
    nearest, ties to even.  The registry computes with floats in one place,
    the age of an endpoint in hours. *)

(** An [int] as the exact operand of a division. *)
Definition exact_int (n : Z) : spec_float :=
  match n with
  | Z0 => S754_zero false
  | Zpos p => S754_finite false p 0
  | Zneg p => S754_finite true p 0
  end.

(** [a / b] of two ints: the double nearest to the quotient. *)
Definition int_true_div (a b : Z) : spec_float :=
  SFdiv 53 1024 (exact_int a) (exact_int b).

(** [x / b] of a float and an int: [b] is converted to a float first. *)
Definition float_div_int (x : spec_float) (b : Z) : spec_float :=
  SFdiv 53 1024 x (binary_normalize 53 1024 b 0 false).

(** [x > n] of a float and an int compares the two values exactly. *)
Definition float_gt_int (x : spec_float) (n : Z) : bool :=
  match x with
  | S754_zero _ => n <? 0
  | S754_infinity s => negb s
  | S754_nan => false
  | S754_finite s m e =>
      let v := if s then Zneg m else Zpos m in
      if 0 <=? e then n <? v * 2 ^ e else n * 2 ^ (- e) <? v
  end.

(** [timedelta.total_seconds()]: the microseconds divided by [10**6]. *)
Definition total_seconds (d : timedelta) : spec_float := int_true_div d 1000000.

(** ** models/base.py, models/core.py, models/schema.py, models/batch.py *)

Inductive ExecutionMode : Type := SEQUENTIAL | PARALLEL.

Definition ExecutionMode_value (m : ExecutionMode) : string :=
  match m with
  | SEQUENTIAL => "sequential"
  | PARALLEL => "parallel"
  end.

Record GraphQlEndpointInfo : Type := {
  name : string;
  url : string;
  headers : list (string * string);
  allow_mutations : bool;
  tool_prefix : string;
  schema_content : option string
}.

(** Only [version] of a [SchemaInfo] is read by the registry; the type
    descriptors are kept opaque as a list of type names. *)
Record SchemaInfo : Type := {
  schema_types : list string;
  last_modified : datetime;
  version : string
}.

Record ExecutionError : Type := {
  message : string;
  category : string;
  severity : string
}.

Record BatchOperationResult : Type := {
  res_name : string;
  success : bool;
  data : option pyval;
  error : option string;
  execution_time : timedelta;
  index : nat;
  res_endpoint : string;
  res_query : option string;
  res_variables : option (list (string * pyval));
  was_retried : bool;
  retry_attempts : Z;
  status_code : option Z;
  res_headers : list (string * string)
}.

Record BatchSummary : Type := {
  total_operations : Z;
  successful_operations : Z;
  failed_operations : Z;
  total_execution_time : timedelta;
  execution_mode : ExecutionMode;
  started_at : datetime;
  completed_at : option datetime;
  continue_on_error : bool
}.

Record BatchExecutionResponse : Type := {
  results : list BatchOperationResult;
  summary : BatchSummary;
  errors : list string;
  warnings : list string
}.

(** The per-endpoint statistics dictionary.  [register_endpoint] is the only
    place that creates one, always with all eight keys, so the dictionary is
    a record. *)
Record EndpointStats : Type := {
  registered_at : datetime;
  last_accessed : option datetime;
  access_count : Z;
  tool_count : Z;
  schema_version : string;
  last_introspection : option datetime;
  error_count : Z;
  success_count : Z
}.

(** A copy of a statistics dictionary as the registry hands it out: the
    statistics of an endpoint, or the empty dictionary [{}]. *)
Inductive stats_copy : Type :=
| EmptyDict
| Stats (st : EndpointStats).

(** ** Exceptions *)

Inductive pyexn : Type :=
| ValidationError (model : string) (fields : list string)
| TypeError (msg : string)
| GatewayFault (msg : string).

(** ** The outside world

    The registry and the batch engine read the wall clock
    ([datetime.utcnow()]) and call the HTTP gateway
    ([GraphQLHttpClient.execute_query]); both are external collaborators. *)

Record gw_request : Type := {
  gw_url : string;
  gw_query : pyval;
  gw_variables : pyval;
  gw_headers : list (string * string);
  gw_timeout : Z
}.

Inductive gw_reply : Type :=
| GwReturn (data : option pyval) (errors : list ExecutionError)
| GwRaise (msg : string).

Class Platform : Type := {
  World : Type;
  (** reading the clock *)
  clock : World -> datetime * World;
  (** one completed [execute_query] call *)
  gateway : gw_request -> World -> gw_reply * World;
  (** [str(e)] of a pydantic [ValidationError] of [model] that rejects the
      listed fields *)
  validation_text : string -> list string -> string
}.

Definition str_exn `{Platform} (e : pyexn) : string :=
  match e with
  | ValidationError model fields => validation_text model fields
  | TypeError msg => msg
  | GatewayFault msg => msg
  end.

(** [GraphQLSchemaHelper.get_schema_async], the introspection of an
    endpoint, is another collaborator from outside: it answers with a
    schema or with [None], and never raises (its own [try]/[except] turns
    every fault into [None]). *)
Class SchemaHelper `{Platform} : Type := {
  introspect : GraphQlEndpointInfo -> Z -> World -> option SchemaInfo * World
}.

(** ** models/base.py: the alias generator of [BaseModel]

    [''.join(['_' + c.lower() if c.isupper() and i > 0 else c.lower()
              for i, c in enumerate(field_name)])]
    on field names, which are ASCII identifiers: the upper-case characters
    are [A]..[Z], and [lower] maps them to [a]..[z]. *)

Definition is_upper (c : ascii) : bool :=
  ((65 <=? nat_of_ascii c) && (nat_of_ascii c <=? 90))%nat.

Definition lower (c : ascii) : ascii :=
  if is_upper c then ascii_of_nat (nat_of_ascii c + 32) else c.

(** The characters from position [i] on. *)
Fixpoint alias_from (i : nat) (field_name : string) : string :=
  match field_name with
  | EmptyString => EmptyString
  | String c rest =>
      if is_upper c && (0 <? i)%nat
      then String "_" (String (lower c) (alias_from (S i) rest))
      else String (lower c) (alias_from (S i) rest)
  end.

Definition alias_generator (field_name : string) : string := alias_from 0 field_name.

(** No character of the string is upper case. *)
Fixpoint no_upper (s : string) : bool :=
  match s with
  | EmptyString => true
  | String c rest => negb (is_upper c) && no_upper rest
  end.

(** Every character of the string is an ASCII one (below 128), where
    [is_upper] and [lower] are Python's [str.isupper] and [str.lower]. *)
Fixpoint ascii_name (s : string) : bool :=
  match s with
  | EmptyString => true
  | String c rest => (nat_of_ascii c <? 128)%nat && ascii_name rest
  end.

(** ** The shared registry object and the monad of coroutines *)

Section Services.
Context `{Platform}.

Record State : Type := {
  _endpoints : gmap string GraphQlEndpointInfo;
  _endpoint_schemas : gmap string SchemaInfo;
  _tool_to_endpoint : gmap string string;
  _endpoint_to_tools : gmap string (gset string);
  _endpoint_stats : gmap string EndpointStats;
  _last_updated : gmap string datetime;
  (** [_lock.locked()] *)
  _lock : bool;
  world : World;
  (** ghost: the gateway calls made so far, oldest first *)
  gateway_log : list gw_request
}.

(** [EndpointRegistryService.__init__] *)
Definition init_state (w : World) : State :=
  {| _endpoints := ∅; _endpoint_schemas := ∅; _tool_to_endpoint := ∅;
     _endpoint_to_tools := ∅; _endpoint_stats := ∅; _last_updated := ∅;
     _lock := false; world := w; gateway_log := [] |}.

Inductive outcome (A : Type) : Type :=
| Done (a : A) (s : State)
| Raised (e : pyexn) (s : State)
| Blocked.

Arguments Done {A} a s.
Arguments Raised {A} e s.
Arguments Blocked {A}.

Definition M (A : Type) : Type := State -> outcome A.

Definition ret {A} (a : A) : M A := fun s => Done a s.

Definition bind {A B} (m : M A) (f : A -> M B) : M B :=
  fun s =>
    match m s with
    | Done a s' => f a s'
    | Raised e s' => Raised e s'
    | Blocked => Blocked
    end.

Definition raise {A} (e : pyexn) : M A := fun s => Raised e s.

(** [try: body except Exception as e: handler e] *)
Definition try_except {A} (body : M A) (handler : pyexn -> M A) : M A :=
  fun s =>
    match body s with
    | Done a s' => Done a s'
    | Raised e s' => handler e s'
    | Blocked => Blocked
    end.

Definition gets {A} (f : State -> A) : M A := fun s => Done (f s) s.
Definition modify (f : State -> State) : M unit := fun s => Done tt (f s).

Notation "x <- m ;; k" := (bind m (fun x => k))
  (at level 100, m at next level, k at level 200, right associativity, only parsing).
Notation "m ;;; k" := (bind m (fun _ => k))
  (at level 100, k at level 200, right associativity, only parsing).

Fixpoint for_each {A} (l : list A) (body : A -> M unit) : M unit :=
  match l with
  | [] => ret tt
  | x :: rest => body x ;;; for_each rest body
  end.

(** Field updates of the registry object. *)
Definition set_endpoints (f : gmap string GraphQlEndpointInfo -> gmap string GraphQlEndpointInfo) (s : State) : State :=
  {| _endpoints := f (_endpoints s); _endpoint_schemas := _endpoint_schemas s;
     _tool_to_endpoint := _tool_to_endpoint s; _endpoint_to_tools := _endpoint_to_tools s;
     _endpoint_stats := _endpoint_stats s; _last_updated := _last_updated s;
     _lock := _lock s; world := world s; gateway_log := gateway_log s |}.

Definition set_endpoint_schemas (f : gmap string SchemaInfo -> gmap string SchemaInfo) (s : State) : State :=
  {| _endpoints := _endpoints s; _endpoint_schemas := f (_endpoint_schemas s);
     _tool_to_endpoint := _tool_to_endpoint s; _endpoint_to_tools := _endpoint_to_tools s;
     _endpoint_stats := _endpoint_stats s; _last_updated := _last_updated s;
     _lock := _lock s; world := world s; gateway_log := gateway_log s |}.

Definition set_tool_to_endpoint (f : gmap string string -> gmap string string) (s : State) : State :=
  {| _endpoints := _endpoints s; _endpoint_schemas := _endpoint_schemas s;
     _tool_to_endpoint := f (_tool_to_endpoint s); _endpoint_to_tools := _endpoint_to_tools s;
     _endpoint_stats := _endpoint_stats s; _last_updated := _last_updated s;
     _lock := _lock s; world := world s; gateway_log := gateway_log s |}.

Definition set_endpoint_to_tools (f : gmap string (gset string) -> gmap string (gset string)) (s : State) : State :=
  {| _endpoints := _endpoints s; _endpoint_schemas := _endpoint_schemas s;
     _tool_to_endpoint := _tool_to_endpoint s; _endpoint_to_tools := f (_endpoint_to_tools s);
     _endpoint_stats := _endpoint_stats s; _last_updated := _last_updated s;
     _lock := _lock s; world := world s; gateway_log := gateway_log s |}.

Definition set_endpoint_stats (f : gmap string EndpointStats -> gmap string EndpointStats) (s : State) : State :=
  {| _endpoints := _endpoints s; _endpoint_schemas := _endpoint_schemas s;
     _tool_to_endpoint := _tool_to_endpoint s; _endpoint_to_tools := _endpoint_to_tools s;
     _endpoint_stats := f (_endpoint_stats s); _last_updated := _last_updated s;
     _lock := _lock s; world := world s; gateway_log := gateway_log s |}.

Definition set_last_updated (f : gmap string Z -> gmap string Z) (s : State) : State :=
  {| _endpoints := _endpoints s; _endpoint_schemas := _endpoint_schemas s;
     _tool_to_endpoint := _tool_to_endpoint s; _endpoint_to_tools := _endpoint_to_tools s;
     _endpoint_stats := _endpoint_stats s; _last_updated := f (_last_updated s);
     _lock := _lock s; world := world s; gateway_log := gateway_log s |}.

Definition set_lock (b : bool) (s : State) : State :=
  {| _endpoints := _endpoints s; _endpoint_schemas := _endpoint_schemas s;
     _tool_to_endpoint := _tool_to_endpoint s; _endpoint_to_tools := _endpoint_to_tools s;
     _endpoint_stats := _endpoint_stats s; _last_updated := _last_updated s;
     _lock := b; world := world s; gateway_log := gateway_log s |}.

Definition set_world (w : World) (s : State) : State :=
  {| _endpoints := _endpoints s; _endpoint_schemas := _endpoint_schemas s;
     _tool_to_endpoint := _tool_to_endpoint s; _endpoint_to_tools := _endpoint_to_tools s;
     _endpoint_stats := _endpoint_stats s; _last_updated := _last_updated s;
     _lock := _lock s; world := w; gateway_log := gateway_log s |}.

Definition log_gateway_call (rq : gw_request) (s : State) : State :=
  {| _endpoints := _endpoints s; _endpoint_schemas := _endpoint_schemas s;
     _tool_to_endpoint := _tool_to_endpoint s; _endpoint_to_tools := _endpoint_to_tools s;
     _endpoint_stats := _endpoint_stats s; _last_updated := _last_updated s;
     _lock := _lock s; world := world s; gateway_log := gateway_log s ++ [rq] |}.

(** [datetime.utcnow()] *)
Definition utcnow : M datetime :=
  fun s => let (t, w) := clock (world s) in Done t (set_world w s).

(** [await self.http_client.execute_query(...)]: the reply comes from the
    world; an exception of the client surfaces as [GatewayFault]. *)
Definition execute_query (rq : gw_request) : M (option pyval * list ExecutionError) :=
  fun s =>
    let (r, w) := gateway rq (world s) in
    let s' := set_world w (log_gateway_call rq s) in
    match r with
    | GwReturn d errs => Done (d, errs) s'
    | GwRaise msg => Raised (GatewayFault msg) s'
    end.

(** [async with self._lock: body].  [asyncio.Lock] is not reentrant: a
    coroutine that acquires a lock that is already held is suspended until
    the holder releases it; the lock is released when the body returns or
    raises. *)
Definition with_lock {A} (body : M A) : M A :=
  fun s =>
    if _lock s then Blocked
    else
      match body (set_lock true s) with
      | Done a s' => Done a (set_lock false s')
      | Raised e s' => Raised e (set_lock false s')
      | Blocked => Blocked
      end.

(** ** helpers/endpoint_registry.py *)

Definition fresh_stats (now : datetime) (schema_info : option SchemaInfo) : EndpointStats :=
  {| registered_at := now;
     last_accessed := None;
     access_count := 0;
     tool_count := 0;
     schema_version := match schema_info with Some si => version si | None => "" end;
     last_introspection := None;
     error_count := 0;
     success_count := 0 |}.

Definition register_endpoint (endpoint_info : GraphQlEndpointInfo)
    (schema_info : option SchemaInfo) : M bool :=
  with_lock (try_except
    (let endpoint_name := name endpoint_info in
     modify (set_endpoints <[endpoint_name := endpoint_info]>) ;;;
     match schema_info with
     | Some si => modify (set_endpoint_schemas <[endpoint_name := si]>)
     | None => ret tt
     end ;;;
     now <- utcnow ;;
     modify (set_endpoint_stats <[endpoint_name := fresh_stats now schema_info]>) ;;;
     now' <- utcnow ;;
     modify (set_last_updated <[endpoint_name := now']>) ;;;
     ret true)
    (fun _ => ret false)).

(** [self._endpoint_to_tools[endpoint_name]] on the [defaultdict(set)] *)
Definition tools_of (m : gmap string (gset string)) (endpoint_name : string) : gset string :=
  default ∅ (m !! endpoint_name).

Definition set_tool_count (n : Z) (st : EndpointStats) : EndpointStats :=
  {| registered_at := registered_at st; last_accessed := last_accessed st;
     access_count := access_count st; tool_count := n;
     schema_version := schema_version st; last_introspection := last_introspection st;
     error_count := error_count st; success_count := success_count st |}.

(** The [# Update stats] block shared by [register_tool] and [_remove_tool]. *)
Definition update_tool_count (endpoint_name : string) : M unit :=
  stats <- gets _endpoint_stats ;;
  match stats !! endpoint_name with
  | Some st =>
      e2t <- gets _endpoint_to_tools ;;
      modify (set_endpoint_stats
        <[endpoint_name := set_tool_count (Z.of_nat (size (tools_of e2t endpoint_name))) st]>)
  | None => ret tt
  end.

Definition _remove_tool (tool_name : string) : M bool :=
  try_except
    (t2e <- gets _tool_to_endpoint ;;
     match t2e !! tool_name with
     | Some endpoint_name =>
         (* [if endpoint_name:] the empty string is falsy *)
         if String.eqb endpoint_name "" then ret tt
         else
           modify (set_endpoint_to_tools
             (fun m => <[endpoint_name := tools_of m endpoint_name ∖ {[tool_name]}]> m)) ;;;
           update_tool_count endpoint_name
     | None => ret tt
     end ;;;
     modify (set_tool_to_endpoint (delete tool_name)) ;;;
     ret true)
    (fun _ => ret false).

Definition unregister_endpoint (endpoint_name : string) : M bool :=
  with_lock (try_except
    (eps <- gets _endpoints ;;
     match eps !! endpoint_name with
     | None => ret false
     | Some _ =>
         e2t <- gets _endpoint_to_tools ;;
         let tools_to_remove := elements (tools_of e2t endpoint_name) in
         for_each tools_to_remove (fun tool_name => _remove_tool tool_name ;;; ret tt) ;;;
         modify (set_endpoints (delete endpoint_name)) ;;;
         modify (set_endpoint_schemas (delete endpoint_name)) ;;;
         modify (set_endpoint_stats (delete endpoint_name)) ;;;
         modify (set_last_updated (delete endpoint_name)) ;;;
         modify (set_endpoint_to_tools (delete endpoint_name)) ;;;
         ret true
     end)
    (fun _ => ret false)).

Definition get_endpoint (endpoint_name : string) : M (option GraphQlEndpointInfo) :=
  with_lock (gets (fun s => _endpoints s !! endpoint_name)).

Definition get_endpoint_schema (endpoint_name : string) : M (option SchemaInfo) :=
  with_lock (gets (fun s => _endpoint_schemas s !! endpoint_name)).

Definition set_schema_stats (v : string) (now : datetime) (st : EndpointStats) : EndpointStats :=
  {| registered_at := registered_at st; last_accessed := last_accessed st;
     access_count := access_count st; tool_count := tool_count st;
     schema_version := v; last_introspection := Some now;
     error_count := error_count st; success_count := success_count st |}.

Definition update_endpoint_schema (endpoint_name : string) (schema_info : SchemaInfo) : M bool :=
  with_lock (try_except
    (eps <- gets _endpoints ;;
     match eps !! endpoint_name with
     | None => ret false
     | Some _ =>
         modify (set_endpoint_schemas <[endpoint_name := schema_info]>) ;;;
         now <- utcnow ;;
         modify (set_last_updated <[endpoint_name := now]>) ;;;
         stats <- gets _endpoint_stats ;;
         match stats !! endpoint_name with
         | Some st =>
             now' <- utcnow ;;
             modify (set_endpoint_stats
               <[endpoint_name := set_schema_stats (version schema_info) now' st]>)
         | None => ret tt
         end ;;;
         ret true
     end)
    (fun _ => ret false)).

Definition register_tool (tool_name endpoint_name : string) : M bool :=
  with_lock (try_except
    (eps <- gets _endpoints ;;
     match eps !! endpoint_name with
     | None => ret false
     | Some _ =>
         (* Store bidirectional mapping *)
         modify (set_tool_to_endpoint <[tool_name := endpoint_name]>) ;;;
         modify (set_endpoint_to_tools
           (fun m => <[endpoint_name := tools_of m endpoint_name ∪ {[tool_name]}]> m)) ;;;
         update_tool_count endpoint_name ;;;
         ret true
     end)
    (fun _ => ret false)).

Definition get_endpoint_for_tool (tool_name : string) : M (option string) :=
  with_lock (gets (fun s => _tool_to_endpoint s !! tool_name)).

Definition get_tools_for_endpoint (endpoint_name : string) : M (gset string) :=
  with_lock (gets (fun s => tools_of (_endpoint_to_tools s) endpoint_name)).

(** [self._endpoint_stats.get(endpoint_name, {}).copy()]: the copy of the
    endpoint's statistics, or of the empty dictionary when there are none;
    never [None]. *)
Definition get_endpoint_stats (endpoint_name : string) : M stats_copy :=
  with_lock (gets (fun s =>
    match _endpoint_stats s !! endpoint_name with
    | Some st => Stats st
    | None => EmptyDict
    end)).

Definition record_access (now : datetime) (ok : bool) (st : EndpointStats) : EndpointStats :=
  {| registered_at := registered_at st;
     last_accessed := Some now;
     access_count := access_count st + 1;
     tool_count := tool_count st;
     schema_version := schema_version st;
     last_introspection := last_introspection st;
     error_count := if ok then error_count st else error_count st + 1;
     success_count := if ok then success_count st + 1 else success_count st |}.

Definition record_endpoint_access (endpoint_name : string) (ok : bool) : M unit :=
  with_lock
    (stats <- gets _endpoint_stats ;;
     match stats !! endpoint_name with
     | Some st =>
         now <- utcnow ;;
         modify (set_endpoint_stats <[endpoint_name := record_access now ok st]>)
     | None => ret tt
     end).

Definition is_endpoint_registered (endpoint_name : string) : M bool :=
  with_lock (gets (fun s => bool_decide (is_Some (_endpoints s !! endpoint_name)))).

(** [age_hours = (current_time - last_accessed).total_seconds() / 3600] and
    [age_hours > max_age_hours], with the reference time [registered_at]
    when the endpoint was never accessed.  The age is a float: it is
    rounded twice before it is compared. *)
Definition is_stale (current_time : datetime) (max_age_hours : Z) (st : EndpointStats) : bool :=
  let last := match last_accessed st with
              | Some t => t
              | None => registered_at st
              end in
  let age_hours := float_div_int (total_seconds (current_time - last)) 3600 in
  float_gt_int age_hours max_age_hours.

(** The names collected by the first loop of [cleanup_stale_endpoints]. *)
Definition stale_names (current_time : datetime) (max_age_hours : Z)
    (stats : gmap string EndpointStats) : list string :=
  (map_to_list (filter (fun kv => is_stale current_time max_age_hours kv.2 = true) stats)).*1.

Definition cleanup_stale_endpoints (max_age_hours : Z) : M Z :=
  with_lock
    (current_time <- utcnow ;;
     stats <- gets _endpoint_stats ;;
     let stale_endpoints := stale_names current_time max_age_hours stats in
     (* Remove stale endpoints *)
     for_each stale_endpoints (fun endpoint_name => unregister_endpoint endpoint_name ;;; ret tt) ;;;
     ret (Z.of_nat (length stale_endpoints))).

(** *** The read-only methods of the registry *)

(** [self._endpoints.copy()] *)
Definition get_all_endpoints : M (gmap string GraphQlEndpointInfo) :=
  with_lock (gets _endpoints).

(** [{name: stats.copy() for name, stats in self._endpoint_stats.items()}] *)
Definition get_all_stats : M (gmap string EndpointStats) :=
  with_lock (gets _endpoint_stats).

Definition get_endpoint_count : M Z :=
  with_lock (gets (fun s => Z.of_nat (size (_endpoints s)))).

Definition get_total_tool_count : M Z :=
  with_lock (gets (fun s => Z.of_nat (size (_tool_to_endpoint s)))).

Record RegistrySummary : Type := {
  total_endpoints : Z;
  total_tools : Z;
  endpoints_with_schema : Z;
  last_registry_update : option datetime
}.

(** [max(self._last_updated.values()) if self._last_updated else None] *)
Definition latest (m : gmap string Z) : option Z :=
  foldr (fun t acc => Some (match acc with Some u => Z.max t u | None => t end))
    None (map_to_list m).*2.

(** [get_registry_summary] is an ordinary method: it reads the four
    dictionaries without taking the lock. *)
Definition get_registry_summary (s : State) : RegistrySummary :=
  {| total_endpoints := Z.of_nat (size (_endpoints s));
     total_tools := Z.of_nat (size (_tool_to_endpoint s));
     endpoints_with_schema := Z.of_nat (size (_endpoint_schemas s));
     last_registry_update := latest (_last_updated s) |}.


(** ** helpers/combined_operations.py *)

Abbreviation operation := (list (string * pyval)) (only parsing).

(** Python does not check the [str] annotation of a registry method: the
    batch engine passes whatever the operation holds under ["endpoint"].
    Under the lock the value is used as a dictionary key: an unhashable
    key raises [TypeError], a hashable key that is not a string is simply
    absent (every key of the registry is a string). *)
Definition unhashable (v : pyval) : pyexn :=
  TypeError ("unhashable type: '" +:+ type_name v +:+ "'").

Definition call_get_endpoint (endpoint_name : pyval) : M (option GraphQlEndpointInfo) :=
  match endpoint_name with
  | PyStr n => get_endpoint n
  | PyList _ | PyDict _ => with_lock (raise (unhashable endpoint_name))
  | _ => with_lock (ret None)
  end.

Definition call_record_endpoint_access (endpoint_name : pyval) (ok : bool) : M unit :=
  match endpoint_name with
  | PyStr n => record_endpoint_access n ok
  | PyList _ | PyDict _ => with_lock (raise (unhashable endpoint_name))
  | _ => with_lock (ret tt)
  end.

(** *** Construction of a [BatchOperationResult]

    pydantic validates the keyword arguments against the declared field
    types: [name : str] and [endpoint : str] take a string,
    [query : Optional[str]] a string or [None],
    [variables : Optional[Dict[str, Any]]] a dict or [None].  Any other
    value raises [ValidationError].  The remaining arguments are built by
    the engine itself and always have the declared type. *)
Definition as_str (v : pyval) : option string :=
  match v with PyStr s => Some s | _ => None end.

Definition as_opt_str (v : pyval) : option (option string) :=
  match v with PyNone => Some None | PyStr s => Some (Some s) | _ => None end.

Definition as_opt_dict (v : pyval) : option (option (list (string * pyval))) :=
  match v with PyNone => Some None | PyDict d => Some (Some d) | _ => None end.

Definition rejected {A} (field : string) (o : option A) : list string :=
  match o with Some _ => [] | None => [field] end.

Definition BatchOperationResult_new (name_ : pyval) (success_ : bool) (data_ : option pyval)
    (error_ : option string) (execution_time_ : timedelta) (index_ : nat)
    (endpoint_ query_ variables_ : pyval) : M BatchOperationResult :=
  match as_str name_, as_str endpoint_, as_opt_str query_, as_opt_dict variables_ with
  | Some n, Some e, Some q, Some v =>
      ret {| res_name := n; success := success_; data := data_; error := error_;
             execution_time := execution_time_; index := index_; res_endpoint := e;
             res_query := q; res_variables := v; was_retried := false;
             retry_attempts := 0; status_code := None; res_headers := [] |}
  | on, oe, oq, ov =>
      raise (ValidationError "BatchOperationResult"
               (rejected "name" on ++ rejected "endpoint" oe ++
                rejected "query" oq ++ rejected "variables" ov))
  end.

(** [f"operation_{index}"] *)
Definition default_name (index_ : nat) : pyval :=
  PyStr ("operation_" +:+ NilZero.string_of_uint (Nat.to_uint index_)).

(** [f"{v}"] of a hashable value (an unhashable endpoint name never reaches
    the f-string: the lookup before it raises). *)
Definition format_value (v : pyval) : string :=
  match v with
  | PyStr s => s
  | PyNone => "None"
  | PyBool true => "True"
  | PyBool false => "False"
  | PyInt z => NilZero.string_of_int (Z.to_int z)
  | PyList _ | PyDict _ => type_name v
  end.

(** [len(errors) == 0] *)
Definition no_errors (errs : list ExecutionError) : bool :=
  match errs with [] => true | _ => false end.

(** ["; ".join([e.message for e in errors]) if errors else None] *)
Definition joined_messages (errs : list ExecutionError) : option string :=
  match errs with
  | [] => None
  | _ => Some (String.concat "; " (map message errs))
  end.

(** The [except Exception as e] clause of [_execute_single_operation]. *)
Definition operation_handler (operation : operation) (index_ : nat) (start_time : datetime)
    (e : pyexn) : M BatchOperationResult :=
  end_time <- utcnow ;;
  let execution_time_ := end_time - start_time in
  BatchOperationResult_new (dict_get operation "name" (default_name index_)) false None
    (Some (str_exn e)) execution_time_ index_
    (dict_get operation "endpoint" (PyStr ""))
    (dict_get operation "query" (PyStr ""))
    (dict_get operation "variables" (PyDict [])).

Definition _execute_single_operation (operation : operation) (index_ : nat)
    (timeout_seconds : Z) : M BatchOperationResult :=
  start_time <- utcnow ;;
  try_except
    (let endpoint_name := dict_get operation "endpoint" (PyStr "") in
     let query := dict_get operation "query" (PyStr "") in
     let variables := dict_get operation "variables" (PyDict []) in
     let name_ := dict_get operation "name" (default_name index_) in
     (* Get endpoint info *)
     endpoint_info <- call_get_endpoint endpoint_name ;;
     match endpoint_info with
     | None =>
         BatchOperationResult_new name_ false None
           (Some ("Endpoint not found: " +:+ format_value endpoint_name))
           0 index_ endpoint_name query variables
     | Some info =>
         (* Execute query *)
         reply <- execute_query {| gw_url := url info; gw_query := query;
                                   gw_variables := variables; gw_headers := headers info;
                                   gw_timeout := timeout_seconds |} ;;
         end_time <- utcnow ;;
         let execution_time_ := end_time - start_time in
         (* Record access *)
         call_record_endpoint_access endpoint_name (no_errors reply.2) ;;;
         BatchOperationResult_new name_ (no_errors reply.2) reply.1
           (joined_messages reply.2) execution_time_ index_ endpoint_name query variables
     end)
    (operation_handler operation index_ start_time).

(** The failed result that the batch loop builds from an exception that
    escaped an operation (both the sequential [except] clause and the
    conversion after [asyncio.gather]). *)
Definition exception_result (operation : operation) (i : nat) (e : pyexn) : M BatchOperationResult :=
  BatchOperationResult_new (dict_get operation "name" (default_name i)) false None
    (Some (str_exn e)) 0 i (dict_get operation "endpoint" (PyStr "")) PyNone PyNone.

(** *** Sequential branch: [for i, operation in enumerate(operations)] with
    its [break]s.  [i] is the position of the head of [operations] in the
    input list, [results] the list built so far. *)
Fixpoint sequential_loop (continue_on_error_ : bool) (timeout_seconds : Z) (i : nat)
    (operations : list operation) (results_ : list BatchOperationResult)
    : M (list BatchOperationResult) :=
  match operations with
  | [] => ret results_
  | operation :: rest =>
      step <- try_except
        (result <- _execute_single_operation operation i timeout_seconds ;;
         ret (results_ ++ [result], negb (success result) && negb continue_on_error_))
        (fun e =>
           error_result <- exception_result operation i e ;;
           ret (results_ ++ [error_result], negb continue_on_error_)) ;;
      if step.2 then ret step.1
      else sequential_loop continue_on_error_ timeout_seconds (S i) rest step.1
  end.

(** *** Parallel branch: the tasks of [asyncio.gather]

    A task runs without interruption up to the one place where it really
    suspends, the gateway call, and again from the reply to its end (the
    lock is free whenever a task runs, so [async with] does not suspend).
    A task is therefore either not started, suspended in the gateway call,
    or finished with a result or an exception. *)

Definition catch {A} (m : M A) : M (pyexn + A) :=
  try_except (a <- m ;; ret (inr a)) (fun e => ret (inl e)).

Record suspended : Type := {
  sp_operation : operation;
  sp_index : nat;
  sp_start_time : datetime;
  sp_info : GraphQlEndpointInfo
}.

Inductive task : Type :=
| Created (operation : operation) (index_ : nat)
| Suspended (sp : suspended)
| Finished (r : pyexn + BatchOperationResult).

(** [_execute_single_operation] from its start to the gateway call. *)
Definition task_start (operation : operation) (index_ : nat)
    : M ((pyexn + BatchOperationResult) + suspended) :=
  start_time <- utcnow ;;
  r <- catch (try_except
    (let endpoint_name := dict_get operation "endpoint" (PyStr "") in
     let query := dict_get operation "query" (PyStr "") in
     let variables := dict_get operation "variables" (PyDict []) in
     let name_ := dict_get operation "name" (default_name index_) in
     endpoint_info <- call_get_endpoint endpoint_name ;;
     match endpoint_info with
     | None =>
         result <- BatchOperationResult_new name_ false None
           (Some ("Endpoint not found: " +:+ format_value endpoint_name))
           0 index_ endpoint_name query variables ;;
         ret (inl result)
     | Some info =>
         ret (inr {| sp_operation := operation; sp_index := index_;
                     sp_start_time := start_time; sp_info := info |})
     end)
    (fun e => result <- operation_handler operation index_ start_time e ;; ret (inl result))) ;;
  ret match r with
      | inl e => inl (inl e)
      | inr (inl result) => inl (inr result)
      | inr (inr sp) => inr sp
      end.

(** [_execute_single_operation] from the gateway's reply to its end. *)
Definition task_resume (timeout_seconds : Z) (sp : suspended)
    : M (pyexn + BatchOperationResult) :=
  let operation := sp_operation sp in
  let index_ := sp_index sp in
  catch (try_except
    (let endpoint_name := dict_get operation "endpoint" (PyStr "") in
     let query := dict_get operation "query" (PyStr "") in
     let variables := dict_get operation "variables" (PyDict []) in
     let name_ := dict_get operation "name" (default_name index_) in
     reply <- execute_query {| gw_url := url (sp_info sp); gw_query := query;
                               gw_variables := variables; gw_headers := headers (sp_info sp);
                               gw_timeout := timeout_seconds |} ;;
     end_time <- utcnow ;;
     let execution_time_ := end_time - sp_start_time sp in
     call_record_endpoint_access endpoint_name (no_errors reply.2) ;;;
     BatchOperationResult_new name_ (no_errors reply.2) reply.1
       (joined_messages reply.2) execution_time_ index_ endpoint_name query variables)
    (operation_handler operation index_ (sp_start_time sp))).

(** One scheduling step of a task. *)
Definition task_step (timeout_seconds : Z) (t : task) : M task :=
  match t with
  | Created operation index_ =>
      r <- task_start operation index_ ;;
      ret match r with inl fin => Finished fin | inr sp => Suspended sp end
  | Suspended sp => r <- task_resume timeout_seconds sp ;; ret (Finished r)
  | Finished _ => ret t
  end.

(** Joining a task runs it to its end. *)
Definition task_await (timeout_seconds : Z) (t : task) : M (pyexn + BatchOperationResult) :=
  match t with
  | Created operation index_ =>
      r <- task_start operation index_ ;;
      match r with inl fin => ret fin | inr sp => task_resume timeout_seconds sp end
  | Suspended sp => task_resume timeout_seconds sp
  | Finished r => ret r
  end.

(** The event loop resumes the tasks in the order [sched] (a task index per
    step; an index outside the list resumes nothing). *)
Fixpoint run_schedule (timeout_seconds : Z) (sched : list nat) (tasks : list task)
    : M (list task) :=
  match sched with
  | [] => ret tasks
  | i :: rest =>
      match tasks !! i with
      | Some t =>
          t' <- task_step timeout_seconds t ;;
          run_schedule timeout_seconds rest (<[i := t']> tasks)
      | None => run_schedule timeout_seconds rest tasks
      end
  end.

Fixpoint await_all (timeout_seconds : Z) (tasks : list task)
    : M (list (pyexn + BatchOperationResult)) :=
  match tasks with
  | [] => ret []
  | t :: rest =>
      r <- task_await timeout_seconds t ;;
      rs <- await_all timeout_seconds rest ;;
      ret (r :: rs)
  end.

(** [await asyncio.gather] with [return_exceptions=True]: the tasks
    interleave as [sched] says, every task is joined, and the outcomes come
    back in the order of the arguments. *)
Definition gather (timeout_seconds : Z) (sched : list nat) (operations : list operation)
    : M (list (pyexn + BatchOperationResult)) :=
  tasks <- run_schedule timeout_seconds sched (imap (fun i op => Created op i) operations) ;;
  await_all timeout_seconds tasks.

(** [# Convert exceptions to error results]: [i] is the position of the head
    of [outcomes] and of [operations] in the input list. *)
Fixpoint convert_exceptions (i : nat) (operations : list operation)
    (outcomes : list (pyexn + BatchOperationResult)) : M (list BatchOperationResult) :=
  match outcomes, operations with
  | inr result :: outcomes', _ :: operations' =>
      rs <- convert_exceptions (S i) operations' outcomes' ;;
      ret (result :: rs)
  | inl e :: outcomes', operation :: operations' =>
      result <- exception_result operation i e ;;
      rs <- convert_exceptions (S i) operations' outcomes' ;;
      ret (result :: rs)
  | _, _ => ret []
  end.

Definition ExecutionMode_members : list ExecutionMode := [SEQUENTIAL; PARALLEL].

(** [ExecutionMode(execution_mode) if execution_mode in
    ExecutionMode.__members__.values() else ExecutionMode.SEQUENTIAL] *)
Definition resolve_mode (execution_mode_ : string) : ExecutionMode :=
  default SEQUENTIAL
    (List.find (fun m => String.eqb execution_mode_ (ExecutionMode_value m))
       ExecutionMode_members).

(** [BatchSummary()]: every field at its default; [started_at] is
    [default_factory=datetime.utcnow]. *)
Definition BatchSummary_default : M BatchSummary :=
  now <- utcnow ;;
  ret {| total_operations := 0; successful_operations := 0; failed_operations := 0;
         total_execution_time := 0; execution_mode := SEQUENTIAL; started_at := now;
         completed_at := None; continue_on_error := true |}.

(** The [try] block of [execute_batch_operations_async].  [sched] is the
    interleaving the event loop chooses for the tasks of the parallel
    branch; the sequential branch does not look at it. *)
Definition batch_body (sched : list nat) (operations : list operation)
    (execution_mode_ : string) (continue_on_error_ : bool) (timeout_seconds : Z)
    : M BatchExecutionResponse :=
  start_time <- utcnow ;;
  let mode := resolve_mode execution_mode_ in
  results_ <-
    match mode with
    | PARALLEL =>
        (* Execute operations in parallel *)
        outcomes <- gather timeout_seconds sched operations ;;
        convert_exceptions 0 operations outcomes
    | SEQUENTIAL =>
        (* Execute operations sequentially *)
        sequential_loop continue_on_error_ timeout_seconds 0 operations []
    end ;;
  (* Create summary *)
  end_time <- utcnow ;;
  let successful_ops := Z.of_nat (length (filter (fun r => success r = true) results_)) in
  let failed_ops := Z.of_nat (length results_) - successful_ops in
  ret {| results := results_;
         summary := {| total_operations := Z.of_nat (length operations);
                       successful_operations := successful_ops;
                       failed_operations := failed_ops;
                       total_execution_time := end_time - start_time;
                       execution_mode := mode;
                       started_at := start_time;
                       completed_at := Some end_time;
                       continue_on_error := continue_on_error_ |};
         errors := []; warnings := [] |}.

Definition execute_batch_operations_async (sched : list nat) (operations : list operation)
    (execution_mode_ : string) (continue_on_error_ : bool) (timeout_seconds : Z)
    : M BatchExecutionResponse :=
  try_except
    (batch_body sched operations execution_mode_ continue_on_error_ timeout_seconds)
    (fun e =>
       summary_ <- BatchSummary_default ;;
       ret {| results := []; summary := summary_; errors := [str_exn e]; warnings := [] |}).

(** *** Schema retrieval through the cache ([get_schema_async]) *)

Context `{!SchemaHelper}.

(** [await self.schema_helper.get_schema_async(endpoint_info, max_depth)] *)
Definition helper_get_schema (endpoint_info : GraphQlEndpointInfo) (max_depth : Z)
    : M (option SchemaInfo) :=
  fun s =>
    let (r, w) := introspect endpoint_info max_depth (world s) in
    Done r (set_world w s).

Definition get_schema_async (endpoint_name : string) (max_depth : Z) (use_cache : bool)
    : M (option SchemaInfo) :=
  try_except
    ((* Check cache first *)
     cached_schema <- (if use_cache then get_endpoint_schema endpoint_name else ret None) ;;
     match cached_schema with
     | Some cached => ret (Some cached)
     | None =>
         (* Get endpoint info *)
         endpoint_info <- get_endpoint endpoint_name ;;
         match endpoint_info with
         | None => ret None
         | Some info =>
             (* Fetch schema *)
             schema_info <- helper_get_schema info max_depth ;;
             (* Cache the result *)
             match schema_info with
             | Some si =>
                 if use_cache then update_endpoint_schema endpoint_name si ;;; ret tt
                 else ret tt
             | None => ret tt
             end ;;;
             ret schema_info
         end
     end)
    (fun _ => ret None).

(** *** Schema complexity ([analyze_schema_complexity_async])

    The metrics are computed from the type descriptors and the root type
    references of a schema; of a type descriptor only the name and the
    fields are read, of a root reference only the name. *)

Record TypeReference : Type := {
  ref_kind : string;
  ref_name : option string
}.

Record GraphQlTypeInfo : Type := {
  ti_kind : string;
  ti_name : string;
  ti_fields : list string
}.

(** [next((t for t in types if t.name == ref.name), None)] *)
Definition find_type (types : list GraphQlTypeInfo) (ref : TypeReference)
    : option GraphQlTypeInfo :=
  List.find (fun t => bool_decide (Some (ti_name t) = ref_name ref)) types.

(** The operations that one root type contributes: the number of fields of
    the first type descriptor with the name of the root, if there is a root
    and such a descriptor. *)
Definition root_operations (types : list GraphQlTypeInfo) (root : option TypeReference) : Z :=
  match root with
  | Some ref =>
      match find_type types ref with
      | Some t => Z.of_nat (length (ti_fields t))
      | None => 0
      end
  | None => 0
  end.

Definition total_types (types : list GraphQlTypeInfo) : Z := Z.of_nat (length types).

(** [sum(len(type_info.fields) for type_info in schema_info.types)] *)
Definition total_fields (types : list GraphQlTypeInfo) : Z :=
  foldr (fun t acc => Z.of_nat (length (ti_fields t)) + acc) 0 types.

Definition schema_operations (types : list GraphQlTypeInfo)
    (query_type mutation_type : option TypeReference) : Z :=
  root_operations types query_type + root_operations types mutation_type.

(** [min(100, (total_types * 2) + (total_fields // 10) + (total_operations * 3))] *)
Definition complexity_score (types : list GraphQlTypeInfo)
    (query_type mutation_type : option TypeReference) : Z :=
  Z.min 100 (total_types types * 2 + total_fields types / 10 +
             schema_operations types query_type mutation_type * 3).

Definition _get_complexity_rating (score : Z) : string :=
  if score <? 20 then "Simple"
  else if score <? 50 then "Moderate"
  else if score <? 80 then "Complex"
  else "Very Complex".


(** *** Schema comparison ([compare_endpoint_schemas_async])

    The answer is one of three dictionaries.  Of the comparison, the entries
    [similarity_score] and [are_compatible] are floating-point results and
    are not part of the model; the division that computes them is, as far
    as it raises [ZeroDivisionError]. *)

Record SchemaComparison : Type := {
  cmp_endpoint_a : string;
  cmp_endpoint_b : string;
  total_types_a : Z;
  total_types_b : Z;
  common_types : Z;
  unique_to_a : Z;
  unique_to_b : Z;
  comparison_timestamp : datetime
}.

Inductive comparison_result : Type :=
  (** [{"error": "Could not retrieve schemas for comparison", ...}] *)
  | SchemasUnavailable (endpoint_a_available endpoint_b_available : bool)
  (** [{"error": str(e)}] *)
  | ComparisonFailed (error_text : string)
  | Compared (c : SchemaComparison).

(** [{t.name for t in schema.types}] *)
Definition type_names (schema : SchemaInfo) : gset string :=
  list_to_set (schema_types schema).

Definition compare_endpoint_schemas_async (endpoint_a endpoint_b : string)
    : M comparison_result :=
  try_except
    (schema_a <- get_schema_async endpoint_a 3 true ;;
     schema_b <- get_schema_async endpoint_b 3 true ;;
     match schema_a, schema_b with
     | Some a, Some b =>
         (* Compare type counts *)
         let types_a := type_names a in
         let types_b := type_names b in
         let common := types_a ∩ types_b in
         let unique_a := types_a ∖ types_b in
         let unique_b := types_b ∖ types_a in
         if Z.max (Z.of_nat (size types_a)) (Z.of_nat (size types_b)) =? 0
         then (* the division raises, and the [except] clause answers *)
           ret (ComparisonFailed "division by zero")
         else
           now <- utcnow ;;
           ret (Compared {| cmp_endpoint_a := endpoint_a;
                            cmp_endpoint_b := endpoint_b;
                            total_types_a := Z.of_nat (size types_a);
                            total_types_b := Z.of_nat (size types_b);
                            common_types := Z.of_nat (size common);
                            unique_to_a := Z.of_nat (size unique_a);
                            unique_to_b := Z.of_nat (size unique_b);
                            comparison_timestamp := now |})
     | _, _ =>
         ret (SchemasUnavailable (bool_decide (is_Some schema_a))
                                 (bool_decide (is_Some schema_b)))
     end)
    (fun e => ret (ComparisonFailed (str_exn e))).


(** ** Vocabulary of the statements *)

(** The state after one reading of the clock, and the time that was read. *)
Definition tick (s : State) : State := set_world (clock (world s)).2 s.
Definition time_of (s : State) : datetime := (clock (world s)).1.

(** [sat_or B o Q E]: the computation ended with a value and a state in
    [Q], or with an exception and a state in [E], or it blocked and [B]
    holds.  [sat o Q E] is the case where it does not block. *)
Definition sat_or (B : Prop) {A} (o : outcome A) (Q : A -> State -> Prop)
    (E : pyexn -> State -> Prop) : Prop :=
  match o with
  | Done a s => Q a s
  | Raised e s => E e s
  | Blocked => B
  end.

(** The entries of an operation that are echoed into its result have the
    types [BatchOperationResult] declares (an absent entry is replaced by a
    default of the right type). *)
Definition well_typed (op : operation) : Prop :=
  is_Some (as_str (dict_get op "name" (PyStr ""))) /\
  is_Some (as_str (dict_get op "endpoint" (PyStr ""))) /\
  is_Some (as_opt_str (dict_get op "query" (PyStr ""))) /\
  is_Some (as_opt_dict (dict_get op "variables" (PyDict []))).

(** The name and the endpoint of an operation are strings: these are the
    two entries that the batch loop echoes into the failed result it builds
    from an exception. *)
Definition reportable (op : operation) : Prop :=
  is_Some (as_str (dict_get op "name" (PyStr ""))) /\
  is_Some (as_str (dict_get op "endpoint" (PyStr ""))).

(** [r] is a result for the operation [op] at position [i]. *)
Definition result_for (op : operation) (i : nat) (r : BatchOperationResult) : Prop :=
  index r = i ∧
  dict_get op "name" (default_name i) = PyStr (res_name r) ∧
  dict_get op "endpoint" (PyStr "") = PyStr (res_endpoint r).

(** The request that the operation [op] sends to the endpoint [info]. *)
Definition request_of (info : GraphQlEndpointInfo) (op : operation) (timeout_seconds : Z)
    : gw_request :=
  {| gw_url := url info;
     gw_query := dict_get op "query" (PyStr "");
     gw_variables := dict_get op "variables" (PyDict []);
     gw_headers := headers info;
     gw_timeout := timeout_seconds |}.

(** [r] reports what happened to the operation [op] in a registry with the
    endpoints [eps]: an endpoint that is not registered is a failure with
    the message "Endpoint not found"; otherwise the gateway has answered
    the request of [op], at some moment [w], and [r] is a success exactly
    when the answer has no errors, with the data of the answer and its
    error messages; a fault of the gateway is a failure with the text of
    the fault. *)
Definition reports (eps : gmap string GraphQlEndpointInfo) (timeout_seconds : Z)
    (op : operation) (r : BatchOperationResult) : Prop :=
  exists e, dict_get op "endpoint" (PyStr "") = PyStr e /\
    match eps !! e with
    | None =>
        success r = false /\ data r = None /\
        error r = Some ("Endpoint not found: " +:+ e)
    | Some info =>
        exists w,
          match (gateway (request_of info op timeout_seconds) w).1 with
          | GwReturn d errs =>
              success r = no_errors errs /\ data r = d /\ error r = joined_messages errs
          | GwRaise msg =>
              success r = false /\ data r = None /\ error r = Some msg
          end
    end.

(** A result in the response: it belongs to [op] at position [i], and
    either [op] is well typed and the result reports what happened to it,
    or [op] is not and the result is a failure with an error message. *)
Definition good_result (eps : gmap string GraphQlEndpointInfo) (timeout_seconds : Z)
    (op : operation) (i : nat) (r : BatchOperationResult) : Prop :=
  result_for op i r /\
  ((well_typed op /\ reports eps timeout_seconds op r) \/
   (~ well_typed op /\ success r = false /\ data r = None /\ is_Some (error r))).

(** The results [rs] belong, in order, to the first operations of [ops],
    which stand at the positions [i], [i+1], ... of the input list. *)
Definition results_ok (eps : gmap string GraphQlEndpointInfo) (timeout_seconds : Z)
    (i : nat) (ops : list operation) (rs : list BatchOperationResult) : Prop :=
  forall j r, rs !! j = Some r ->
    exists op, ops !! j = Some op /\ good_result eps timeout_seconds op (i + j) r.

(** What a task of the parallel branch can hold for the operation [op] at
    position [i]: its own operation while it runs (and, once it waits for
    the gateway, the endpoint registered under the name that [op] gives),
    and at the end a good result, or an exception when [op] is not well
    typed. *)
Definition outcome_ok (eps : gmap string GraphQlEndpointInfo) (timeout_seconds : Z)
    (op : operation) (i : nat) (o : pyexn + BatchOperationResult) : Prop :=
  match o with
  | inr r => good_result eps timeout_seconds op i r
  | inl _ => ~ well_typed op
  end.

Definition task_ok (eps : gmap string GraphQlEndpointInfo) (timeout_seconds : Z)
    (op : operation) (i : nat) (t : task) : Prop :=
  match t with
  | Created op' i' => op' = op /\ i' = i
  | Suspended sp =>
      sp_operation sp = op /\ sp_index sp = i /\
      exists e, dict_get op "endpoint" (PyStr "") = PyStr e /\ eps !! e = Some (sp_info sp)
  | Finished o => outcome_ok eps timeout_seconds op i o
  end.

Definition tasks_ok (eps : gmap string GraphQlEndpointInfo) (timeout_seconds : Z)
    (i : nat) (ops : list operation) (tasks : list task) : Prop :=
  length tasks = length ops /\
  forall j op t, ops !! j = Some op -> tasks !! j = Some t ->
    task_ok eps timeout_seconds op (i + j) t.

Definition outcomes_ok (eps : gmap string GraphQlEndpointInfo) (timeout_seconds : Z)
    (i : nat) (ops : list operation) (outcomes : list (pyexn + BatchOperationResult)) : Prop :=
  length outcomes = length ops /\
  forall j op o, ops !! j = Some op -> outcomes !! j = Some o ->
    outcome_ok eps timeout_seconds op (i + j) o.

(** The registry between two steps of a batch: the lock is free and the
    endpoints are [eps]. *)
Definition at_rest (eps : gmap string GraphQlEndpointInfo) (s : State) : Prop :=
  _lock s = false /\ _endpoints s = eps.

(** A result list for [n] operations that is shorter than [n] ends with a
    failed result. *)
Definition stops_at_failure (n : nat) (rs : list BatchOperationResult) : Prop :=
  (length rs < n)%nat -> exists r, last rs = Some r /\ success r = false.

(** Every result but the last is a success. *)
Definition succeeds_up_to_last (rs : list BatchOperationResult) : Prop :=
  forall j r, rs !! j = Some r -> (S j < length rs)%nat -> success r = true.

(** What one turn of the sequential loop appends to [results] for the
    operation at position [i]: the result of the operation, or the failed
    result built by the [except] clause of the loop. *)
Definition attempt_operation (op : operation) (i : nat) (timeout_seconds : Z)
    : M BatchOperationResult :=
  try_except (_execute_single_operation op i timeout_seconds) (exception_result op i).

(** The operations [ops], at positions [i], [i+1], ..., run one after the
    other from [s] to [s'] and every one of them succeeds; [rs] are their
    results. *)
Inductive all_succeed (timeout_seconds : Z)
    : nat -> list operation -> State -> list BatchOperationResult -> State -> Prop :=
| all_succeed_nil i s : all_succeed timeout_seconds i [] s [] s
| all_succeed_cons i op ops s r s1 rs s2 :
    attempt_operation op i timeout_seconds s = Done r s1 ->
    success r = true ->
    all_succeed timeout_seconds (S i) ops s1 rs s2 ->
    all_succeed timeout_seconds i (op :: ops) s (r :: rs) s2.

(** The response of a batch that ran through: no batch-level error, the
    results belong to the operations in input order and report them, the
    summary counts them; no operation is left out under continue_on_error
    or in parallel mode, and otherwise only the operations after the first
    failed result. *)
Definition normal_response (eps : gmap string GraphQlEndpointInfo) (timeout_seconds : Z)
    (ops : list operation) (mode : string) (coe : bool)
    (resp : BatchExecutionResponse) : Prop :=
  errors resp = [] /\
  results_ok eps timeout_seconds 0 ops (results resp) /\
  (coe = true \/ resolve_mode mode = PARALLEL -> length (results resp) = length ops) /\
  execution_mode (summary resp) = resolve_mode mode /\
  total_operations (summary resp) = Z.of_nat (length ops) /\
  successful_operations (summary resp) =
    Z.of_nat (length (filter (fun r => success r = true) (results resp))) /\
  failed_operations (summary resp) =
    Z.of_nat (length (results resp)) - successful_operations (summary resp) /\
  stops_at_failure (length ops) (results resp) /\
  (coe = false -> resolve_mode mode = SEQUENTIAL -> succeeds_up_to_last (results resp)).

(** The response built by the outermost [except] clause. *)
Definition fault_response (resp : BatchExecutionResponse) : Prop :=
  results resp = [] /\
  (exists e, errors resp = [str_exn e]) /\
  total_operations (summary resp) = 0 /\
  successful_operations (summary resp) = 0 /\
  failed_operations (summary resp) = 0 /\
  execution_mode (summary resp) = SEQUENTIAL.

(** The calls a client of the registry can make. *)
Inductive registry_call : Type :=
| CallRegisterEndpoint (endpoint_info : GraphQlEndpointInfo) (schema_info : option SchemaInfo)
| CallUnregisterEndpoint (endpoint_name : string)
| CallUpdateEndpointSchema (endpoint_name : string) (schema_info : SchemaInfo)
| CallRegisterTool (tool_name endpoint_name : string)
| CallRecordEndpointAccess (endpoint_name : string) (ok : bool)
| CallCleanupStaleEndpoints (max_age_hours : Z).

Definition run_call (c : registry_call) : M unit :=
  match c with
  | CallRegisterEndpoint info schema => register_endpoint info schema ;;; ret tt
  | CallUnregisterEndpoint e => unregister_endpoint e ;;; ret tt
  | CallUpdateEndpointSchema e schema => update_endpoint_schema e schema ;;; ret tt
  | CallRegisterTool t e => register_tool t e ;;; ret tt
  | CallRecordEndpointAccess e ok => record_endpoint_access e ok
  | CallCleanupStaleEndpoints h => cleanup_stale_endpoints h ;;; ret tt
  end.

(** Running a list of registry calls; [None] when one of them does not
    return. *)
Fixpoint run_calls (cs : list registry_call) (s : State) : option State :=
  match cs with
  | [] => Some s
  | c :: rest =>
      match run_call c s with
      | Done _ s' => run_calls rest s'
      | _ => None
      end
  end.

(** The states of the registry that a process can be in: the registry is
    created empty, clients call it, and the world moves on between calls. *)
Inductive reachable : State -> Prop :=
| reachable_init w : reachable (init_state w)
| reachable_call s c s' : reachable s -> run_call c s = Done tt s' -> reachable s'
| reachable_world s w : reachable s -> reachable (set_world w s).

(** The two directions of the tool index agree. *)
Definition tool_index_consistent (s : State) : Prop :=
  forall t e : string,
    t ∈ tools_of (_endpoint_to_tools s) e <-> _tool_to_endpoint s !! t = Some e.

Definition stats_balanced (st : EndpointStats) : Prop :=
  access_count st = success_count st + error_count st.

Definition all_balanced (s : State) : Prop :=
  forall e st, _endpoint_stats s !! e = Some st -> stats_balanced st.

(** *** Vocabulary of the further statements *)

(** Every entry of the reverse map is backed by the tool set of its
    endpoint, and that endpoint is registered. *)
Definition tool_map_backed (s : State) : Prop :=
  forall t e, _tool_to_endpoint s !! t = Some e ->
    t ∈ tools_of (_endpoint_to_tools s) e /\ is_Some (_endpoints s !! e).

(** The dictionaries keyed by endpoint name cover the same names. *)
Definition domains_agree (s : State) : Prop :=
  dom (_endpoint_stats s) = dom (_endpoints s) /\
  dom (_last_updated s) = dom (_endpoints s) /\
  dom (_endpoint_schemas s) ⊆ dom (_endpoints s).

(** [s'] differs from [s] at most in the tool index and in the statistics:
    the tools in [l] are gone from the reverse map, no other entry of the
    reverse map changed, and no tool outside [l] left or joined a tool
    set. *)
Definition tools_removed (l : list string) (s s' : State) : Prop :=
  _endpoints s' = _endpoints s /\
  _endpoint_schemas s' = _endpoint_schemas s /\
  _last_updated s' = _last_updated s /\
  _lock s' = _lock s /\ world s' = world s /\ gateway_log s' = gateway_log s /\
  dom (_endpoint_stats s') = dom (_endpoint_stats s) /\
  (forall t, t ∈ l -> _tool_to_endpoint s' !! t = None) /\
  (forall t, t ∉ l -> _tool_to_endpoint s' !! t = _tool_to_endpoint s !! t) /\
  (forall e t, t ∈ tools_of (_endpoint_to_tools s') e -> t ∈ tools_of (_endpoint_to_tools s) e) /\
  (forall e t, t ∉ l -> t ∈ tools_of (_endpoint_to_tools s) e ->
               t ∈ tools_of (_endpoint_to_tools s') e).


(** [s'] is [s] after some steps of a batch that made at most [n] gateway
    calls: the lock is free again, the endpoints, the schemas, the tool
    index and the update times are as in [s], statistics are kept for the
    same endpoints, and the gateway log grew by at most [n] calls. *)
Definition batch_frame (n : nat) (s s' : State) : Prop :=
  _lock s' = false /\
  _endpoints s' = _endpoints s /\
  _endpoint_schemas s' = _endpoint_schemas s /\
  _tool_to_endpoint s' = _tool_to_endpoint s /\
  _endpoint_to_tools s' = _endpoint_to_tools s /\
  _last_updated s' = _last_updated s /\
  dom (_endpoint_stats s') = dom (_endpoint_stats s) /\
  exists calls, gateway_log s' = gateway_log s ++ calls /\ (length calls <= n)%nat.

(** The gateway calls a task can still make. *)
Definition calls_left (tk : task) : nat :=
  match tk with
  | Finished _ => 0
  | _ => 1
  end.


End Services.

Arguments Done {_ A} a s.
Arguments Raised {_ A} e s.
Arguments Blocked {_ A}.

Abbreviation sat := (sat_or False).

(** ** A concrete platform for the examples

    The clock advances by one microsecond each time it is read.  The
    gateway answers by URL: [http://down] yields one HTTP error, any other
    URL yields an empty data object without errors. *)

Definition demo_gateway (rq : gw_request) (w : Z) : gw_reply * Z :=
  (if String.eqb (gw_url rq) "http://down"
   then GwReturn None [{| message := "HTTP 503: Service Unavailable";
                          category := "HTTP"; severity := "Error" |}]
   else GwReturn (Some (PyDict [])) [],
   w).

Definition demo_platform : Platform :=
  {| World := Z;
     clock := fun w => (w, w + 1);
     gateway := demo_gateway;
     validation_text := fun model fields =>
       "validation error for " +:+ model +:+ ": " +:+ String.concat ", " fields |}.

Section DemoData.
#[local] Existing Instance demo_platform.

Definition demo_endpoint (n u : string) : GraphQlEndpointInfo :=
  {| name := n; url := u; headers := []; allow_mutations := false;
     tool_prefix := ""; schema_content := None |}.

Definition demo_operation (e : string) : list (string * pyval) :=
  [("endpoint", PyStr e); ("query", PyStr "{ ping }")].

(** Two endpoints [A] (up) and [B] (down), registered at time 0. *)
Definition demo_two_calls : list registry_call :=
  [CallRegisterEndpoint (demo_endpoint "A" "http://up") None;
   CallRegisterEndpoint (demo_endpoint "B" "http://down") None].

Definition demo_two_endpoints : State :=
  default (init_state 0) (run_calls demo_two_calls (init_state 0)).

(** One microsecond is the unit of time. *)
Definition hours (n : Z) : Z := n * 3600000000.

(** A tool registered for [A] and then registered again for [B]. *)
Definition demo_reassociation : list registry_call :=
  [CallRegisterEndpoint (demo_endpoint "A" "http://up") None;
   CallRegisterEndpoint (demo_endpoint "B" "http://down") None;
   CallRegisterTool "t" "A";
   CallRegisterTool "t" "B"].

Definition demo_reassociated : State :=
  default (init_state 0) (run_calls demo_reassociation (init_state 0)).

(** One endpoint [E], registered at time 0 and never accessed, seen two
    hours later. *)
Definition demo_one_endpoint : State :=
  default (init_state 0)
    (run_calls [CallRegisterEndpoint (demo_endpoint "E" "http://up") None] (init_state 0)).

Definition demo_two_hours_later : State := set_world (hours 2) demo_one_endpoint.

(** The same endpoint seen ten million hours and one microsecond after its
    registration: as a float, its age in hours is ten million exactly. *)
Definition demo_long_idle : State := set_world (hours 10000000 + 1) demo_one_endpoint.

(** Endpoint [A] with a cached schema, one tool and two recorded
    accesses. *)
Definition demo_schema : SchemaInfo :=
  {| schema_types := ["Query"]; last_modified := 0; version := "v1" |}.

Definition demo_schema_v2 : SchemaInfo :=
  {| schema_types := ["Query"; "Mutation"]; last_modified := 9; version := "v2" |}.

Definition demo_busy_calls : list registry_call :=
  [CallRegisterEndpoint (demo_endpoint "A" "http://up") (Some demo_schema);
   CallRegisterTool "t" "A";
   CallRecordEndpointAccess "A" true;
   CallRecordEndpointAccess "A" false].

Definition demo_busy : State :=
  default (init_state 0) (run_calls demo_busy_calls (init_state 0)).

(** An operation whose name is a list. *)
Definition demo_malformed : list (string * pyval) :=
  [("name", PyList []); ("endpoint", PyStr "ghost")].

End DemoData.

(** An introspection that answers with [demo_schema] for the endpoints at
    [http://up] and with nothing for the others, in one unit of time. *)
Definition demo_introspect (info : GraphQlEndpointInfo) (timeout : Z) (w : Z)
    : option SchemaInfo * Z :=
  (if bool_decide (url info = "http://up") then Some demo_schema else None, w + 1).

Definition demo_schema_helper : @SchemaHelper demo_platform :=
  @Build_SchemaHelper demo_platform demo_introspect.


(** * Proofs *)

Section Proofs.
Context `{Platform}.
Context `{!SchemaHelper}.

(** ** Reasoning about outcomes *)

Lemma sat_or_mono (B : Prop) {A} (o : outcome A) (Q Q' : A -> State -> Prop)
    (E E' : pyexn -> State -> Prop) :
  sat_or B o Q E ->
  (forall a s, Q a s -> Q' a s) ->
  (forall e s, E e s -> E' e s) ->
  sat_or B o Q' E'.
Proof. destruct o; simpl; auto. Qed.

Lemma sat_or_bind (B : Prop) {A C} (m : M A) (f : A -> M C) s Q E :
  sat_or B (m s) (fun a s' => sat_or B (f a s') Q E) E ->
  sat_or B (bind m f s) Q E.
Proof. unfold bind. destruct (m s); simpl; auto. Qed.

Lemma sat_or_try (B : Prop) {A} (body : M A) (h : pyexn -> M A) s Q E :
  sat_or B (body s) Q (fun e s' => sat_or B (h e s') Q E) ->
  sat_or B (try_except body h s) Q E.
Proof. unfold try_except. destruct (body s); simpl; auto. Qed.

Lemma sat_or_with_lock (B : Prop) {A} (body : M A) s Q E :
  (if _lock s then B
   else sat_or B (body (set_lock true s))
          (fun a s' => Q a (set_lock false s'))
          (fun e s' => E e (set_lock false s'))) ->
  sat_or B (with_lock body s) Q E.
Proof.
  unfold with_lock. destruct (_lock s); simpl; auto.
  destruct (body (set_lock true s)); simpl; auto.
Qed.

Lemma sat_or_utcnow (B : Prop) s Q E :
  Q (time_of s) (tick s) -> sat_or B (utcnow s) Q E.
Proof.
  unfold utcnow, time_of, tick. destruct (clock (world s)); simpl; auto.
Qed.

Lemma sat_or_for_each (B : Prop) {A} (I : State -> Prop) (E : pyexn -> State -> Prop)
    (body : A -> M unit) (l : list A) :
  (forall x s, I s -> sat_or B (body x s) (fun _ s' => I s') E) ->
  forall s, I s -> sat_or B (for_each l body s) (fun _ s' => I s') E.
Proof.
  intros Hbody. induction l as [|x l IH]; intros s Hs; simpl; [exact Hs|].
  apply sat_or_bind. eapply sat_or_mono; [apply Hbody, Hs | | auto].
  intros u s' Hs'. simpl. apply IH, Hs'.
Qed.

Lemma utcnow_eq s : utcnow s = Done (time_of s) (tick s).
Proof. unfold utcnow, time_of, tick. destruct (clock (world s)); reflexivity. Qed.

Lemma unlock_relock s : _lock s = false -> set_lock false (set_lock true s) = s.
Proof. destruct s; simpl; intros ->; reflexivity. Qed.

Lemma with_lock_gets {A} (f : State -> A) s :
  _lock s = false -> with_lock (gets f) s = Done (f (set_lock true s)) s.
Proof.
  intros Hl. unfold with_lock, gets. rewrite Hl. f_equal. apply unlock_relock, Hl.
Qed.

Lemma sat_or_ret (B : Prop) {A} (a : A) s Q E : Q a s -> sat_or B (ret a s) Q E.
Proof. auto. Qed.

Lemma sat_or_raise (B : Prop) {A} e s (Q : A -> State -> Prop) E :
  E e s -> sat_or B (raise e s) Q E.
Proof. auto. Qed.

Lemma sat_or_gets (B : Prop) {A} (f : State -> A) s Q E :
  Q (f s) s -> sat_or B (gets f s) Q E.
Proof. auto. Qed.

Lemma sat_or_modify (B : Prop) (f : State -> State) s Q E :
  Q tt (f s) -> sat_or B (modify f s) Q E.
Proof. auto. Qed.

(** Decomposing a goal [sat_or B (m s) Q E] along the structure of [m]. *)
Ltac sat_step :=
  lazymatch goal with
  | |- sat_or _ (bind _ _ _) _ _ => apply sat_or_bind
  | |- sat_or _ (try_except _ _ _) _ _ => apply sat_or_try
  | |- sat_or _ (with_lock _ _) _ _ => apply sat_or_with_lock
  | |- sat_or _ (utcnow _) _ _ => apply sat_or_utcnow
  | |- sat_or _ (ret _ _) _ _ => apply sat_or_ret
  | |- sat_or _ (raise _ _) _ _ => apply sat_or_raise
  | |- sat_or _ (gets _ _) _ _ => apply sat_or_gets
  | |- sat_or _ (modify _ _) _ _ => apply sat_or_modify
  end; cbv beta.

(** ** The registry *)

Lemma all_balanced_insert s e st :
  all_balanced s -> stats_balanced st ->
  forall e' st', <[e := st]> (_endpoint_stats s) !! e' = Some st' -> stats_balanced st'.
Proof.
  intros Hs Hst e' st'. rewrite lookup_insert. case_decide.
  - intros [= <-]. exact Hst.
  - apply Hs.
Qed.

Lemma fresh_stats_balanced now schema : stats_balanced (fresh_stats now schema).
Proof. reflexivity. Qed.

Lemma record_access_balanced now ok st :
  stats_balanced st -> stats_balanced (record_access now ok st).
Proof. unfold stats_balanced. destruct ok; simpl; lia. Qed.

Lemma register_endpoint_balanced info schema s :
  all_balanced s ->
  sat_or True (register_endpoint info schema s)
    (fun _ s' => all_balanced s') (fun _ s' => all_balanced s').
Proof.
  intros Hs. unfold register_endpoint.
  repeat sat_step. destruct (_lock s); [exact I|].
  repeat sat_step.
  destruct schema; repeat sat_step;
    intros e st; simpl; apply (all_balanced_insert s); auto using fresh_stats_balanced.
Qed.

Lemma update_tool_count_balanced e s :
  all_balanced s ->
  sat_or True (update_tool_count e s)
    (fun _ s' => all_balanced s') (fun _ s' => all_balanced s').
Proof.
  intros Hs. unfold update_tool_count. repeat sat_step.
  destruct (_endpoint_stats s !! e) as [st|] eqn:He; repeat sat_step; [|exact Hs].
  intros e' st'. simpl. apply (all_balanced_insert s); [exact Hs|].
  apply (Hs e st He).
Qed.

Lemma _remove_tool_balanced t s :
  all_balanced s ->
  sat_or True (_remove_tool t s)
    (fun _ s' => all_balanced s') (fun _ s' => all_balanced s').
Proof.
  intros Hs. unfold _remove_tool. repeat sat_step.
  destruct (_tool_to_endpoint s !! t) as [e|]; [destruct (String.eqb e "")|];
    repeat sat_step; try exact Hs.
  eapply sat_or_mono; [apply update_tool_count_balanced; exact Hs | |]; cbv beta.
  - intros _ s' Hs'. repeat sat_step. exact Hs'.
  - intros _ s' Hs'. repeat sat_step. exact Hs'.
Qed.

Lemma all_balanced_delete s e :
  all_balanced s ->
  forall e' st', delete e (_endpoint_stats s) !! e' = Some st' -> stats_balanced st'.
Proof.
  intros Hs e' st'. rewrite lookup_delete. case_decide; [discriminate|apply Hs].
Qed.

Lemma unregister_endpoint_balanced e s :
  all_balanced s ->
  sat_or True (unregister_endpoint e s)
    (fun _ s' => all_balanced s') (fun _ s' => all_balanced s').
Proof.
  intros Hs. unfold unregister_endpoint.
  repeat sat_step. destruct (_lock s); [exact I|].
  repeat sat_step.
  destruct (_endpoints (set_lock true s) !! e); repeat sat_step; [|exact Hs].
  eapply sat_or_mono.
  - apply (sat_or_for_each True all_balanced (fun _ s' => all_balanced s')); [|exact Hs].
    intros t s1 Hs1. sat_step.
    eapply sat_or_mono; [apply _remove_tool_balanced, Hs1 | |]; cbv beta; auto.
  - cbv beta. intros _ s1 Hs1. repeat sat_step.
    intros e' st'. simpl. apply all_balanced_delete, Hs1.
  - cbv beta. intros _ s1 Hs1. repeat sat_step. exact Hs1.
Qed.

Lemma update_endpoint_schema_balanced e schema s :
  all_balanced s ->
  sat_or True (update_endpoint_schema e schema s)
    (fun _ s' => all_balanced s') (fun _ s' => all_balanced s').
Proof.
  intros Hs. unfold update_endpoint_schema.
  repeat sat_step. destruct (_lock s); [exact I|].
  repeat sat_step.
  destruct (_endpoints (set_lock true s) !! e); repeat sat_step; [|exact Hs].
  simpl.
  destruct (_endpoint_stats s !! e) as [st|] eqn:He; repeat sat_step; [|exact Hs].
  intros e' st'. simpl. apply (all_balanced_insert s); [exact Hs|].
  apply (Hs e st He).
Qed.

Lemma register_tool_balanced t e s :
  all_balanced s ->
  sat_or True (register_tool t e s)
    (fun _ s' => all_balanced s') (fun _ s' => all_balanced s').
Proof.
  intros Hs. unfold register_tool.
  repeat sat_step. destruct (_lock s); [exact I|].
  repeat sat_step.
  destruct (_endpoints (set_lock true s) !! e); repeat sat_step; [|exact Hs].
  eapply sat_or_mono; [apply update_tool_count_balanced; exact Hs | |]; cbv beta.
  - intros _ s' Hs'. repeat sat_step. exact Hs'.
  - intros _ s' Hs'. repeat sat_step. exact Hs'.
Qed.

Lemma record_endpoint_access_balanced e ok s :
  all_balanced s ->
  sat_or True (record_endpoint_access e ok s)
    (fun _ s' => all_balanced s') (fun _ s' => all_balanced s').
Proof.
  intros Hs. unfold record_endpoint_access.
  repeat sat_step. destruct (_lock s); [exact I|].
  repeat sat_step. simpl.
  destruct (_endpoint_stats s !! e) as [st|] eqn:He; repeat sat_step; [|exact Hs].
  intros e' st'. simpl. apply (all_balanced_insert s); [exact Hs|].
  apply record_access_balanced, (Hs e st He).
Qed.

Lemma cleanup_stale_endpoints_balanced h s :
  all_balanced s ->
  sat_or True (cleanup_stale_endpoints h s)
    (fun _ s' => all_balanced s') (fun _ s' => all_balanced s').
Proof.
  intros Hs. unfold cleanup_stale_endpoints.
  repeat sat_step. destruct (_lock s); [exact I|].
  repeat sat_step.
  eapply sat_or_mono.
  - apply (sat_or_for_each True all_balanced (fun _ s' => all_balanced s')); [|exact Hs].
    intros e s1 Hs1. sat_step.
    eapply sat_or_mono; [apply unregister_endpoint_balanced, Hs1 | |]; cbv beta; auto.
  - cbv beta. intros _ s1 Hs1. repeat sat_step. exact Hs1.
  - cbv beta. auto.
Qed.

Lemma run_call_balanced c s :
  all_balanced s ->
  sat_or True (run_call c s) (fun _ s' => all_balanced s') (fun _ s' => all_balanced s').
Proof.
  intros Hs. destruct c; simpl; try sat_step.
  - eapply sat_or_mono; [apply register_endpoint_balanced, Hs | |]; cbv beta; auto.
  - eapply sat_or_mono; [apply unregister_endpoint_balanced, Hs | |]; cbv beta; auto.
  - eapply sat_or_mono; [apply update_endpoint_schema_balanced, Hs | |]; cbv beta; auto.
  - eapply sat_or_mono; [apply register_tool_balanced, Hs | |]; cbv beta; auto.
  - apply record_endpoint_access_balanced, Hs.
  - eapply sat_or_mono; [apply cleanup_stale_endpoints_balanced, Hs | |]; cbv beta; auto.
Qed.

Lemma reachable_balanced s : reachable s -> all_balanced s.
Proof.
  induction 1 as [w | s c s' _ IH Hrun | s w _ IH].
  - intros e st. simpl. rewrite lookup_empty. discriminate.
  - pose proof (run_call_balanced c s IH) as Hc. rewrite Hrun in Hc. exact Hc.
  - exact IH.
Qed.

(** Every registry method gives the lock back. *)
Lemma with_lock_unlocked {A} (body : M A) s :
  sat_or True (with_lock body s) (fun _ s' => _lock s' = false) (fun _ s' => _lock s' = false).
Proof.
  apply sat_or_with_lock. destruct (_lock s); [exact I|].
  destruct (body (set_lock true s)); simpl; auto.
Qed.

Lemma run_call_unlocked c s :
  sat_or True (run_call c s) (fun _ s' => _lock s' = false) (fun _ s' => _lock s' = false).
Proof.
  destruct c; simpl; try sat_step;
    try (eapply sat_or_mono; [apply with_lock_unlocked | |]; cbv beta; auto);
    apply with_lock_unlocked.
Qed.

Lemma reachable_unlocked s : reachable s -> _lock s = false.
Proof.
  induction 1 as [w | s c s' _ IH Hrun | s w _ IH]; [reflexivity | | exact IH].
  pose proof (run_call_unlocked c s) as Hc. rewrite Hrun in Hc. exact Hc.
Qed.

Lemma run_calls_reachable cs : forall s s',
  reachable s -> run_calls cs s = Some s' -> reachable s'.
Proof.
  induction cs as [|c cs IH]; simpl; intros s s' Hs Hrun.
  - injection Hrun as <-. exact Hs.
  - destruct (run_call c s) as [[] s1| |] eqn:Hc; try discriminate.
    eapply IH; [|exact Hrun]. eapply reachable_call; eauto.
Qed.

Lemma sat_Done {A} (o : outcome A) Q E :
  sat o Q E -> (forall e s, ~ E e s) -> exists a s, o = Done a s /\ Q a s.
Proof.
  destruct o as [a s|e s|]; simpl; intros Ho HE; [eauto | destruct (HE _ _ Ho) | destruct Ho].
Qed.

Lemma register_endpoint_spec info schema s :
  _lock s = false ->
  sat (register_endpoint info schema s)
    (fun b s' =>
       b = true /\ _lock s' = false /\
       _endpoints s' = <[name info := info]> (_endpoints s) /\
       _endpoint_schemas s' =
         match schema with
         | Some si => <[name info := si]> (_endpoint_schemas s)
         | None => _endpoint_schemas s
         end /\
       (exists now, _endpoint_stats s' =
                      <[name info := fresh_stats now schema]> (_endpoint_stats s)) /\
       _tool_to_endpoint s' = _tool_to_endpoint s /\
       _endpoint_to_tools s' = _endpoint_to_tools s /\
       gateway_log s' = gateway_log s)
    (fun _ _ => False).
Proof.
  intros Hl. unfold register_endpoint.
  repeat sat_step. rewrite Hl. repeat sat_step.
  destruct schema; repeat sat_step; simpl; repeat split; eauto.
Qed.

Lemma record_endpoint_access_spec e ok s :
  _lock s = false ->
  match _endpoint_stats s !! e with
  | Some st =>
      exists s', record_endpoint_access e ok s = Done tt s' /\
        _endpoint_stats s' = <[e := record_access (time_of (set_lock true s)) ok st]> (_endpoint_stats s) /\
        _lock s' = false /\ gateway_log s' = gateway_log s /\
        _endpoints s' = _endpoints s
  | None => record_endpoint_access e ok s = Done tt s
  end.
Proof.
  intros Hl. unfold record_endpoint_access, with_lock, bind, gets. rewrite Hl. simpl.
  destruct (_endpoint_stats s !! e) as [st|] eqn:He.
  - rewrite utcnow_eq. unfold modify. eexists. split; [reflexivity|]. simpl. auto.
  - unfold ret. rewrite unlock_relock by exact Hl. reflexivity.
Qed.

(** C4: in every state the registry can reach, each endpoint's statistics
    satisfy access_count = success_count + error_count; from such a state
    [register_endpoint] returns [True] and leaves the three counters of the
    endpoint at zero, and [record_endpoint_access] adds one to access_count
    and to exactly one of success_count and error_count, and changes
    nothing when the endpoint has no statistics. *)
Theorem stats_access_invariant s :
  reachable s ->
  (forall e st, _endpoint_stats s !! e = Some st ->
     access_count st = success_count st + error_count st) /\
  (forall info schema, exists s' st,
     register_endpoint info schema s = Done true s' /\
     _endpoint_stats s' !! name info = Some st /\
     access_count st = 0 /\ success_count st = 0 /\ error_count st = 0) /\
  (forall e ok,
     match _endpoint_stats s !! e with
     | Some st => exists s' st',
         record_endpoint_access e ok s = Done tt s' /\
         _endpoint_stats s' !! e = Some st' /\
         access_count st' = access_count st + 1 /\
         success_count st' = success_count st + (if ok then 1 else 0) /\
         error_count st' = error_count st + (if ok then 0 else 1)
     | None => record_endpoint_access e ok s = Done tt s
     end).
Proof.
  intros Hs. pose proof (reachable_unlocked s Hs) as Hl. repeat split.
  - intros e st He. exact (reachable_balanced s Hs e st He).
  - intros info schema.
    destruct (sat_Done _ _ _ (register_endpoint_spec info schema s Hl))
      as (b & s' & Heq & -> & _ & _ & _ & [now Hst] & _); [tauto|].
    exists s', (fresh_stats now schema). split; [exact Heq|].
    rewrite Hst, lookup_insert_eq. auto.
  - intros e ok. pose proof (record_endpoint_access_spec e ok s Hl) as Hr.
    destruct (_endpoint_stats s !! e) as [st|]; [|exact Hr].
    destruct Hr as (s' & Heq & Hst & _).
    exists s', (record_access (time_of (set_lock true s)) ok st).
    split; [exact Heq|]. rewrite Hst, lookup_insert_eq.
    destruct ok; simpl; repeat split; lia.
Qed.

(** C9: registering again under a name that is already in use, with or
    without a schema, returns [True], overwrites the endpoint record and
    replaces the statistics by a fresh block: the three counters and
    tool_count are zero, last_accessed and last_introspection are unset,
    and schema_version is the version of the schema supplied, or empty
    when none is.  The tool index is left as it was.  The schema cache is
    left as it was when no schema is supplied, so that
    [get_endpoint_schema] still returns the schema cached before;
    otherwise the schema supplied replaces the cached one. *)
Theorem reregister_resets_stats_keeps_schema s info old schema cached :
  _lock s = false ->
  _endpoints s !! name info = Some old ->
  _endpoint_schemas s !! name info = cached ->
  exists s' st,
    register_endpoint info schema s = Done true s' /\
    _endpoints s' !! name info = Some info /\
    get_endpoint (name info) s' = Done (Some info) s' /\
    _endpoint_stats s' !! name info = Some st /\
    access_count st = 0 /\ success_count st = 0 /\ error_count st = 0 /\
    tool_count st = 0 /\
    schema_version st = match schema with Some si => version si | None => ""%string end /\
    last_accessed st = None /\ last_introspection st = None /\
    _endpoint_schemas s' = match schema with
                           | Some si => <[name info := si]> (_endpoint_schemas s)
                           | None => _endpoint_schemas s
                           end /\
    _endpoint_to_tools s' = _endpoint_to_tools s /\
    _tool_to_endpoint s' = _tool_to_endpoint s /\
    get_endpoint_schema (name info) s' =
      Done match schema with Some si => Some si | None => cached end s'.
Proof.
  intros Hl _ Hc.
  destruct (sat_Done _ _ _ (register_endpoint_spec info schema s Hl))
    as (b & s' & Heq & -> & Hl' & Hep & Hsc & [now Hst] & Ht2e & Htools & _); [tauto|].
  exists s', (fresh_stats now schema). split; [exact Heq|].
  unfold get_endpoint, get_endpoint_schema. rewrite !with_lock_gets by exact Hl'.
  change (_endpoints (set_lock true s')) with (_endpoints s').
  change (_endpoint_schemas (set_lock true s')) with (_endpoint_schemas s').
  rewrite Hep, Hst, Hsc, !lookup_insert_eq. split_and!; auto.
  destruct schema as [si|]; [rewrite lookup_insert_eq|rewrite Hc]; reflexivity.
Qed.

(** *** The staleness sweep *)

Lemma unregister_endpoint_locked e s : _lock s = true -> unregister_endpoint e s = Blocked.
Proof. intros Hl. unfold unregister_endpoint, with_lock. rewrite Hl. reflexivity. Qed.

Lemma stale_names_nil now h (stats : gmap string EndpointStats) :
  stale_names now h stats = [] <->
  forall e st, stats !! e = Some st -> is_stale now h st = false.
Proof.
  unfold stale_names. split.
  - intros Hnil e st He.
    destruct (is_stale now h st) eqn:Hst; [|reflexivity].
    assert (Hin : (e, st) ∈ map_to_list
              (filter (fun kv => is_stale now h kv.2 = true) stats)).
    { apply elem_of_map_to_list. apply map_lookup_filter_Some. split; [exact He|exact Hst]. }
    apply fmap_nil_inv in Hnil. rewrite Hnil in Hin. inversion Hin.
  - intros Hall.
    destruct (map_to_list (filter (fun kv => is_stale now h kv.2 = true) stats))
      as [|[e st] l] eqn:Hl; [reflexivity|].
    assert (Hin : (e, st) ∈ map_to_list
              (filter (fun kv => is_stale now h kv.2 = true) stats)).
    { rewrite Hl. left. }
    apply elem_of_map_to_list, map_lookup_filter_Some in Hin. destruct Hin as [He Hst].
    simpl in Hst. rewrite (Hall e st He) in Hst. discriminate.
Qed.

(** When nothing is stale the sweep only reads the clock and returns 0. *)
Lemma cleanup_nothing_stale h s :
  _lock s = false ->
  (forall e st, _endpoint_stats s !! e = Some st -> is_stale (time_of s) h st = false) ->
  cleanup_stale_endpoints h s = Done 0 (tick s).
Proof.
  intros Hl Hall. unfold cleanup_stale_endpoints, with_lock, bind. rewrite Hl.
  rewrite utcnow_eq. unfold gets.
  change (time_of (set_lock true s)) with (time_of s).
  change (_endpoint_stats (tick (set_lock true s))) with (_endpoint_stats s).
  rewrite (proj2 (stale_names_nil _ _ _) Hall). simpl. unfold ret. f_equal.
  destruct s; simpl in *; subst; reflexivity.
Qed.

(** When some endpoint is stale the sweep, holding the lock, calls
    [unregister_endpoint], which waits for the same lock: it never
    returns. *)
Lemma cleanup_blocks_when_stale h s e st :
  _lock s = false ->
  _endpoint_stats s !! e = Some st ->
  is_stale (time_of s) h st = true ->
  cleanup_stale_endpoints h s = Blocked.
Proof.
  intros Hl He Hst. unfold cleanup_stale_endpoints, with_lock, bind. rewrite Hl.
  rewrite utcnow_eq. unfold gets.
  change (time_of (set_lock true s)) with (time_of s).
  change (_endpoint_stats (tick (set_lock true s))) with (_endpoint_stats s).
  destruct (stale_names (time_of s) h (_endpoint_stats s)) as [|x l] eqn:Hn.
  - rewrite (proj1 (stale_names_nil _ _ _) Hn e st He) in Hst. discriminate.
  - reflexivity.
Qed.

(** ** The batch engine *)

Lemma sat_or_execute_query (B : Prop) rq s Q E :
  (forall d errs w, Q (d, errs) (set_world w (log_gateway_call rq s))) ->
  (forall msg w, E (GatewayFault msg) (set_world w (log_gateway_call rq s))) ->
  sat_or B (execute_query rq s) Q E.
Proof.
  intros HQ HE. unfold execute_query.
  destruct (gateway rq (world s)) as [[d errs|msg] w]; simpl; auto.
Qed.

(** The same, keeping the reply that the gateway gave. *)
Lemma sat_or_execute_query_reply (B : Prop) rq s Q E :
  (forall d errs w, (gateway rq (world s)).1 = GwReturn d errs ->
     Q (d, errs) (set_world w (log_gateway_call rq s))) ->
  (forall msg w, (gateway rq (world s)).1 = GwRaise msg ->
     E (GatewayFault msg) (set_world w (log_gateway_call rq s))) ->
  sat_or B (execute_query rq s) Q E.
Proof.
  intros HQ HE. unfold execute_query.
  destruct (gateway rq (world s)) as [[d errs|msg] w]; simpl; auto.
Qed.

Lemma BatchOperationResult_new_spec (B : Prop) name_ succ dat err et i ep q v s :
  sat_or B (BatchOperationResult_new name_ succ dat err et i ep q v s)
    (fun r s' =>
       s' = s /\ index r = i /\ success r = succ /\ error r = err /\
       name_ = PyStr (res_name r) /\ ep = PyStr (res_endpoint r) /\
       data r = dat /\ execution_time r = et /\
       is_Some (as_opt_str q) /\ is_Some (as_opt_dict v))
    (fun e s' =>
       s' = s /\
       ~ (is_Some (as_str name_) /\ is_Some (as_str ep) /\
          is_Some (as_opt_str q) /\ is_Some (as_opt_dict v))).
Proof.
  unfold BatchOperationResult_new.
  destruct name_, ep; simpl;
    try (split; [reflexivity|]; intros (Hn & He & _); inversion Hn; inversion He; discriminate).
  destruct q, v; simpl;
    try (split; [reflexivity|]; intros (_ & _ & Hq & Hv); inversion Hq; inversion Hv; discriminate);
    repeat split; eauto.
Qed.

Lemma call_get_endpoint_spec v s :
  _lock s = false ->
  sat (call_get_endpoint v s)
    (fun o s' => s' = s /\
       o = match v with PyStr n => _endpoints s !! n | _ => None end)
    (fun e s' => s' = s /\ as_str v = None).
Proof.
  intros Hl. unfold call_get_endpoint, get_endpoint.
  destruct v; unfold with_lock; rewrite Hl; simpl; rewrite unlock_relock by exact Hl; auto.
Qed.

Lemma call_record_endpoint_access_unlocked v ok s :
  _lock s = false ->
  sat (call_record_endpoint_access v ok s)
    (fun _ s' => _lock s' = false) (fun _ s' => _lock s' = false).
Proof.
  intros Hl. unfold call_record_endpoint_access.
  destruct v as [| | |n| |]; try (unfold with_lock; rewrite Hl; reflexivity).
  pose proof (record_endpoint_access_spec n ok s Hl) as Hr.
  destruct (_endpoint_stats s !! n).
  - destruct Hr as (s' & -> & _ & Hl' & _). exact Hl'.
  - rewrite Hr. exact Hl.
Qed.

Lemma at_rest_tick eps s : at_rest eps s -> at_rest eps (tick s).
Proof. intros [Hl He]. split; assumption. Qed.

Lemma at_rest_unlocked eps s : at_rest eps s -> _lock s = false.
Proof. intros [Hl _]. exact Hl. Qed.

Lemma call_record_endpoint_access_at_rest eps v ok s :
  at_rest eps s ->
  sat (call_record_endpoint_access v ok s)
    (fun _ s' => at_rest eps s') (fun _ s' => at_rest eps s' /\ as_str v = None).
Proof.
  intros [Hl He]. unfold call_record_endpoint_access.
  destruct v as [| | |n| |];
    try (unfold with_lock; rewrite Hl; simpl; repeat split; exact He).
  pose proof (record_endpoint_access_spec n ok s Hl) as Hr.
  destruct (_endpoint_stats s !! n).
  - destruct Hr as (s' & -> & _ & Hl' & _ & He'). split; [exact Hl'|congruence].
  - rewrite Hr. split; assumption.
Qed.

Ltac sat_use lem :=
  eapply sat_or_mono; [apply lem | cbv beta | cbv beta].

Lemma dict_get_str_default d k a b :
  is_Some (as_str (dict_get d k (PyStr a))) -> is_Some (as_str (dict_get d k (PyStr b))).
Proof.
  induction d as [|[k' v] d IH]; simpl; [eauto|].
  destruct (String.eqb k' k); auto.
Qed.

Lemma well_typed_at op i :
  well_typed op ->
  is_Some (as_str (dict_get op "name" (default_name i))) /\
  is_Some (as_str (dict_get op "endpoint" (PyStr ""))) /\
  is_Some (as_opt_str (dict_get op "query" (PyStr ""))) /\
  is_Some (as_opt_dict (dict_get op "variables" (PyDict []))).
Proof.
  intros (Hn & Hrest). split; [|exact Hrest].
  unfold default_name. eapply dict_get_str_default, Hn.
Qed.

Lemma well_typed_from op i :
  is_Some (as_str (dict_get op "name" (default_name i))) ->
  is_Some (as_str (dict_get op "endpoint" (PyStr ""))) ->
  is_Some (as_opt_str (dict_get op "query" (PyStr ""))) ->
  is_Some (as_opt_dict (dict_get op "variables" (PyDict []))) ->
  well_typed op.
Proof.
  intros Hn He Hq Hv. repeat split; auto.
  unfold default_name in Hn. eapply dict_get_str_default, Hn.
Qed.

Lemma well_typed_reportable op : well_typed op -> reportable op.
Proof. intros (Hn & He & _). split; assumption. Qed.

Lemma Forall_well_typed_reportable ops : Forall well_typed ops -> Forall reportable ops.
Proof.
  intros Hall. eapply Forall_impl; [exact Hall|]. intros op. apply well_typed_reportable.
Qed.

Lemma joined_messages_some errs : no_errors errs = false -> is_Some (joined_messages errs).
Proof. destruct errs; simpl; [discriminate|eauto]. Qed.

(** *** What a result says *)

Lemma reports_error eps t op r :
  reports eps t op r -> success r = false -> is_Some (error r).
Proof.
  intros (e & _ & Hr) Hf. destruct (eps !! e) as [info|].
  - destruct Hr as [w Hw].
    destruct ((gateway (request_of info op t) w).1) as [d errs|msg].
    + destruct Hw as (Hs & _ & ->). apply joined_messages_some. congruence.
    + destruct Hw as (_ & _ & ->). eauto.
  - destruct Hr as (_ & _ & ->). eauto.
Qed.

Lemma good_result_reports eps t op i r :
  well_typed op -> result_for op i r -> reports eps t op r -> good_result eps t op i r.
Proof. intros Hwt Hr Hrep. split; [exact Hr|]. left. auto. Qed.

Lemma good_result_fault eps t op i r :
  ~ well_typed op -> result_for op i r ->
  success r = false -> data r = None -> is_Some (error r) ->
  good_result eps t op i r.
Proof. intros Hwt Hr Hs Hd He. split; [exact Hr|]. right. auto. Qed.

Lemma good_result_error eps t op i r :
  good_result eps t op i r -> success r = false -> is_Some (error r).
Proof.
  intros [_ [[_ Hrep]|(_ & _ & _ & He)]] Hf; [|exact He].
  exact (reports_error _ _ _ _ Hrep Hf).
Qed.

Lemma good_result_well_typed eps t op i r :
  good_result eps t op i r -> well_typed op -> reports eps t op r.
Proof. intros [_ [[_ Hrep]|[Hbad _]]] Hwt; [exact Hrep|contradiction]. Qed.

Lemma good_result_ill_typed eps t op i r :
  good_result eps t op i r -> ~ well_typed op -> success r = false.
Proof. intros [_ [[Hwt _]|(_ & Hs & _)]] Hbad; [contradiction|exact Hs]. Qed.

Lemma operation_handler_spec eps op i start e s :
  at_rest eps s ->
  sat (operation_handler op i start e s)
    (fun r s' => at_rest eps s' /\ well_typed op /\ result_for op i r /\
                 success r = false /\ data r = None /\ error r = Some (str_exn e))
    (fun _ s' => at_rest eps s' /\ ~ well_typed op).
Proof.
  intros Hs. unfold operation_handler. sat_step. sat_step. cbv zeta.
  apply at_rest_tick in Hs.
  sat_use BatchOperationResult_new_spec.
  - intros r s' (-> & Hi & Hsucc & He & Hn & Hep & Hd & _ & Hq & Hv).
    split; [exact Hs|]. split.
    + apply (well_typed_from op i); auto.
      * rewrite Hn. simpl. eauto.
      * rewrite Hep. simpl. eauto.
    + repeat split; auto.
  - intros e' s' (-> & Hbad). split; [exact Hs|].
    intros Hwt. apply Hbad, well_typed_at, Hwt.
Qed.

Lemma exception_result_spec op i e s :
  sat (exception_result op i e s)
    (fun r s' => s' = s /\ result_for op i r /\ success r = false /\
                 data r = None /\ error r = Some (str_exn e))
    (fun _ s' => s' = s /\ ~ reportable op).
Proof.
  unfold exception_result.
  sat_use BatchOperationResult_new_spec.
  - intros r s' (-> & Hi & Hs & He & Hn & Hep & Hd & _). repeat split; auto.
  - intros e' s' (-> & Hbad). split; [reflexivity|].
    intros [Hn Hep]. apply Hbad. repeat split; simpl; eauto.
    unfold default_name. eapply dict_get_str_default, Hn.
Qed.

(** Why the [try] block of an operation raised: an entry of the operation
    has the wrong type, or the gateway raised on the request of the
    operation. *)
Lemma _execute_single_operation_spec eps op i t s :
  at_rest eps s ->
  sat (_execute_single_operation op i t s)
    (fun r s' => at_rest eps s' /\ well_typed op /\ result_for op i r /\
                 reports eps t op r)
    (fun _ s' => at_rest eps s' /\ ~ well_typed op).
Proof.
  intros Hs. unfold _execute_single_operation. sat_step. sat_step.
  apply at_rest_tick in Hs.
  generalize dependent (tick s). intros s1 Hs1.
  sat_step.
  eapply sat_or_mono with
    (Q := fun r s' => at_rest eps s' /\ well_typed op /\ result_for op i r /\
                      reports eps t op r)
    (E := fun e s' => at_rest eps s' /\
            (~ well_typed op \/
             exists en info w msg,
               dict_get op "endpoint" (PyStr "") = PyStr en /\
               eps !! en = Some info /\
               (gateway (request_of info op t) w).1 = GwRaise msg /\
               e = GatewayFault msg)); cbv beta; cbv zeta.
  - sat_step. sat_use call_get_endpoint_spec; [exact (at_rest_unlocked _ _ Hs1)| |].
    + intros o s' [-> Ho].
      destruct (dict_get op "endpoint" (PyStr "")) as [| | |en| |] eqn:Hen;
        try (rewrite Ho;
             sat_use BatchOperationResult_new_spec;
             [intros r s' (_ & _ & _ & _ & _ & Hep & _); discriminate Hep
             |intros e' s' [-> Hbad]; split; [exact Hs1|]; left;
              intros Hwt; destruct Hwt as (_ & [x Hx] & _);
              rewrite Hen in Hx; discriminate Hx]).
      destruct Hs1 as [Hl1 He1]. rewrite He1 in Ho. subst o.
      destruct (eps !! en) as [info|] eqn:Hinfo.
      * sat_step.
        apply (sat_or_execute_query_reply False
                 {| gw_url := url info; gw_query := dict_get op "query" (PyStr "");
                    gw_variables := dict_get op "variables" (PyDict []);
                    gw_headers := headers info; gw_timeout := t |}).
        -- intros d errs w Hreply. sat_step. sat_step. sat_step.
           sat_use (call_record_endpoint_access_at_rest eps); [split; assumption| |].
           ++ intros _ s2 Hs2.
              sat_use BatchOperationResult_new_spec.
              ** intros r s' (-> & Hi & Hsucc & He & Hn & Hep & Hd & _ & Hq & Hv).
                 split; [exact Hs2|].
                 assert (Hwt : well_typed op).
                 { apply (well_typed_from op i); auto.
                   - rewrite Hn. simpl. eauto.
                   - rewrite Hen. simpl. eauto. }
                 split; [exact Hwt|]. split; [repeat split; auto; congruence|].
                 exists en. split; [exact Hen|]. rewrite Hinfo.
                 exists (world s1). unfold request_of. rewrite Hreply.
                 simpl in *. auto.
              ** intros e' s' [-> Hbad]. split; [exact Hs2|]. left.
                 intros Hwt. apply Hbad. rewrite <- Hen. apply well_typed_at, Hwt.
           ++ intros e' s2 [_ Hstr]. discriminate Hstr.
        -- intros msg w Hreply. split; [split; assumption|]. right.
           exists en, info, (world s1), msg. auto.
      * sat_use BatchOperationResult_new_spec.
        -- intros r s' (-> & Hi & Hsucc & He & Hn & Hep & Hd & _ & Hq & Hv).
           split; [split; assumption|].
           assert (Hwt : well_typed op).
           { apply (well_typed_from op i); auto.
             - rewrite Hn. simpl. eauto.
             - rewrite Hen. simpl. eauto. }
           split; [exact Hwt|]. split; [repeat split; auto; congruence|].
           exists en. split; [exact Hen|]. rewrite Hinfo. simpl in *. auto.
        -- intros e' s' [-> Hbad]. split; [split; assumption|]. left.
           intros Hwt. apply Hbad. rewrite <- Hen. apply well_typed_at, Hwt.
    + intros e' s' [-> Hstr]. split; [exact Hs1|]. left.
      intros (_ & [x Hx] & _). rewrite Hstr in Hx. discriminate Hx.
  - auto.
  - intros e s' [Hs' Hwhy]. sat_use (operation_handler_spec eps); [exact Hs'| |auto].
    intros r s2 (Hs2 & Hwt & Hr & Hsucc & Hd & Herr).
    split; [exact Hs2|]. split; [exact Hwt|]. split; [exact Hr|].
    destruct Hwhy as [Hbad|(en & info & w & msg & Hen & Hinfo & Hreply & ->)];
      [contradiction|].
    exists en. split; [exact Hen|]. rewrite Hinfo. exists w. rewrite Hreply. auto.
Qed.

(** *** The sequential branch *)

Lemma attempt_operation_spec eps op i t s :
  at_rest eps s ->
  sat (attempt_operation op i t s)
    (fun r s' => at_rest eps s' /\ good_result eps t op i r)
    (fun _ s' => at_rest eps s' /\ ~ reportable op).
Proof.
  intros Hs. unfold attempt_operation. sat_step.
  sat_use (_execute_single_operation_spec eps); [exact Hs| |].
  - intros r s' (Hs' & Hwt & Hr & Hrep). split; [exact Hs'|].
    apply good_result_reports; assumption.
  - intros e s' [Hs' Hbad]. sat_use exception_result_spec.
    + intros r s2 (-> & Hr & Hsucc & Hd & Herr). split; [exact Hs'|].
      apply good_result_fault; [exact Hbad|exact Hr|exact Hsucc|exact Hd|].
      rewrite Herr. eauto.
    + intros e' s2 (-> & Hbad'). auto.
Qed.

(** One turn of the loop, in terms of what it appends. *)
Lemma sequential_loop_cons coe t i op rest rs s :
  sequential_loop coe t i (op :: rest) rs s =
  match attempt_operation op i t s with
  | Done r s' =>
      if negb (success r) && negb coe then Done (rs ++ [r]) s'
      else sequential_loop coe t (S i) rest (rs ++ [r]) s'
  | Raised e s' => Raised e s'
  | Blocked => Blocked
  end.
Proof.
  simpl. unfold attempt_operation, bind, try_except, ret.
  destruct (_execute_single_operation op i t s) as [r s'|e s'|]; simpl; [|idtac|reflexivity].
  - destruct (negb (success r) && negb coe); reflexivity.
  - pose proof (exception_result_spec op i e s') as Hx.
    destruct (exception_result op i e s') as [r s2|e2 s2|]; simpl; try reflexivity.
    destruct Hx as (_ & _ & -> & _). simpl. destruct (negb coe); reflexivity.
Qed.

Lemma results_ok_nil eps t i ops : results_ok eps t i ops [].
Proof. intros j r Hj. rewrite lookup_nil in Hj. discriminate. Qed.

Lemma results_ok_cons eps t i op ops r rs :
  good_result eps t op i r -> results_ok eps t (S i) ops rs ->
  results_ok eps t i (op :: ops) (r :: rs).
Proof.
  intros Hr Hrs [|j] r' Hj; simpl in *.
  - injection Hj as <-. exists op. rewrite Nat.add_0_r. auto.
  - destruct (Hrs j r' Hj) as (op' & Hop & Hg). exists op'.
    replace (i + S j)%nat with (S i + j)%nat by lia. auto.
Qed.

Lemma results_ok_length eps t i ops rs :
  results_ok eps t i ops rs -> (length rs <= length ops)%nat.
Proof.
  intros Hok. destruct (decide (length rs <= length ops)%nat) as [|Hgt]; [assumption|].
  assert (Hlt : (length ops < length rs)%nat) by lia.
  apply lookup_lt_is_Some in Hlt. destruct Hlt as [r Hr].
  destruct (Hok _ _ Hr) as (op & Hop & _).
  apply lookup_lt_Some in Hop. lia.
Qed.

Lemma stops_at_failure_cons n r rs :
  stops_at_failure n rs -> stops_at_failure (S n) (r :: rs).
Proof.
  intros Hrs Hlt. simpl in Hlt.
  destruct Hrs as (r' & Hlast & Hf); [lia|].
  exists r'. split; [|exact Hf]. rewrite last_cons, Hlast. reflexivity.
Qed.

Lemma succeeds_up_to_last_cons r rs :
  success r = true -> succeeds_up_to_last rs -> succeeds_up_to_last (r :: rs).
Proof.
  intros Hr Hrs [|j] r' Hj Hlt; simpl in *.
  - injection Hj as <-. exact Hr.
  - apply (Hrs j r' Hj). lia.
Qed.

Lemma sequential_loop_spec eps coe t ops : forall i rs s,
  at_rest eps s ->
  sat (sequential_loop coe t i ops rs s)
    (fun out s' =>
       at_rest eps s' /\
       exists new, out = rs ++ new /\ results_ok eps t i ops new /\
                   (coe = true -> length new = length ops) /\
                   stops_at_failure (length ops) new /\
                   (coe = false -> succeeds_up_to_last new))
    (fun _ s' => at_rest eps s' /\ ~ Forall reportable ops).
Proof.
  induction ops as [|op ops IH]; intros i rs s Hs.
  - simpl. split; [exact Hs|]. exists []. rewrite app_nil_r.
    split_and!; auto using results_ok_nil.
    + intros Hlt. simpl in Hlt. lia.
    + intros _ j r Hj. rewrite lookup_nil in Hj. discriminate.
  - rewrite sequential_loop_cons.
    pose proof (attempt_operation_spec eps op i t s Hs) as Ha.
    destruct (attempt_operation op i t s) as [r s1|e s1|]; simpl in Ha |- *.
    + destruct Ha as [Hs1 Hg].
      destruct (negb (success r) && negb coe) eqn:Hstop.
      * simpl. split; [exact Hs1|]. exists [r].
        apply andb_true_iff in Hstop. destruct Hstop as [Hfail Hcoe].
        apply negb_true_iff in Hfail, Hcoe.
        split_and!; auto.
        -- apply results_ok_cons; auto using results_ok_nil.
        -- intros ->. discriminate.
        -- intros _. exists r. auto.
        -- intros _ [|j] r' Hj Hlt; simpl in Hlt; lia.
      * eapply sat_or_mono; [apply IH, Hs1 | |]; cbv beta.
        -- intros out s2 (Hs2 & new & -> & Hnew & Hlen & Hstops & Hsucc).
           split; [exact Hs2|].
           exists (r :: new). rewrite <- app_assoc. split_and!; auto.
           ++ apply results_ok_cons; auto.
           ++ intros Hc. simpl. rewrite Hlen; auto.
           ++ apply stops_at_failure_cons, Hstops.
           ++ intros Hc. apply succeeds_up_to_last_cons; [|auto].
              rewrite Hc in Hstop. rewrite andb_true_r in Hstop.
              apply negb_false_iff in Hstop. exact Hstop.
        -- intros e s2 [Hs2 Hbad]. split; [exact Hs2|].
           intros Hall. apply Hbad. inversion Hall; auto.
    + destruct Ha as [Hs1 Hbad]. split; [exact Hs1|].
      intros Hall. apply Hbad. inversion Hall; auto.
    + exact Ha.
Qed.

(** *** The parallel branch *)

Lemma task_start_spec eps t op i s :
  at_rest eps s ->
  sat (task_start op i s)
    (fun r s' =>
       at_rest eps s' /\
       match r with
       | inl o => outcome_ok eps t op i o
       | inr sp => task_ok eps t op i (Suspended sp)
       end)
    (fun _ _ => False).
Proof.
  intros Hs. unfold task_start. sat_step. sat_step.
  apply at_rest_tick in Hs.
  generalize (time_of s). generalize dependent (tick s). intros s1 Hs1 start.
  sat_step. unfold catch. sat_step. sat_step.
  eapply sat_or_mono with
    (Q := fun r s' => at_rest eps s' /\
            match r with
            | inl res => good_result eps t op i res
            | inr sp => task_ok eps t op i (Suspended sp)
            end)
    (E := fun _ s' => at_rest eps s' /\ ~ well_typed op); cbv beta.
  - sat_step. cbv zeta.
    eapply sat_or_mono with
      (Q := fun r s' => at_rest eps s' /\
              match r with
              | inl res => good_result eps t op i res
              | inr sp => task_ok eps t op i (Suspended sp)
              end)
      (E := fun _ s' => at_rest eps s' /\ ~ well_typed op); cbv beta.
    + sat_step. sat_use call_get_endpoint_spec; [exact (at_rest_unlocked _ _ Hs1)| |].
      * intros o s' [-> Ho].
        destruct (dict_get op "endpoint" (PyStr "")) as [| | |en| |] eqn:Hen;
          try (rewrite Ho; sat_step;
               sat_use BatchOperationResult_new_spec;
               [intros r s' (_ & _ & _ & _ & _ & Hep & _); discriminate Hep
               |intros e' s' [-> Hbad]; split; [exact Hs1|];
                intros Hwt; destruct Hwt as (_ & [x Hx] & _);
                rewrite Hen in Hx; discriminate Hx]).
        destruct Hs1 as [Hl1 He1]. rewrite He1 in Ho. subst o.
        destruct (eps !! en) as [info|] eqn:Hinfo.
        -- sat_step. split; [split; assumption|]. simpl.
           split; [reflexivity|]. split; [reflexivity|]. exists en. auto.
        -- sat_step. sat_use BatchOperationResult_new_spec.
           ++ intros r s' (-> & Hi & Hsucc & He & Hn & Hep & Hd & _ & Hq & Hv). sat_step.
              split; [split; assumption|].
              assert (Hwt : well_typed op).
              { apply (well_typed_from op i); auto.
                - rewrite Hn. simpl. eauto.
                - rewrite Hen. simpl. eauto. }
              apply good_result_reports; [exact Hwt|repeat split; auto; congruence|].
              exists en. split; [exact Hen|]. rewrite Hinfo. simpl in *. auto.
           ++ intros e' s' [-> Hbad]. split; [split; assumption|].
              intros Hwt. apply Hbad. rewrite <- Hen. apply well_typed_at, Hwt.
      * intros e' s' [-> Hstr]. split; [exact Hs1|].
        intros (_ & [x Hx] & _). rewrite Hstr in Hx. discriminate Hx.
    + auto.
    + intros e s' [Hs' Hbad]. sat_step.
      sat_use (operation_handler_spec eps); [exact Hs'| |auto].
      intros r s2 (_ & Hwt & _). contradiction.
  - intros r s' [Hs' Hr]. sat_step. sat_step. split; [exact Hs'|].
    destruct r; simpl; auto.
  - intros e s' [Hs' Hbad]. sat_step. sat_step. simpl. auto.
Qed.

Lemma task_resume_spec eps t op i sp s :
  at_rest eps s -> task_ok eps t op i (Suspended sp) ->
  sat (task_resume t sp s)
    (fun o s' => at_rest eps s' /\ outcome_ok eps t op i o)
    (fun _ _ => False).
Proof.
  intros Hs (Hop & Hi & en & Hen & Hinfo). subst op i.
  unfold task_resume. cbv zeta. unfold catch. sat_step. sat_step.
  set (op := sp_operation sp) in *. set (i := sp_index sp).
  eapply sat_or_mono with
    (Q := fun r s' => at_rest eps s' /\ good_result eps t op i r)
    (E := fun _ s' => at_rest eps s' /\ ~ well_typed op); cbv beta.
  - sat_step. cbv zeta.
    eapply sat_or_mono with
      (Q := fun r s' => at_rest eps s' /\ well_typed op /\ result_for op i r /\
                        reports eps t op r)
      (E := fun e s' => at_rest eps s' /\
              (~ well_typed op \/
               exists w msg,
                 (gateway (request_of (sp_info sp) op t) w).1 = GwRaise msg /\
                 e = GatewayFault msg)); cbv beta.
    + sat_step.
      apply (sat_or_execute_query_reply False
               {| gw_url := url (sp_info sp); gw_query := dict_get op "query" (PyStr "");
                  gw_variables := dict_get op "variables" (PyDict []);
                  gw_headers := headers (sp_info sp); gw_timeout := t |}).
      * intros d errs w Hreply. sat_step. sat_step. sat_step.
        sat_use (call_record_endpoint_access_at_rest eps);
          [destruct Hs; split; assumption| |].
        -- intros _ s2 Hs2.
           sat_use BatchOperationResult_new_spec.
           ++ intros r s' (-> & Hi & Hsucc & He & Hn & Hep & Hd & _ & Hq & Hv).
              split; [exact Hs2|].
              assert (Hwt : well_typed op).
              { apply (well_typed_from op i); auto.
                - rewrite Hn. simpl. eauto.
                - rewrite Hen. simpl. eauto. }
              split; [exact Hwt|]. split; [repeat split; auto; congruence|].
              exists en. split; [exact Hen|]. rewrite Hinfo.
              exists (world s). unfold request_of. rewrite Hreply. simpl in *. auto.
           ++ intros e' s' [-> Hbad]. split; [exact Hs2|]. left.
              intros Hwt. apply Hbad. apply well_typed_at, Hwt.
        -- intros e' s2 [_ Hstr]. rewrite Hen in Hstr. discriminate Hstr.
      * intros msg w Hreply. split; [destruct Hs; split; assumption|]. right.
        exists (world s), msg. auto.
    + intros r s' (Hs' & Hwt & Hr & Hrep). split; [exact Hs'|].
      apply good_result_reports; assumption.
    + intros e s' [Hs' Hwhy].
      sat_use (operation_handler_spec eps); [exact Hs'| |auto].
      intros r s2 (Hs2 & Hwt & Hr & Hsucc & Hd & Herr). split; [exact Hs2|].
      apply good_result_reports; [exact Hwt|exact Hr|].
      destruct Hwhy as [Hbad|(w & msg & Hreply & ->)]; [contradiction|].
      exists en. split; [exact Hen|]. rewrite Hinfo. exists w. rewrite Hreply. auto.
  - intros r s' Hr. sat_step. simpl. exact Hr.
  - intros e s' Hr. sat_step. simpl. exact Hr.
Qed.

Lemma task_step_spec eps t op i tk s :
  at_rest eps s -> task_ok eps t op i tk ->
  sat (task_step t tk s)
    (fun tk' s' => at_rest eps s' /\ task_ok eps t op i tk')
    (fun _ _ => False).
Proof.
  intros Hs Hok. destruct tk as [op' i'|sp|o]; simpl in Hok |- *.
  - destruct Hok as [-> ->]. sat_step.
    sat_use (task_start_spec eps t); [exact Hs| |auto].
    intros r s' [Hs' Hr]. sat_step. split; [exact Hs'|]. destruct r; exact Hr.
  - sat_step.
    sat_use (task_resume_spec eps t op i); [exact Hs|exact Hok| |auto].
    intros r s' [Hs' Hr]. sat_step. auto.
  - auto.
Qed.

Lemma task_await_spec eps t op i tk s :
  at_rest eps s -> task_ok eps t op i tk ->
  sat (task_await t tk s)
    (fun o s' => at_rest eps s' /\ outcome_ok eps t op i o)
    (fun _ _ => False).
Proof.
  intros Hs Hok. destruct tk as [op' i'|sp|o]; simpl in Hok |- *.
  - destruct Hok as [-> ->]. sat_step.
    sat_use (task_start_spec eps t); [exact Hs| |auto].
    intros r s' [Hs' Hr]. destruct r as [o|sp].
    + sat_step. auto.
    + apply (task_resume_spec eps t op i); assumption.
  - apply (task_resume_spec eps t op i); assumption.
  - auto.
Qed.

Lemma tasks_ok_created eps t ops :
  tasks_ok eps t 0 ops (imap (fun i op => Created op i) ops).
Proof.
  split; [apply length_imap|].
  intros j op tk Hop Ht. rewrite list_lookup_imap, Hop in Ht.
  injection Ht as <-. simpl. auto.
Qed.

Lemma tasks_ok_insert eps t i ops tasks j op tk :
  tasks_ok eps t i ops tasks -> ops !! j = Some op -> task_ok eps t op (i + j) tk ->
  tasks_ok eps t i ops (<[j := tk]> tasks).
Proof.
  intros [Hlen Hall] Hop Htk. split; [rewrite length_insert; exact Hlen|].
  intros j' op' t' Hop' Ht'.
  destruct (decide (j = j')) as [<-|Hne].
  - rewrite list_lookup_insert_eq in Ht'.
    + injection Ht' as <-. rewrite Hop in Hop'. injection Hop' as <-. exact Htk.
    + rewrite Hlen. eapply lookup_lt_Some, Hop.
  - rewrite list_lookup_insert_ne in Ht' by exact Hne. eauto.
Qed.

Lemma run_schedule_spec eps t ops sched : forall tasks s,
  at_rest eps s -> tasks_ok eps t 0 ops tasks ->
  sat (run_schedule t sched tasks s)
    (fun tasks' s' => at_rest eps s' /\ tasks_ok eps t 0 ops tasks')
    (fun _ _ => False).
Proof.
  induction sched as [|i sched IH]; intros tasks s Hs Hok; simpl; [auto|].
  destruct (tasks !! i) as [tk|] eqn:Htk; [|apply IH; auto].
  assert (Hop : is_Some (ops !! i)).
  { apply lookup_lt_is_Some. destruct Hok as [<- _]. eapply lookup_lt_Some, Htk. }
  destruct Hop as [op Hop].
  sat_step. sat_use (task_step_spec eps t op i); [exact Hs| | |auto].
  - destruct Hok as [_ Hall]. exact (Hall i op tk Hop Htk).
  - intros tk' s' [Hs' Htk']. apply IH; [exact Hs'|].
    eapply tasks_ok_insert; eauto.
Qed.

Lemma tasks_ok_uncons eps t i op ops tk tasks :
  tasks_ok eps t i (op :: ops) (tk :: tasks) ->
  task_ok eps t op i tk /\ tasks_ok eps t (S i) ops tasks.
Proof.
  intros [Hlen Hall]. split; [|split].
  - specialize (Hall 0%nat op tk eq_refl eq_refl). rewrite Nat.add_0_r in Hall. exact Hall.
  - simpl in Hlen. lia.
  - intros j op' t' Hop' Ht'. specialize (Hall (S j) op' t' Hop' Ht').
    replace (S i + j)%nat with (i + S j)%nat by lia. exact Hall.
Qed.

Lemma outcomes_ok_cons eps t i op ops o outs :
  outcome_ok eps t op i o -> outcomes_ok eps t (S i) ops outs ->
  outcomes_ok eps t i (op :: ops) (o :: outs).
Proof.
  intros Ho [Hlen Hall]. split; [simpl; lia|].
  intros [|j] op' o' Hop' Ho'; simpl in *.
  - injection Hop' as <-. injection Ho' as <-. rewrite Nat.add_0_r. exact Ho.
  - replace (i + S j)%nat with (S i + j)%nat by lia. eauto.
Qed.

Lemma outcomes_ok_uncons eps t i op ops o outs :
  outcomes_ok eps t i (op :: ops) (o :: outs) ->
  outcome_ok eps t op i o /\ outcomes_ok eps t (S i) ops outs.
Proof.
  intros [Hlen Hall]. split; [|split].
  - specialize (Hall 0%nat op o eq_refl eq_refl). rewrite Nat.add_0_r in Hall. exact Hall.
  - simpl in Hlen. lia.
  - intros j op' o' Hop' Ho'. specialize (Hall (S j) op' o' Hop' Ho').
    replace (S i + j)%nat with (i + S j)%nat by lia. exact Hall.
Qed.

Lemma await_all_spec eps t : forall tasks i ops s,
  at_rest eps s -> tasks_ok eps t i ops tasks ->
  sat (await_all t tasks s)
    (fun outs s' => at_rest eps s' /\ outcomes_ok eps t i ops outs)
    (fun _ _ => False).
Proof.
  induction tasks as [|tk tasks IH]; intros i ops s Hs Hok.
  - simpl. split; [exact Hs|]. destruct Hok as [Hlen _]. split; [exact Hlen|].
    intros j op o _ Ho. rewrite lookup_nil in Ho. discriminate.
  - destruct ops as [|op ops]; [destruct Hok as [Hlen _]; discriminate|].
    apply tasks_ok_uncons in Hok. destruct Hok as [Htk Hrest].
    simpl. sat_step. sat_use (task_await_spec eps t op i); [exact Hs|exact Htk| |auto].
    intros o s1 [Hs1 Ho]. sat_step.
    sat_use (IH (S i) ops); [exact Hs1|exact Hrest| |auto].
    intros outs s2 [Hs2 Houts]. sat_step. split; [exact Hs2|].
    apply outcomes_ok_cons; auto.
Qed.

Lemma gather_spec eps t sched ops s :
  at_rest eps s ->
  sat (gather t sched ops s)
    (fun outs s' => at_rest eps s' /\ outcomes_ok eps t 0 ops outs)
    (fun _ _ => False).
Proof.
  intros Hs. unfold gather. sat_step.
  sat_use (run_schedule_spec eps t ops); [exact Hs|apply tasks_ok_created| |auto].
  intros tasks s1 [Hs1 Hok]. apply await_all_spec; auto.
Qed.

Lemma convert_exceptions_spec eps t : forall outs i ops s,
  outcomes_ok eps t i ops outs ->
  sat (convert_exceptions i ops outs s)
    (fun rs s' => s' = s /\ results_ok eps t i ops rs /\ length rs = length ops)
    (fun _ s' => s' = s /\ ~ Forall reportable ops).
Proof.
  induction outs as [|o outs IH]; intros i ops s Hok.
  - destruct Hok as [Hlen _]. destruct ops; [|discriminate]. simpl.
    repeat split; auto using results_ok_nil.
  - destruct ops as [|op ops]; [destruct Hok as [Hlen _]; discriminate|].
    apply outcomes_ok_uncons in Hok. destruct Hok as [Ho Hrest].
    destruct o as [e|r]; simpl.
    + sat_step. sat_use exception_result_spec.
      * intros r s1 (-> & Hr & Hsucc & Hd & Herr). sat_step.
        sat_use (IH (S i) ops); [exact Hrest| |].
        -- intros rs s2 (-> & Hrs & Hlen). sat_step. repeat split.
           ++ apply results_ok_cons; [|exact Hrs].
              apply good_result_fault; [exact Ho|exact Hr|exact Hsucc|exact Hd|].
              rewrite Herr. eauto.
           ++ simpl. lia.
        -- intros e' s2 (-> & Hbad). split; [reflexivity|].
           intros Hall. apply Hbad. inversion Hall; auto.
      * intros e' s1 (-> & Hbad). split; [reflexivity|].
        intros Hall. apply Hbad. inversion Hall; auto.
    + sat_step. sat_use (IH (S i) ops); [exact Hrest| |].
      * intros rs s2 (-> & Hrs & Hlen). sat_step. repeat split.
        -- apply results_ok_cons; auto.
        -- simpl. lia.
      * intros e' s2 (-> & Hbad). split; [reflexivity|].
        intros Hall. apply Hbad. inversion Hall; auto.
Qed.

(** *** The whole batch *)

Lemma resolve_mode_sequential : resolve_mode "sequential" = SEQUENTIAL.
Proof. reflexivity. Qed.

Lemma resolve_mode_parallel : resolve_mode "parallel" = PARALLEL.
Proof. reflexivity. Qed.

Lemma resolve_mode_other mode :
  mode <> "sequential"%string -> mode <> "parallel"%string -> resolve_mode mode = SEQUENTIAL.
Proof.
  intros Hs Hp. unfold resolve_mode. simpl.
  apply String.eqb_neq in Hs, Hp. rewrite Hs, Hp. reflexivity.
Qed.

Lemma batch_body_spec eps sched ops mode coe t s :
  at_rest eps s ->
  sat (batch_body sched ops mode coe t s)
    (fun resp s' => at_rest eps s' /\ normal_response eps t ops mode coe resp)
    (fun _ s' => at_rest eps s' /\ ~ Forall reportable ops).
Proof.
  intros Hs. unfold batch_body. sat_step. sat_step. cbv zeta.
  apply at_rest_tick in Hs.
  generalize (time_of s). generalize dependent (tick s). intros s1 Hs1 start.
  sat_step.
  eapply sat_or_mono with
    (Q := fun rs s' => at_rest eps s' /\ results_ok eps t 0 ops rs /\
            (coe = true \/ resolve_mode mode = PARALLEL -> length rs = length ops) /\
            stops_at_failure (length ops) rs /\
            (coe = false -> resolve_mode mode = SEQUENTIAL -> succeeds_up_to_last rs))
    (E := fun _ s' => at_rest eps s' /\ ~ Forall reportable ops); cbv beta.
  - destruct (resolve_mode mode) eqn:Hmode.
    + sat_use (sequential_loop_spec eps coe t ops); [exact Hs1| |auto].
      intros out s2 (Hs2 & new & -> & Hnew & Hlen & Hstops & Hsucc). simpl.
      split_and!; auto.
      intros [Hc|Hc]; [auto|discriminate].
    + sat_step. sat_use (gather_spec eps); [exact Hs1| |tauto].
      intros outs s2 [Hs2 Houts].
      sat_use (convert_exceptions_spec eps t); [exact Houts| |].
      * intros rs s3 (-> & Hrs & Hlen). split_and!; auto.
        -- intros Hlt. lia.
        -- intros _ Hseq. discriminate Hseq.
      * intros e s3 (-> & Hbad). auto.
  - intros rs s2 (Hs2 & Hrs & Hlen & Hstops & Hsucc). sat_step. sat_step. sat_step.
    split; [exact Hs2|]. unfold normal_response. simpl. split_and!; auto.
  - auto.
Qed.

Lemma execute_batch_spec sched ops mode coe t s :
  _lock s = false ->
  sat (execute_batch_operations_async sched ops mode coe t s)
    (fun resp s' =>
       _lock s' = false /\
       (normal_response (_endpoints s) t ops mode coe resp \/
        (fault_response resp /\ ~ Forall reportable ops)))
    (fun _ _ => False).
Proof.
  intros Hl. unfold execute_batch_operations_async. sat_step.
  sat_use (batch_body_spec (_endpoints s)); [split; [exact Hl|reflexivity]| |].
  - intros resp s1 [[Hl1 _] Hn]. auto.
  - intros e s1 [[Hl1 _] Hbad]. unfold BatchSummary_default. repeat sat_step.
    split; [exact Hl1|]. right. split; [|exact Hbad].
    unfold fault_response. simpl. repeat split; eauto.
Qed.

(** ** The claims about the batch engine *)

(** C3 (as amended): whatever the operations, the mode and the flags,
    [execute_batch_operations_async] returns a response and raises
    nothing.  Every result stands at the position of its operation and
    reports it: for a well-typed operation, an unknown endpoint, errors in
    the answer of the gateway and a fault of the gateway are each a result
    with success false and the matching error message, and only an answer
    without errors is a success; the result of an operation that is not
    well typed is a failure; every failed result carries an error message.
    When the name and the endpoint of every operation are strings there is
    no batch-level error, every operation has its result under
    continue_on_error or in parallel mode, and otherwise the list stops
    short only after a failed result.  A batch-level error occurs only for
    an operation whose name or endpoint is not a string, and then the
    result list is empty. *)
Theorem batch_returns_and_reports_failures sched ops mode coe t s :
  _lock s = false ->
  exists resp s',
    execute_batch_operations_async sched ops mode coe t s = Done resp s' /\
    (forall i r, results resp !! i = Some r ->
       exists op, ops !! i = Some op /\
         (success r = false -> exists msg, error r = Some msg) /\
         (well_typed op -> reports (_endpoints s) t op r) /\
         (~ well_typed op -> success r = false)) /\
    (Forall reportable ops ->
       errors resp = [] /\
       (coe = true \/ resolve_mode mode = PARALLEL ->
        length (results resp) = length ops) /\
       ((length (results resp) < length ops)%nat ->
        exists r, last (results resp) = Some r /\ success r = false)) /\
    (errors resp <> [] -> results resp = [] /\ ~ Forall reportable ops).
Proof.
  intros Hl.
  destruct (sat_Done _ _ _ (execute_batch_spec sched ops mode coe t s Hl))
    as (resp & s' & Heq & _ & Hresp); [tauto|].
  exists resp, s'. split; [exact Heq|].
  destruct Hresp as [(Herr & Hrs & Hlen & _ & _ & _ & _ & Hstops & _) | [(Hnil & _) Hbad]].
  - split; [|split].
    + intros i r Hr. destruct (Hrs i r Hr) as (op & Hop & Hg). exists op.
      split; [exact Hop|]. split_and!.
      * intros Hfail. exact (good_result_error _ _ _ _ _ Hg Hfail).
      * exact (good_result_well_typed _ _ _ _ _ Hg).
      * exact (good_result_ill_typed _ _ _ _ _ Hg).
    + intros _. split_and!; [exact Herr|exact Hlen|exact Hstops].
    + intros Hne. rewrite Herr in Hne. contradiction.
  - split; [|split].
    + intros i r Hr. rewrite Hnil, lookup_nil in Hr. discriminate.
    + intros Hall. contradiction.
    + intros _. split; [exact Hnil|exact Hbad].
Qed.

(** C7: in every mode, and whatever the order in which the tasks of the
    parallel branch are resumed, the i-th result of the response has index
    i, echoes the name and the endpoint of the i-th operation and reports
    what happened to that operation.  The list never has more results than
    there are operations; when the name and the endpoint of every operation
    are strings it has one result per operation under continue_on_error or
    in parallel mode, and it is shorter only in sequential mode without
    continue_on_error, where it ends with the first failed result. *)
Theorem result_index_is_position sched ops mode coe t s :
  _lock s = false ->
  exists resp s',
    execute_batch_operations_async sched ops mode coe t s = Done resp s' /\
    (forall i r, results resp !! i = Some r ->
      index r = i /\
      exists op, ops !! i = Some op /\
        dict_get op "name" (default_name i) = PyStr (res_name r) /\
        dict_get op "endpoint" (PyStr "") = PyStr (res_endpoint r) /\
        (well_typed op -> reports (_endpoints s) t op r)) /\
    (length (results resp) <= length ops)%nat /\
    (Forall reportable ops ->
       (coe = true \/ resolve_mode mode = PARALLEL ->
        length (results resp) = length ops) /\
       ((length (results resp) < length ops)%nat ->
        coe = false /\ resolve_mode mode = SEQUENTIAL /\
        (exists r, last (results resp) = Some r /\ success r = false) /\
        forall j r, results resp !! j = Some r ->
          (S j < length (results resp))%nat -> success r = true)).
Proof.
  intros Hl.
  destruct (sat_Done _ _ _ (execute_batch_spec sched ops mode coe t s Hl))
    as (resp & s' & Heq & _ & Hresp); [tauto|].
  exists resp, s'. split; [exact Heq|].
  destruct Hresp as [(_ & Hrs & Hlen & _ & _ & _ & _ & Hstops & Hsucc) | [(Hnil & _) Hbad]].
  - split; [|split].
    + intros i r Hr. destruct (Hrs i r Hr) as (op & Hop & Hg).
      pose proof (good_result_well_typed _ _ _ _ _ Hg) as Hrep.
      destruct Hg as [(Hi & Hn & He) _]. simpl in *. split; [exact Hi|]. eauto.
    + apply (results_ok_length _ _ _ _ _ Hrs).
    + intros _. split; [exact Hlen|]. intros Hlt.
      assert (Hcoe : coe = false).
      { destruct coe; [|reflexivity]. rewrite Hlen in Hlt by auto. lia. }
      assert (Hmode : resolve_mode mode = SEQUENTIAL).
      { destruct (resolve_mode mode); [reflexivity|]. rewrite Hlen in Hlt by auto. lia. }
      split_and!; [exact Hcoe|exact Hmode|exact (Hstops Hlt)|exact (Hsucc Hcoe Hmode)].
  - rewrite Hnil. split; [|split].
    + intros i r Hr. rewrite lookup_nil in Hr. discriminate.
    + simpl. lia.
    + intros Hall. contradiction.
Qed.

(** C8: an execution mode that is neither "sequential" nor "parallel"
    makes the batch run exactly as in sequential mode, and the summary
    records the sequential mode. *)
Theorem unrecognized_mode_is_sequential sched sched' ops mode coe t s :
  mode <> "sequential"%string -> mode <> "parallel"%string ->
  _lock s = false ->
  execute_batch_operations_async sched ops mode coe t s =
    execute_batch_operations_async sched' ops "sequential" coe t s /\
  exists resp s',
    execute_batch_operations_async sched ops mode coe t s = Done resp s' /\
    execution_mode (summary resp) = SEQUENTIAL.
Proof.
  intros Hs Hp Hl. pose proof (resolve_mode_other mode Hs Hp) as Hmode. split.
  - unfold execute_batch_operations_async, batch_body.
    rewrite Hmode, resolve_mode_sequential. reflexivity.
  - destruct (sat_Done _ _ _ (execute_batch_spec sched ops mode coe t s Hl))
      as (resp & s' & Heq & _ & Hresp); [tauto|].
    exists resp, s'. split; [exact Heq|].
    destruct Hresp as [(_ & _ & _ & Hm & _) | [(_ & _ & _ & _ & _ & Hm) _]].
    + rewrite Hm. exact Hmode.
    + exact Hm.
Qed.

(** C10: when a fault leaves the [try] block of the batch, the response
    has no results, the message of the fault as its only error, and the
    default summary, whose three counters are 0 whatever the number of
    operations. *)
Theorem outer_fault_gives_empty_response sched ops mode coe t s e s1 :
  batch_body sched ops mode coe t s = Raised e s1 ->
  exists sm,
    execute_batch_operations_async sched ops mode coe t s =
      Done {| results := []; summary := sm; errors := [str_exn e]; warnings := [] |}
           (tick s1) /\
    total_operations sm = 0 /\ successful_operations sm = 0 /\
    failed_operations sm = 0 /\ total_execution_time sm = 0 /\
    execution_mode sm = SEQUENTIAL /\ started_at sm = time_of s1 /\
    completed_at sm = None /\ continue_on_error sm = true.
Proof.
  intros Hbody. unfold execute_batch_operations_async, try_except. rewrite Hbody.
  unfold BatchSummary_default, bind. rewrite utcnow_eq. unfold ret.
  eexists. split; [reflexivity|]. simpl. repeat split.
Qed.

Lemma all_succeed_results t i pre s rs s1 :
  all_succeed t i pre s rs s1 ->
  length rs = length pre /\ filter (fun r => success r = true) rs = rs.
Proof.
  induction 1 as [|i op ops s r s1 rs s2 Hrun Hok _ [IHlen IHf]]; [auto|].
  split; [simpl; lia|].
  rewrite filter_cons_True by exact Hok. rewrite IHf. reflexivity.
Qed.

Lemma all_succeed_at_rest eps t i pre s rs s1 :
  all_succeed t i pre s rs s1 -> at_rest eps s -> at_rest eps s1.
Proof.
  induction 1 as [|i op ops s r s1 rs s2 Hrun Hok _ IH]; intros Hs; [exact Hs|].
  apply IH. pose proof (attempt_operation_spec eps op i t s Hs) as Ha.
  rewrite Hrun in Ha. destruct Ha as [Hs1 _]. exact Hs1.
Qed.

Lemma sequential_loop_stops t post opk : forall pre i s rs s1 rk s2 acc,
  all_succeed t i pre s rs s1 ->
  attempt_operation opk (i + length pre) t s1 = Done rk s2 ->
  success rk = false ->
  sequential_loop false t i (pre ++ opk :: post) acc s = Done (acc ++ rs ++ [rk]) s2.
Proof.
  intros pre i s rs s1 rk s2 acc Hpre. revert acc.
  induction Hpre as [i s|i op ops s r s1 rs s3 Hrun Hok Hrest IH]; intros acc Hk Hfail.
  - simpl app. rewrite sequential_loop_cons.
    simpl in Hk. rewrite Nat.add_0_r in Hk. rewrite Hk, Hfail. reflexivity.
  - simpl app. rewrite sequential_loop_cons, Hrun, Hok. simpl.
    rewrite IH; [rewrite <- app_assoc; reflexivity| |exact Hfail].
    simpl in Hk. replace (S i + length ops)%nat with (i + S (length ops))%nat by lia.
    exact Hk.
Qed.

Lemma sequential_loop_raises t post opk : forall pre i s rs s1 e s2 acc,
  all_succeed t i pre s rs s1 ->
  attempt_operation opk (i + length pre) t s1 = Raised e s2 ->
  sequential_loop false t i (pre ++ opk :: post) acc s = Raised e s2.
Proof.
  intros pre i s rs s1 e s2 acc Hpre. revert acc.
  induction Hpre as [i s|i op ops s r s1 rs s3 Hrun Hok Hrest IH]; intros acc Hk.
  - simpl app. rewrite sequential_loop_cons.
    simpl in Hk. rewrite Nat.add_0_r in Hk. rewrite Hk. reflexivity.
  - simpl app. rewrite sequential_loop_cons, Hrun, Hok. simpl.
    apply IH.
    simpl in Hk. replace (S i + length ops)%nat with (i + S (length ops))%nat by lia.
    exact Hk.
Qed.

(** C2 (as amended): in sequential mode without continue_on_error, when
    the operations before position k all succeed and operation k fails,
    the batch stops at operation k, whatever operations follow.  If the
    failure of operation k is a failed result, the response holds exactly
    the k+1 results of the operations 0..k in input order, the last one
    failed; total_operations is the length of the input and
    failed_operations is the number of results minus successful_operations.
    If the failure of operation k is an exception that leaves the loop,
    which happens only when its name or its endpoint is not a string, the
    response holds no result at all, the text of the exception as its only
    error, and the counters 0.  An operation k whose name and endpoint are
    strings always gives a result. *)
Theorem sequential_early_stop sched pre opk post t s rs s1 :
  _lock s = false ->
  all_succeed t 0 pre (tick s) rs s1 ->
  (forall rk s2,
     attempt_operation opk (length pre) t s1 = Done rk s2 ->
     success rk = false ->
     exists resp,
       execute_batch_operations_async sched (pre ++ opk :: post) "sequential" false t s =
         Done resp (tick s2) /\
       results resp = rs ++ [rk] /\
       length (results resp) = S (length pre) /\
       errors resp = [] /\
       total_operations (summary resp) = Z.of_nat (length (pre ++ opk :: post)) /\
       successful_operations (summary resp) = Z.of_nat (length pre) /\
       failed_operations (summary resp) =
         Z.of_nat (length (results resp)) - successful_operations (summary resp)) /\
  (forall e s2,
     attempt_operation opk (length pre) t s1 = Raised e s2 ->
     ~ reportable opk /\
     exists sm,
       execute_batch_operations_async sched (pre ++ opk :: post) "sequential" false t s =
         Done {| results := []; summary := sm; errors := [str_exn e]; warnings := [] |}
              (tick s2) /\
       total_operations sm = 0 /\ successful_operations sm = 0 /\
       failed_operations sm = 0) /\
  (reportable opk ->
     exists rk s2, attempt_operation opk (length pre) t s1 = Done rk s2).
Proof.
  intros Hl Hpre.
  destruct (all_succeed_results _ _ _ _ _ _ Hpre) as [Hlen Hfilter].
  assert (Hs1 : at_rest (_endpoints s) s1).
  { apply (all_succeed_at_rest _ _ _ _ _ _ _ Hpre). split; [exact Hl|reflexivity]. }
  pose proof (attempt_operation_spec (_endpoints s) opk (length pre) t s1 Hs1) as Hk.
  split; [|split].
  - intros rk s2 Hrun Hfail.
    unfold execute_batch_operations_async, try_except, batch_body, bind.
    rewrite utcnow_eq, resolve_mode_sequential.
    rewrite (sequential_loop_stops t post opk pre 0 (tick s) rs s1 rk s2 [] Hpre Hrun Hfail).
    rewrite utcnow_eq. unfold ret. eexists. split; [reflexivity|]. simpl.
    rewrite filter_app, Hfilter.
    rewrite filter_cons_False by (rewrite Hfail; discriminate).
    rewrite filter_nil, app_nil_r, !length_app, Hlen.
    simpl. repeat split; lia.
  - intros e s2 Hrun. rewrite Hrun in Hk. destruct Hk as [_ Hbad].
    split; [exact Hbad|].
    unfold execute_batch_operations_async, try_except, batch_body, bind.
    rewrite utcnow_eq, resolve_mode_sequential.
    rewrite (sequential_loop_raises t post opk pre 0 (tick s) rs s1 e s2 [] Hpre Hrun).
    unfold BatchSummary_default, bind. rewrite utcnow_eq. unfold ret.
    eexists. split; [reflexivity|]. simpl. repeat split.
  - intros Hrep.
    destruct (attempt_operation opk (length pre) t s1) as [rk s2|e s2|]; simpl in Hk.
    + eauto.
    + destruct Hk as [_ Hbad]. contradiction.
    + contradiction.
Qed.


(** ** More of the registry *)

Lemma tools_of_insert m e S e' :
  tools_of (<[e := S]> m) e' = if decide (e = e') then S else tools_of m e'.
Proof. unfold tools_of. rewrite lookup_insert. case_decide; reflexivity. Qed.

Lemma update_tool_count_frame (B : Prop) e s :
  sat_or B (update_tool_count e s)
    (fun _ s' =>
       _endpoints s' = _endpoints s /\ _endpoint_schemas s' = _endpoint_schemas s /\
       _last_updated s' = _last_updated s /\ _lock s' = _lock s /\ world s' = world s /\
       gateway_log s' = gateway_log s /\
       _tool_to_endpoint s' = _tool_to_endpoint s /\
       _endpoint_to_tools s' = _endpoint_to_tools s /\
       dom (_endpoint_stats s') = dom (_endpoint_stats s) /\
       (forall e', e' <> e -> _endpoint_stats s' !! e' = _endpoint_stats s !! e') /\
       _endpoint_stats s' !! e =
         set_tool_count (Z.of_nat (size (tools_of (_endpoint_to_tools s) e)))
           <$> _endpoint_stats s !! e)
    (fun _ _ => False).
Proof.
  unfold update_tool_count. repeat sat_step.
  destruct (_endpoint_stats s !! e) as [st|] eqn:He; repeat sat_step; simpl.
  - repeat split; auto.
    + rewrite dom_insert_L. apply elem_of_dom_2 in He. set_solver.
    + intros e' Hne. apply lookup_insert_ne. congruence.
    + apply lookup_insert_eq.
  - repeat split; auto.
Qed.

Lemma _remove_tool_spec (B : Prop) t s :
  sat_or B (_remove_tool t s)
    (fun b s' => b = true /\ tools_removed [t] s s')
    (fun _ _ => False).
Proof.
  unfold _remove_tool. sat_step. sat_step. sat_step. sat_step.
  eapply sat_or_mono with
    (Q := fun _ s' =>
       _endpoints s' = _endpoints s /\ _endpoint_schemas s' = _endpoint_schemas s /\
       _last_updated s' = _last_updated s /\ _lock s' = _lock s /\ world s' = world s /\
       gateway_log s' = gateway_log s /\
       dom (_endpoint_stats s') = dom (_endpoint_stats s) /\
       _tool_to_endpoint s' = _tool_to_endpoint s /\
       (forall e t', t' ∈ tools_of (_endpoint_to_tools s') e ->
                     t' ∈ tools_of (_endpoint_to_tools s) e) /\
       (forall e t', t' <> t -> t' ∈ tools_of (_endpoint_to_tools s) e ->
                     t' ∈ tools_of (_endpoint_to_tools s') e))
    (E := fun _ _ => False); cbv beta.
  - destruct (_tool_to_endpoint s !! t) as [e|] eqn:Ht;
      [destruct (String.eqb e "")|]; repeat sat_step; try (repeat split; auto; fail).
    sat_use update_tool_count_frame; [|auto].
    intros _ s' (He & Hsc & Hlu & Hl & Hw & Hg & Ht2e & He2t & Hdom & _). simpl in *.
    rewrite He2t. repeat split; auto.
    + intros e' t'. rewrite tools_of_insert. case_decide; [subst e'|auto]. set_solver.
    + intros e' t' Hne. rewrite tools_of_insert. case_decide; [subst e'|auto]. set_solver.
  - intros _ s' (He & Hsc & Hlu & Hl & Hw & Hg & Hdom & Ht2e & Hsub & Hkeep).
    repeat sat_step. split; [reflexivity|]. unfold tools_removed. simpl.
    rewrite Ht2e. repeat split; auto.
    + intros t' Hin. apply list_elem_of_singleton in Hin. subst t'. apply lookup_delete_eq.
    + intros t' Hnin. apply lookup_delete_ne. intros Heq. apply Hnin. subst t'. left.
    + intros e t' Hnin. apply Hkeep. intros Heq. apply Hnin. subst t'. left.
  - intros _ s0 [].
Qed.

Lemma tools_removed_nil s : tools_removed [] s s.
Proof.
  unfold tools_removed. repeat split; auto. intros t Hin. inversion Hin.
Qed.

Lemma tools_removed_cons t l s s1 s2 :
  tools_removed [t] s s1 -> tools_removed l s1 s2 -> tools_removed (t :: l) s s2.
Proof.
  intros (He & Hsc & Hlu & Hl & Hw & Hg & Hdom & Hgone & Hsame & Hsub & Hkeep)
         (He' & Hsc' & Hlu' & Hl' & Hw' & Hg' & Hdom' & Hgone' & Hsame' & Hsub' & Hkeep').
  unfold tools_removed. repeat split; try congruence.
  - intros t' Hin. destruct (decide (t' ∈ l)) as [Hl2|Hl2]; [auto|].
    rewrite Hsame' by exact Hl2. apply Hgone.
    apply elem_of_cons in Hin. destruct Hin as [->|Hin]; [left|contradiction].
  - intros t' Hnin. apply not_elem_of_cons in Hnin. destruct Hnin as [Hne Hnin].
    rewrite Hsame' by exact Hnin. apply Hsame. intros Hin.
    apply list_elem_of_singleton in Hin. contradiction.
  - intros e t' Hin. apply Hsub, Hsub', Hin.
  - intros e t' Hnin Hin. apply not_elem_of_cons in Hnin. destruct Hnin as [Hne Hnin].
    apply Hkeep'; [exact Hnin|]. apply Hkeep; [|exact Hin].
    intros Hin'. apply list_elem_of_singleton in Hin'. contradiction.
Qed.

Lemma remove_tools_loop (B : Prop) l : forall s,
  sat_or B (for_each l (fun tool_name => bind (_remove_tool tool_name) (fun _ => ret tt)) s)
    (fun _ s' => tools_removed l s s')
    (fun _ _ => False).
Proof.
  induction l as [|t l IH]; intros s; simpl.
  - apply tools_removed_nil.
  - sat_step. sat_step. sat_use _remove_tool_spec; [|auto].
    intros b s1 [_ H1]. sat_step.
    sat_use IH; [|auto]. intros _ s2 H2. eapply tools_removed_cons; eauto.
Qed.

Lemma unregister_endpoint_unknown e s :
  _lock s = false -> _endpoints s !! e = None -> unregister_endpoint e s = Done false s.
Proof.
  intros Hl He. unfold unregister_endpoint, with_lock, try_except, bind, gets. rewrite Hl.
  simpl. rewrite He. unfold ret. rewrite unlock_relock by exact Hl. reflexivity.
Qed.

Lemma unregister_endpoint_spec e info s :
  _lock s = false -> _endpoints s !! e = Some info ->
  sat (unregister_endpoint e s)
    (fun b s' =>
       b = true /\ _lock s' = false /\ world s' = world s /\
       gateway_log s' = gateway_log s /\
       _endpoints s' = delete e (_endpoints s) /\
       _endpoint_schemas s' = delete e (_endpoint_schemas s) /\
       _last_updated s' = delete e (_last_updated s) /\
       dom (_endpoint_stats s') = dom (_endpoint_stats s) ∖ {[e]} /\
       _endpoint_to_tools s' !! e = None /\
       (forall t, t ∈ tools_of (_endpoint_to_tools s) e -> _tool_to_endpoint s' !! t = None) /\
       (forall t, t ∉ tools_of (_endpoint_to_tools s) e ->
                  _tool_to_endpoint s' !! t = _tool_to_endpoint s !! t) /\
       (forall e' t, t ∈ tools_of (_endpoint_to_tools s') e' ->
                     e' <> e /\ t ∈ tools_of (_endpoint_to_tools s) e') /\
       (forall e' t, e' <> e -> t ∉ tools_of (_endpoint_to_tools s) e ->
                     t ∈ tools_of (_endpoint_to_tools s) e' ->
                     t ∈ tools_of (_endpoint_to_tools s') e'))
    (fun _ _ => False).
Proof.
  intros Hl He. unfold unregister_endpoint. sat_step. rewrite Hl.
  sat_step. sat_step. sat_step. simpl. rewrite He. sat_step. sat_step. sat_step.
  eapply sat_or_mono; [apply remove_tools_loop| |]; cbv beta; [|intros _ s0 []].
  intros _ s1 (He1 & Hsc & Hlu & Hl1 & Hw & Hg & Hdom & Hgone & Hsame & Hsub & Hkeep).
  simpl in *. repeat sat_step. simpl.
  rewrite He1, Hsc, Hlu. split_and!; auto.
  - rewrite dom_delete_L, Hdom. reflexivity.
  - apply lookup_delete_eq.
  - intros t Hin. apply Hgone, elem_of_elements, Hin.
  - intros t Hnin. apply Hsame. rewrite elem_of_elements. exact Hnin.
  - intros e' t Hin. unfold tools_of in Hin. rewrite lookup_delete in Hin.
    case_decide as Heq.
    + simpl in Hin. apply not_elem_of_empty in Hin. contradiction.
    + split; [congruence|]. apply Hsub. exact Hin.
  - intros e' t Hne Hnin Hin. unfold tools_of at 1. rewrite lookup_delete_ne by congruence.
    apply Hkeep; [|exact Hin]. rewrite elem_of_elements. exact Hnin.
Qed.

Lemma register_endpoint_last_updated info schema s :
  _lock s = false ->
  sat (register_endpoint info schema s)
    (fun _ s' =>
       (exists now, _last_updated s' = <[name info := now]> (_last_updated s)) /\
       world s' = (clock (clock (world s)).2).2)
    (fun _ _ => False).
Proof.
  intros Hl. unfold register_endpoint. repeat sat_step. rewrite Hl. repeat sat_step.
  destruct schema; repeat sat_step; simpl; eauto.
Qed.

Lemma register_tool_unknown t e s :
  _lock s = false -> _endpoints s !! e = None -> register_tool t e s = Done false s.
Proof.
  intros Hl He. unfold register_tool, with_lock, try_except, bind, gets. rewrite Hl.
  simpl. rewrite He. unfold ret. rewrite unlock_relock by exact Hl. reflexivity.
Qed.

Lemma register_tool_spec t e info s :
  _lock s = false -> _endpoints s !! e = Some info ->
  sat (register_tool t e s)
    (fun b s' =>
       b = true /\ _lock s' = false /\ world s' = world s /\
       gateway_log s' = gateway_log s /\
       _endpoints s' = _endpoints s /\
       _endpoint_schemas s' = _endpoint_schemas s /\
       _last_updated s' = _last_updated s /\
       _tool_to_endpoint s' = <[t := e]> (_tool_to_endpoint s) /\
       _endpoint_to_tools s' =
         <[e := tools_of (_endpoint_to_tools s) e ∪ {[t]}]> (_endpoint_to_tools s) /\
       dom (_endpoint_stats s') = dom (_endpoint_stats s) /\
       (forall e', e' <> e -> _endpoint_stats s' !! e' = _endpoint_stats s !! e') /\
       _endpoint_stats s' !! e =
         set_tool_count (Z.of_nat (size (tools_of (_endpoint_to_tools s) e ∪ {[t]})))
           <$> _endpoint_stats s !! e)
    (fun _ _ => False).
Proof.
  intros Hl He. unfold register_tool. sat_step. rewrite Hl.
  sat_step. sat_step. sat_step. simpl. rewrite He. sat_step. sat_step. sat_step. sat_step.
  sat_step.
  eapply sat_or_mono; [apply update_tool_count_frame| |]; cbv beta; [|intros _ s0 []].
  intros _ s1 (He1 & Hsc & Hlu & Hl1 & Hw & Hg & Ht2e & He2t & Hdom & Hother & Hthis).
  simpl in *. repeat sat_step. simpl. rewrite tools_of_insert in Hthis.
  destruct (decide (e = e)) as [_|Hne]; [|congruence].
  split_and!; auto.
Qed.

Lemma update_endpoint_schema_unknown e schema s :
  _lock s = false -> _endpoints s !! e = None ->
  update_endpoint_schema e schema s = Done false s.
Proof.
  intros Hl He. unfold update_endpoint_schema, with_lock, try_except, bind, gets. rewrite Hl.
  simpl. rewrite He. unfold ret. rewrite unlock_relock by exact Hl. reflexivity.
Qed.

Lemma update_endpoint_schema_spec e info schema s :
  _lock s = false -> _endpoints s !! e = Some info ->
  sat (update_endpoint_schema e schema s)
    (fun b s' =>
       b = true /\ _lock s' = false /\
       gateway_log s' = gateway_log s /\
       _endpoints s' = _endpoints s /\
       _endpoint_schemas s' = <[e := schema]> (_endpoint_schemas s) /\
       (exists now, _last_updated s' = <[e := now]> (_last_updated s)) /\
       _tool_to_endpoint s' = _tool_to_endpoint s /\
       _endpoint_to_tools s' = _endpoint_to_tools s /\
       dom (_endpoint_stats s') = dom (_endpoint_stats s) /\
       (forall e', e' <> e -> _endpoint_stats s' !! e' = _endpoint_stats s !! e') /\
       (exists now, _endpoint_stats s' !! e =
                      set_schema_stats (version schema) now <$> _endpoint_stats s !! e))
    (fun _ _ => False).
Proof.
  intros Hl He. unfold update_endpoint_schema. sat_step. rewrite Hl.
  sat_step. sat_step. sat_step. simpl. rewrite He. repeat sat_step. simpl.
  destruct (_endpoint_stats s !! e) as [st|] eqn:Hst; repeat sat_step; simpl.
  - split_and!; eauto.
    + rewrite dom_insert_L. apply elem_of_dom_2 in Hst.
      apply set_eq. intros x. rewrite elem_of_union, elem_of_singleton.
      split; [intros [->|Hx]; auto|auto].
    + intros e' Hne. apply lookup_insert_ne. congruence.
    + eexists. rewrite lookup_insert_eq. reflexivity.
  - split_and!; eauto. exists 0. simpl. first [exact Hst|reflexivity].
Qed.

Lemma record_endpoint_access_frame e ok s :
  _lock s = false ->
  sat (record_endpoint_access e ok s)
    (fun _ s' =>
       _lock s' = false /\ gateway_log s' = gateway_log s /\
       _endpoints s' = _endpoints s /\
       _endpoint_schemas s' = _endpoint_schemas s /\
       _last_updated s' = _last_updated s /\
       _tool_to_endpoint s' = _tool_to_endpoint s /\
       _endpoint_to_tools s' = _endpoint_to_tools s /\
       dom (_endpoint_stats s') = dom (_endpoint_stats s) /\
       (forall e', e' <> e -> _endpoint_stats s' !! e' = _endpoint_stats s !! e') /\
       _endpoint_stats s' !! e = record_access (time_of s) ok <$> _endpoint_stats s !! e)
    (fun _ _ => False).
Proof.
  intros Hl. unfold record_endpoint_access. sat_step. rewrite Hl. sat_step. sat_step. simpl.
  destruct (_endpoint_stats s !! e) as [st|] eqn:Hst; repeat sat_step; simpl.
  - split_and!; auto.
    + rewrite dom_insert_L. apply elem_of_dom_2 in Hst.
      apply set_eq. intros x. rewrite elem_of_union, elem_of_singleton.
      split; [intros [->|Hx]; auto|auto].
    + intros e' Hne. apply lookup_insert_ne. congruence.
    + rewrite lookup_insert_eq. reflexivity.
  - split_and!; auto.
Qed.

(** The sweep either finds nothing stale, or it never returns. *)
Lemma cleanup_stale_endpoints_outcome h s :
  _lock s = false ->
  cleanup_stale_endpoints h s = Done 0 (tick s) \/ cleanup_stale_endpoints h s = Blocked.
Proof.
  intros Hl.
  destruct (stale_names (time_of s) h (_endpoint_stats s)) as [|x l] eqn:Hn.
  - left. apply cleanup_nothing_stale; [exact Hl|].
    apply stale_names_nil. exact Hn.
  - right. unfold cleanup_stale_endpoints, with_lock, bind. rewrite Hl.
    rewrite utcnow_eq. unfold gets.
    change (time_of (set_lock true s)) with (time_of s).
    change (_endpoint_stats (tick (set_lock true s))) with (_endpoint_stats s).
    rewrite Hn. reflexivity.
Qed.

Lemma bind_ret_tt_inv {A} (m : M A) s s' :
  bind m (fun _ => ret tt) s = Done tt s' -> exists a, m s = Done a s'.
Proof.
  unfold bind, ret. destruct (m s) as [a s1| |]; try discriminate.
  intros [= <-]. eauto.
Qed.

(** What a registry call that returns has done, call by call. *)
Lemma run_call_effect (P : State -> Prop) c s s' :
  _lock s = false ->
  run_call c s = Done tt s' ->
  P s ->
  (forall w, P s -> P (set_world w s)) ->
  (forall info schema, sat (register_endpoint info schema s) (fun _ s1 => P s1) (fun _ _ => False)) ->
  (forall e info, _endpoints s !! e = Some info ->
     sat (unregister_endpoint e s) (fun _ s1 => P s1) (fun _ _ => False)) ->
  (forall e info schema, _endpoints s !! e = Some info ->
     sat (update_endpoint_schema e schema s) (fun _ s1 => P s1) (fun _ _ => False)) ->
  (forall t e info, _endpoints s !! e = Some info ->
     sat (register_tool t e s) (fun _ s1 => P s1) (fun _ _ => False)) ->
  (forall e ok, sat (record_endpoint_access e ok s) (fun _ s1 => P s1) (fun _ _ => False)) ->
  P s'.
Proof.
  intros Hl Hrun HP Hworld Hreg Hunreg Hupd Htool Hrec.
  destruct c as [info schema|e|e schema|t e|e ok|h]; simpl in Hrun.
  - apply bind_ret_tt_inv in Hrun. destruct Hrun as [b Hrun].
    specialize (Hreg info schema). rewrite Hrun in Hreg. exact Hreg.
  - apply bind_ret_tt_inv in Hrun. destruct Hrun as [b Hrun].
    destruct (_endpoints s !! e) as [info|] eqn:He.
    + specialize (Hunreg e info He). rewrite Hrun in Hunreg. exact Hunreg.
    + rewrite (unregister_endpoint_unknown e s Hl He) in Hrun.
      injection Hrun as _ <-. exact HP.
  - apply bind_ret_tt_inv in Hrun. destruct Hrun as [b Hrun].
    destruct (_endpoints s !! e) as [info|] eqn:He.
    + specialize (Hupd e info schema He). rewrite Hrun in Hupd. exact Hupd.
    + rewrite (update_endpoint_schema_unknown e schema s Hl He) in Hrun.
      injection Hrun as _ <-. exact HP.
  - apply bind_ret_tt_inv in Hrun. destruct Hrun as [b Hrun].
    destruct (_endpoints s !! e) as [info|] eqn:He.
    + specialize (Htool t e info He). rewrite Hrun in Htool. exact Htool.
    + rewrite (register_tool_unknown t e s Hl He) in Hrun.
      injection Hrun as _ <-. exact HP.
  - specialize (Hrec e ok). rewrite Hrun in Hrec. exact Hrec.
  - apply bind_ret_tt_inv in Hrun. destruct Hrun as [n Hrun].
    destruct (cleanup_stale_endpoints_outcome h s Hl) as [Hc|Hc];
      rewrite Hc in Hrun; [|discriminate].
    injection Hrun as _ <-. apply Hworld, HP.
Qed.

Lemma reachable_domains_agree s : reachable s -> domains_agree s.
Proof.
  induction 1 as [w | s c s' Hs IH Hrun | s w _ IH].
  - unfold domains_agree. simpl. rewrite !dom_empty_L. auto.
  - pose proof (reachable_unlocked s Hs) as Hl.
    destruct IH as (Hst & Hlu & Hsc).
    apply (run_call_effect domains_agree c s s' Hl Hrun).
    + split_and!; assumption.
    + intros w _. split_and!; assumption.
    + intros info schema.
      pose proof (register_endpoint_spec info schema s Hl) as H1.
      pose proof (register_endpoint_last_updated info schema s Hl) as H2.
      destruct (register_endpoint info schema s) as [b s1| |]; simpl in *; [|contradiction..].
      destruct H1 as (_ & _ & He & Hsch & [now Hstats] & _).
      destruct H2 as ([now' Hupd] & _).
      unfold domains_agree. rewrite He, Hstats, Hupd, Hsch, !dom_insert_L, Hst, Hlu.
      split_and!; auto. destruct schema; [rewrite dom_insert_L|]; set_solver.
    + intros e info He. sat_use (unregister_endpoint_spec e info s Hl He); [|auto].
      intros _ s1 (_ & _ & _ & _ & He1 & Hsc1 & Hlu1 & Hdom & _).
      unfold domains_agree. rewrite He1, Hsc1, Hlu1, Hdom, !dom_delete_L, Hst, Hlu.
      split_and!; auto. set_solver.
    + intros e info schema He. sat_use (update_endpoint_schema_spec e info schema s Hl He); [|auto].
      intros _ s1 (_ & _ & _ & He1 & Hsc1 & [now Hlu1] & _ & _ & Hdom & _).
      unfold domains_agree. rewrite He1, Hsc1, Hlu1, Hdom, !dom_insert_L, Hst, Hlu.
      apply elem_of_dom_2 in He. split_and!; auto; set_solver.
    + intros t e info He. sat_use (register_tool_spec t e info s Hl He); [|auto].
      intros _ s1 (_ & _ & _ & _ & He1 & Hsc1 & Hlu1 & _ & _ & Hdom & _).
      unfold domains_agree. rewrite He1, Hsc1, Hlu1, Hdom. split_and!; auto.
    + intros e ok. sat_use (record_endpoint_access_frame e ok s Hl); [|auto].
      intros _ s1 (_ & _ & He1 & Hsc1 & Hlu1 & _ & _ & Hdom & _).
      unfold domains_agree. rewrite He1, Hsc1, Hlu1, Hdom. split_and!; auto.
  - exact IH.
Qed.

Lemma reachable_tool_map_backed s : reachable s -> tool_map_backed s.
Proof.
  induction 1 as [w | s c s' Hs IH Hrun | s w _ IH].
  - intros t e Ht. simpl in Ht. rewrite lookup_empty in Ht. discriminate.
  - pose proof (reachable_unlocked s Hs) as Hl.
    apply (run_call_effect tool_map_backed c s s' Hl Hrun).
    + exact IH.
    + intros w _. exact IH.
    + intros info schema.
      sat_use (register_endpoint_spec info schema s Hl); [|auto].
      intros _ s1 (_ & _ & He & _ & _ & Ht2e & He2t & _).
      intros t e Ht. rewrite Ht2e in Ht. destruct (IH t e Ht) as [Hin Hreg].
      rewrite He2t, He. split; [exact Hin|].
      rewrite lookup_insert. case_decide; [eauto|exact Hreg].
    + intros e info He. sat_use (unregister_endpoint_spec e info s Hl He); [|auto].
      intros _ s1 (_ & _ & _ & _ & He1 & _ & _ & _ & _ & Hgone & Hsame & _ & Hkeep).
      intros t e' Ht.
      destruct (decide (t ∈ tools_of (_endpoint_to_tools s) e)) as [Hin|Hnin].
      { rewrite (Hgone t Hin) in Ht. discriminate. }
      rewrite (Hsame t Hnin) in Ht. destruct (IH t e' Ht) as [Hin' Hreg].
      assert (Hne : e' <> e) by (intros ->; contradiction).
      split; [apply Hkeep; auto|].
      rewrite He1, lookup_delete_ne by congruence. exact Hreg.
    + intros e info schema He. sat_use (update_endpoint_schema_spec e info schema s Hl He); [|auto].
      intros _ s1 (_ & _ & _ & He1 & _ & _ & Ht2e & He2t & _).
      intros t e' Ht. rewrite Ht2e in Ht. rewrite He2t, He1. exact (IH t e' Ht).
    + intros t e info He. sat_use (register_tool_spec t e info s Hl He); [|auto].
      intros _ s1 (_ & _ & _ & _ & He1 & _ & _ & Ht2e & He2t & _).
      intros t' e' Ht. rewrite Ht2e, lookup_insert in Ht. rewrite He2t, He1, tools_of_insert.
      case_decide as Heq.
      * injection Ht as <-. subst t'. rewrite decide_True by reflexivity.
        split; [set_solver|eauto].
      * destruct (IH t' e' Ht) as [Hin Hreg]. split; [|exact Hreg].
        case_decide; [subst e'; set_solver|exact Hin].
    + intros e ok. sat_use (record_endpoint_access_frame e ok s Hl); [|auto].
      intros _ s1 (_ & _ & He1 & _ & _ & Ht2e & He2t & _).
      intros t e' Ht. rewrite Ht2e in Ht. rewrite He2t, He1. exact (IH t e' Ht).
  - exact IH.
Qed.

Lemma get_endpoint_eq e s : _lock s = false -> get_endpoint e s = Done (_endpoints s !! e) s.
Proof. intros Hl. unfold get_endpoint. rewrite with_lock_gets by exact Hl. reflexivity. Qed.

Lemma get_endpoint_schema_eq e s :
  _lock s = false -> get_endpoint_schema e s = Done (_endpoint_schemas s !! e) s.
Proof. intros Hl. unfold get_endpoint_schema. rewrite with_lock_gets by exact Hl. reflexivity. Qed.

Lemma get_endpoint_stats_eq e s :
  _lock s = false ->
  get_endpoint_stats e s =
    Done match _endpoint_stats s !! e with Some st => Stats st | None => EmptyDict end s.
Proof. intros Hl. unfold get_endpoint_stats. rewrite with_lock_gets by exact Hl. reflexivity. Qed.

Lemma get_endpoint_for_tool_eq t s :
  _lock s = false -> get_endpoint_for_tool t s = Done (_tool_to_endpoint s !! t) s.
Proof. intros Hl. unfold get_endpoint_for_tool. rewrite with_lock_gets by exact Hl. reflexivity. Qed.

Lemma get_tools_for_endpoint_eq e s :
  _lock s = false ->
  get_tools_for_endpoint e s = Done (tools_of (_endpoint_to_tools s) e) s.
Proof. intros Hl. unfold get_tools_for_endpoint. rewrite with_lock_gets by exact Hl. reflexivity. Qed.

Lemma get_endpoint_count_eq s :
  _lock s = false -> get_endpoint_count s = Done (Z.of_nat (size (_endpoints s))) s.
Proof. intros Hl. unfold get_endpoint_count. rewrite with_lock_gets by exact Hl. reflexivity. Qed.

(** X3: registering twice under one name keeps one entry, and the second
    registration is the one [get_endpoint] returns; the endpoints under
    other names are not affected. *)
Theorem register_endpoint_last_write_wins info info' schema schema' s :
  _lock s = false ->
  name info' = name info ->
  exists s1 s2 n,
    register_endpoint info schema s = Done true s1 /\
    register_endpoint info' schema' s1 = Done true s2 /\
    get_endpoint (name info) s2 = Done (Some info') s2 /\
    get_endpoint_count s1 = Done n s1 /\
    get_endpoint_count s2 = Done n s2 /\
    forall e, e <> name info -> _endpoints s2 !! e = _endpoints s !! e.
Proof.
  intros Hl Hname.
  destruct (sat_Done _ _ _ (register_endpoint_spec info schema s Hl))
    as (b & s1 & Heq1 & -> & Hl1 & He1 & _); [tauto|].
  destruct (sat_Done _ _ _ (register_endpoint_spec info' schema' s1 Hl1))
    as (b & s2 & Heq2 & -> & Hl2 & He2 & _); [tauto|].
  exists s1, s2, (Z.of_nat (size (_endpoints s1))).
  split; [exact Heq1|]. split; [exact Heq2|].
  rewrite get_endpoint_eq, !get_endpoint_count_eq by assumption.
  rewrite He2, Hname. split_and!.
  - rewrite lookup_insert_eq. reflexivity.
  - reflexivity.
  - do 2 f_equal. rewrite <- !size_dom, dom_insert_L.
    f_equal. rewrite He1, dom_insert_L. set_solver.
  - intros e Hne. rewrite lookup_insert_ne by congruence.
    rewrite He1. apply lookup_insert_ne. congruence.
Qed.

(** X4: the mutators that name an endpoint return [False] and change
    nothing when the endpoint is not registered. *)
Theorem mutators_reject_unknown_endpoint e t schema s :
  _lock s = false ->
  _endpoints s !! e = None ->
  unregister_endpoint e s = Done false s /\
  register_tool t e s = Done false s /\
  update_endpoint_schema e schema s = Done false s.
Proof.
  intros Hl He. split_and!.
  - apply unregister_endpoint_unknown; assumption.
  - apply register_tool_unknown; assumption.
  - apply update_endpoint_schema_unknown; assumption.
Qed.

(** X5: unregistering a registered endpoint returns [True] and removes its
    record, its cached schema, its statistics and its tool set:
    [get_endpoint] and [get_endpoint_schema] then return [None],
    [get_endpoint_stats], which returned a copy of the statistics before,
    returns the empty dictionary, and [get_tools_for_endpoint] the empty
    set; every tool that was in the set loses its entry in the reverse map;
    the other endpoints keep their record and their schema. *)
Theorem unregister_endpoint_cascades e info s :
  _lock s = false ->
  _endpoints s !! e = Some info ->
  exists s',
    unregister_endpoint e s = Done true s' /\
    get_endpoint e s' = Done None s' /\
    get_endpoint_schema e s' = Done None s' /\
    (forall st, _endpoint_stats s !! e = Some st ->
       get_endpoint_stats e s = Done (Stats st) s) /\
    get_endpoint_stats e s' = Done EmptyDict s' /\
    get_tools_for_endpoint e s' = Done ∅ s' /\
    (forall t, t ∈ tools_of (_endpoint_to_tools s) e ->
       get_endpoint_for_tool t s' = Done None s') /\
    (forall e', e' <> e ->
       _endpoints s' !! e' = _endpoints s !! e' /\
       _endpoint_schemas s' !! e' = _endpoint_schemas s !! e').
Proof.
  intros Hl He.
  destruct (sat_Done _ _ _ (unregister_endpoint_spec e info s Hl He))
    as (b & s' & Heq & -> & Hl' & _ & _ & He' & Hsc & _ & Hdom & He2t & Hgone & _); [tauto|].
  exists s'. split; [exact Heq|].
  rewrite (get_endpoint_stats_eq e s Hl).
  rewrite get_endpoint_eq, get_endpoint_schema_eq, get_endpoint_stats_eq,
    get_tools_for_endpoint_eq by exact Hl'.
  rewrite He', Hsc, !lookup_delete_eq. unfold tools_of. rewrite He2t. simpl.
  split_and!; try reflexivity.
  - intros st Hst. rewrite Hst. reflexivity.
  - assert (Hst : _endpoint_stats s' !! e = None)
      by (apply not_elem_of_dom; rewrite Hdom; set_solver).
    rewrite Hst. reflexivity.
  - intros t Hin. rewrite get_endpoint_for_tool_eq by exact Hl'. rewrite (Hgone t Hin).
    reflexivity.
  - intros e' Hne. rewrite !lookup_delete_ne by congruence. auto.
Qed.

Lemma State_eq (s s' : State) :
  _endpoints s' = _endpoints s -> _endpoint_schemas s' = _endpoint_schemas s ->
  _tool_to_endpoint s' = _tool_to_endpoint s -> _endpoint_to_tools s' = _endpoint_to_tools s ->
  _endpoint_stats s' = _endpoint_stats s -> _last_updated s' = _last_updated s ->
  _lock s' = _lock s -> world s' = world s -> gateway_log s' = gateway_log s ->
  s' = s.
Proof. destruct s, s'; simpl; intros; subst; reflexivity. Qed.

(** X6: registering a tool for a registered endpoint returns [True]; the
    tool is then found under that endpoint in both directions, the
    tool_count statistic is the size of the endpoint's tool set, and
    registering the same tool for the same endpoint again changes
    nothing. *)
Theorem register_tool_registers_once t e info s :
  _lock s = false ->
  _endpoints s !! e = Some info ->
  exists s',
    register_tool t e s = Done true s' /\
    get_endpoint_for_tool t s' = Done (Some e) s' /\
    t ∈ tools_of (_endpoint_to_tools s') e /\
    (forall st', _endpoint_stats s' !! e = Some st' ->
       tool_count st' = Z.of_nat (size (tools_of (_endpoint_to_tools s') e))) /\
    register_tool t e s' = Done true s'.
Proof.
  intros Hl He.
  destruct (sat_Done _ _ _ (register_tool_spec t e info s Hl He))
    as (b & s' & Heq & -> & Hl' & Hw & Hg & He' & Hsc & Hlu & Ht2e & He2t & Hdom & Hother & Hthis);
    [tauto|].
  exists s'. split; [exact Heq|].
  assert (Htools : tools_of (_endpoint_to_tools s') e =
                   tools_of (_endpoint_to_tools s) e ∪ {[t]}).
  { rewrite He2t, tools_of_insert, decide_True by reflexivity. reflexivity. }
  rewrite get_endpoint_for_tool_eq by exact Hl'. rewrite Ht2e, lookup_insert_eq, Htools.
  split_and!.
  - reflexivity.
  - set_solver.
  - intros st' Hst'. rewrite Hthis in Hst'.
    destruct (_endpoint_stats s !! e) as [st|]; [|discriminate].
    injection Hst' as <-. reflexivity.
  - assert (He'' : _endpoints s' !! e = Some info) by (rewrite He'; exact He).
    destruct (sat_Done _ _ _ (register_tool_spec t e info s' Hl' He''))
      as (b & s2 & Heq2 & -> & Hl2 & Hw2 & Hg2 & He2 & Hsc2 & Hlu2 & Ht2e2 & He2t2 & Hdom2
          & Hother2 & Hthis2); [tauto|].
    rewrite Heq2. f_equal. apply State_eq; try congruence.
    + rewrite Ht2e2, Ht2e. apply insert_insert_eq.
    + rewrite He2t2, Htools, He2t, insert_insert_eq. f_equal. set_solver.
    + apply map_eq. intros e'. destruct (decide (e' = e)) as [->|Hne].
      * rewrite Hthis2, Hthis, Htools.
        replace (tools_of (_endpoint_to_tools s) e ∪ {[t]} ∪ {[t]})
          with (tools_of (_endpoint_to_tools s) e ∪ {[t]}) by set_solver.
        destruct (_endpoint_stats s !! e); reflexivity.
      * apply Hother2. exact Hne.
Qed.

(** X7: [update_endpoint_schema] on a registered endpoint returns [True];
    the schema is then the cached one, the statistics record its version
    and an introspection time, and the counters of the endpoint are as
    before. *)
Theorem update_endpoint_schema_caches e info schema s :
  _lock s = false ->
  _endpoints s !! e = Some info ->
  exists s',
    update_endpoint_schema e schema s = Done true s' /\
    get_endpoint_schema e s' = Done (Some schema) s' /\
    get_endpoint e s' = Done (Some info) s' /\
    forall st, _endpoint_stats s !! e = Some st ->
      exists st', _endpoint_stats s' !! e = Some st' /\
        schema_version st' = version schema /\
        is_Some (last_introspection st') /\
        access_count st' = access_count st /\
        success_count st' = success_count st /\
        error_count st' = error_count st /\
        tool_count st' = tool_count st /\
        last_accessed st' = last_accessed st /\
        registered_at st' = registered_at st.
Proof.
  intros Hl He.
  destruct (sat_Done _ _ _ (update_endpoint_schema_spec e info schema s Hl He))
    as (b & s' & Heq & -> & Hl' & _ & He' & Hsc & _ & _ & _ & _ & _ & [now Hthis]); [tauto|].
  exists s'. split; [exact Heq|].
  rewrite get_endpoint_schema_eq, get_endpoint_eq by exact Hl'.
  rewrite Hsc, lookup_insert_eq, He', He. split_and!; try reflexivity.
  intros st Hst. rewrite Hst in Hthis. eexists. split; [exact Hthis|].
  simpl. split_and!; eauto.
Qed.

(** X8: the staleness sweep returns exactly when no endpoint is stale (its
    age in hours, a float, does not exceed [max_age_hours]), and then it
    returns 0 and has only read the clock; when some endpoint is stale it
    never returns.  It never removes an endpoint. *)
Theorem cleanup_returns_iff_nothing_stale h s :
  _lock s = false ->
  ((forall e st, _endpoint_stats s !! e = Some st -> is_stale (time_of s) h st = false) ->
     cleanup_stale_endpoints h s = Done 0 (tick s)) /\
  (forall e st, _endpoint_stats s !! e = Some st -> is_stale (time_of s) h st = true ->
     cleanup_stale_endpoints h s = Blocked) /\
  (forall n s', cleanup_stale_endpoints h s = Done n s' -> n = 0 /\ s' = tick s).
Proof.
  intros Hl. split_and!.
  - apply cleanup_nothing_stale, Hl.
  - intros e st. apply cleanup_blocks_when_stale, Hl.
  - intros n s' Hrun. destruct (cleanup_stale_endpoints_outcome h s Hl) as [Hc|Hc];
      rewrite Hc in Hrun; [|discriminate].
    injection Hrun as <- <-. auto.
Qed.

(** X1: in every reachable state the statistics and the update times are
    kept for exactly the registered endpoints, and a schema is cached only
    for a registered endpoint. *)
Theorem registry_domains_agree s e :
  reachable s ->
  (is_Some (_endpoint_stats s !! e) <-> is_Some (_endpoints s !! e)) /\
  (is_Some (_last_updated s !! e) <-> is_Some (_endpoints s !! e)) /\
  (is_Some (_endpoint_schemas s !! e) -> is_Some (_endpoints s !! e)).
Proof.
  intros Hs. destruct (reachable_domains_agree s Hs) as (Hst & Hlu & Hsc).
  rewrite <- !elem_of_dom, Hst, Hlu. split_and!; try reflexivity.
  intros Hin. apply Hsc, Hin.
Qed.

(** X2: in every reachable state, a tool that the reverse map sends to an
    endpoint is in the tool set of that endpoint, and that endpoint is
    registered (the converse direction is the one that can fail). *)
Theorem tool_map_is_backed s t e :
  reachable s ->
  _tool_to_endpoint s !! t = Some e ->
  t ∈ tools_of (_endpoint_to_tools s) e /\ is_Some (_endpoints s !! e) /\
  get_endpoint_for_tool t s = Done (Some e) s.
Proof.
  intros Hs Ht. destruct (reachable_tool_map_backed s Hs t e Ht) as [Hin Hreg].
  split; [exact Hin|]. split; [exact Hreg|].
  rewrite get_endpoint_for_tool_eq by (apply reachable_unlocked, Hs).
  rewrite Ht. reflexivity.
Qed.

(** X9: [record_endpoint_access] returns with the lock free and changes
    nothing but the statistics of the named endpoint: there it sets
    last_accessed to the time read and steps the counters; the endpoints,
    the schemas, the tool index and the other statistics stay as they
    were, and no gateway call is made. *)
Theorem record_endpoint_access_touches_one e ok s :
  _lock s = false ->
  exists s',
    record_endpoint_access e ok s = Done tt s' /\
    _lock s' = false /\ gateway_log s' = gateway_log s /\
    _endpoints s' = _endpoints s /\ _endpoint_schemas s' = _endpoint_schemas s /\
    _tool_to_endpoint s' = _tool_to_endpoint s /\
    _endpoint_to_tools s' = _endpoint_to_tools s /\
    (forall e', e' <> e -> _endpoint_stats s' !! e' = _endpoint_stats s !! e') /\
    (forall st, _endpoint_stats s !! e = Some st ->
       exists st', _endpoint_stats s' !! e = Some st' /\
         last_accessed st' = Some (time_of s) /\
         registered_at st' = registered_at st /\ tool_count st' = tool_count st /\
         schema_version st' = schema_version st) /\
    (_endpoint_stats s !! e = None -> s' = s).
Proof.
  intros Hl.
  destruct (sat_Done _ _ _ (record_endpoint_access_frame e ok s Hl))
    as ([] & s' & Heq & Hl' & Hg & He & Hsc & Hlu & Ht2e & He2t & Hdom & Hother & Hthis);
    [tauto|].
  exists s'. split; [exact Heq|]. split_and!; auto.
  - intros st Hst. rewrite Hst in Hthis. eexists. split; [exact Hthis|].
    simpl. auto.
  - intros Hnone. pose proof (record_endpoint_access_spec e ok s Hl) as Hsp.
    rewrite Hnone in Hsp. rewrite Hsp in Heq. injection Heq as <-. reflexivity.
Qed.

(** *** The registry summary *)

Lemma latest_list_None (l : list Z) :
  foldr (fun t acc => Some (match acc with Some u => Z.max t u | None => t end)) None l = None
  <-> l = [].
Proof. destruct l; simpl; split; intros Heq; congruence. Qed.

Lemma latest_list_upper (l : list Z) t :
  t ∈ l ->
  exists u,
    foldr (fun t acc => Some (match acc with Some u => Z.max t u | None => t end)) None l
      = Some u /\ t <= u.
Proof.
  induction l as [|x l IH]; intros Hin; [inversion Hin|].
  apply elem_of_cons in Hin. simpl.
  destruct (foldr _ None l) as [u|] eqn:Hf.
  - exists (Z.max x u). split; [reflexivity|].
    destruct Hin as [->|Hin]; [lia|].
    destruct (IH Hin) as (u' & [= <-] & Hle). lia.
  - exists x. split; [reflexivity|].
    destruct Hin as [->|Hin]; [lia|].
    destruct (IH Hin) as (u' & Hu' & _). discriminate.
Qed.

Lemma latest_list_member (l : list Z) u :
  foldr (fun t acc => Some (match acc with Some u => Z.max t u | None => t end)) None l
    = Some u ->
  u ∈ l.
Proof.
  revert u. induction l as [|x l IH]; intros u Hf; simpl in Hf; [discriminate|].
  destruct (foldr _ None l) as [v|] eqn:Hl.
  - injection Hf as <-. destruct (Z.max_spec x v) as [[_ ->]|[_ ->]].
    + right. apply IH. reflexivity.
    + left.
  - injection Hf as <-. left.
Qed.

(** X10: in every reachable state the summary counts no more endpoints
    with a schema than endpoints; last_registry_update is absent exactly
    when no endpoint is registered, and otherwise it is the update time of
    a registered endpoint and no update time is later. *)
Theorem registry_summary_consistent s :
  reachable s ->
  0 <= endpoints_with_schema (get_registry_summary s) <=
    total_endpoints (get_registry_summary s) /\
  (last_registry_update (get_registry_summary s) = None <->
   total_endpoints (get_registry_summary s) = 0) /\
  (forall e t, _last_updated s !! e = Some t ->
     exists u, last_registry_update (get_registry_summary s) = Some u /\ t <= u) /\
  (forall u, last_registry_update (get_registry_summary s) = Some u ->
     exists e, _last_updated s !! e = Some u /\ is_Some (_endpoints s !! e)).
Proof.
  intros Hs. destruct (reachable_domains_agree s Hs) as (Hst & Hlu & Hsc).
  unfold get_registry_summary, latest. simpl. split_and!.
  - lia.
  - apply inj_le. rewrite <- !size_dom. apply subseteq_size, Hsc.
  - rewrite latest_list_None.
    assert (Hempty : _last_updated s = ∅ <-> _endpoints s = ∅).
    { rewrite <- (dom_empty_iff_L (_last_updated s)), Hlu. apply dom_empty_iff_L. }
    split.
    + intros Hnil. apply fmap_nil_inv, map_to_list_empty_iff, Hempty in Hnil.
      rewrite Hnil, map_size_empty. reflexivity.
    + intros Hz. assert (Hsz : size (_endpoints s) = 0%nat) by lia.
      apply map_size_empty_iff, Hempty in Hsz. rewrite Hsz, map_to_list_empty. reflexivity.
  - intros e t Ht. apply latest_list_upper.
    apply list_elem_of_fmap. exists (e, t). split; [reflexivity|].
    apply elem_of_map_to_list, Ht.
  - intros u Hu. apply latest_list_member in Hu.
    apply list_elem_of_fmap in Hu. destruct Hu as ([e t] & -> & Hin).
    apply elem_of_map_to_list in Hin. exists e. split; [exact Hin|].
    apply elem_of_dom. rewrite <- Hlu. apply elem_of_dom. eauto.
Qed.

(** ** More of the batch engine *)

Lemma run_schedule_no_tasks t sched s : run_schedule t sched [] s = Done [] s.
Proof. induction sched as [|i sched IH]; simpl; [reflexivity|exact IH]. Qed.

(** X11: an empty batch, in any mode and with any flags, and whether or not
    the registry lock is free, returns no results, no errors and a summary
    with all counts zero; it reads the clock twice and does nothing
    else. *)
Theorem empty_batch sched mode coe t s :
  execute_batch_operations_async sched [] mode coe t s =
    Done {| results := [];
            summary := {| total_operations := 0;
                          successful_operations := 0;
                          failed_operations := 0;
                          total_execution_time := time_of (tick s) - time_of s;
                          execution_mode := resolve_mode mode;
                          started_at := time_of s;
                          completed_at := Some (time_of (tick s));
                          continue_on_error := coe |};
            errors := []; warnings := [] |}
         (tick (tick s)).
Proof.
  unfold execute_batch_operations_async, try_except, batch_body, bind.
  rewrite utcnow_eq. destruct (resolve_mode mode); simpl.
  - unfold ret. rewrite utcnow_eq. reflexivity.
  - unfold gather, bind. simpl. rewrite run_schedule_no_tasks. simpl.
    unfold ret. rewrite utcnow_eq. reflexivity.
Qed.

Lemma length_filter_success (rs : list BatchOperationResult) :
  (length (filter (fun r => success r = true) rs) +
   length (filter (fun r => success r <> true) rs) = length rs)%nat.
Proof.
  induction rs as [|r rs IH]; [reflexivity|].
  destruct (decide (success r = true)) as [Hs|Hs].
  - rewrite filter_cons_True, filter_cons_False by auto. simpl. lia.
  - rewrite filter_cons_False, filter_cons_True by auto. simpl. lia.
Qed.

(** X12: the counters of every summary add up: successful_operations
    counts the results with success, failed_operations the others, there
    are never more results than operations, and a batch that reports no
    batch-level error reports the number of its operations as
    total_operations. *)
Theorem summary_counts_add_up sched ops mode coe t s :
  _lock s = false ->
  exists resp s',
    execute_batch_operations_async sched ops mode coe t s = Done resp s' /\
    successful_operations (summary resp) =
      Z.of_nat (length (filter (fun r => success r = true) (results resp))) /\
    failed_operations (summary resp) =
      Z.of_nat (length (filter (fun r => success r <> true) (results resp))) /\
    successful_operations (summary resp) + failed_operations (summary resp) =
      Z.of_nat (length (results resp)) /\
    (length (results resp) <= length ops)%nat /\
    (errors resp = [] -> total_operations (summary resp) = Z.of_nat (length ops)).
Proof.
  intros Hl.
  destruct (sat_Done _ _ _ (execute_batch_spec sched ops mode coe t s Hl))
    as (resp & s' & Heq & _ & Hresp); [tauto|].
  exists resp, s'. split; [exact Heq|].
  pose proof (length_filter_success (results resp)) as Hsplit.
  destruct Hresp as [(Herr & Hrs & _ & _ & Htot & Hsucc & Hfail & _)
                    | [(Hnil & [e Herr] & Htot & Hsucc & Hfail & _) _]].
  - apply results_ok_length in Hrs. rewrite Hfail, Hsucc. split_and!; auto; lia.
  - rewrite Hnil in *. rewrite Hsucc, Hfail. simpl. split_and!; auto; try lia.
    intros Hnone. rewrite Herr in Hnone. discriminate.
Qed.

Lemma BatchOperationResult_new_ok name_ succ dat err et i ep qv vv n e q v s :
  as_str name_ = Some n -> as_str ep = Some e ->
  as_opt_str qv = Some q -> as_opt_dict vv = Some v ->
  BatchOperationResult_new name_ succ dat err et i ep qv vv s =
    Done {| res_name := n; success := succ; data := dat; error := err;
            execution_time := et; index := i; res_endpoint := e;
            res_query := q; res_variables := v; was_retried := false;
            retry_attempts := 0; status_code := None; res_headers := [] |} s.
Proof.
  intros Hn He Hq Hv. unfold BatchOperationResult_new.
  rewrite Hn, He, Hq, Hv. reflexivity.
Qed.

(** X13: a well-typed operation on a registered endpoint calls the gateway
    exactly once, with the URL and the headers of the endpoint, the query
    and the variables of the operation and the batch timeout.  When the
    gateway answers, the access is recorded for the endpoint with
    success = (no errors), and the result carries the data and the joined
    error messages; when the gateway call raises, nothing is recorded and
    the result is a failure with the message of the exception. *)
Theorem registered_operation_calls_gateway_once op i t e info s :
  _lock s = false ->
  well_typed op ->
  dict_get op "endpoint" (PyStr "") = PyStr e ->
  _endpoints s !! e = Some info ->
  exists r s',
    _execute_single_operation op i t s = Done r s' /\
    _lock s' = false /\ _endpoints s' = _endpoints s /\
    index r = i /\ res_endpoint r = e /\
    gateway_log s' =
      gateway_log s ++ [{| gw_url := url info;
                           gw_query := dict_get op "query" (PyStr "");
                           gw_variables := dict_get op "variables" (PyDict []);
                           gw_headers := headers info;
                           gw_timeout := t |}] /\
    match (gateway {| gw_url := url info;
                      gw_query := dict_get op "query" (PyStr "");
                      gw_variables := dict_get op "variables" (PyDict []);
                      gw_headers := headers info;
                      gw_timeout := t |} (world (tick s))).1 with
    | GwReturn d errs =>
        success r = no_errors errs /\ data r = d /\ error r = joined_messages errs /\
        exists now, _endpoint_stats s' !! e =
                      record_access now (no_errors errs) <$> _endpoint_stats s !! e
    | GwRaise msg =>
        success r = false /\ data r = None /\ error r = Some msg /\
        _endpoint_stats s' = _endpoint_stats s
    end.
Proof.
  intros Hl Hwt Hep He.
  destruct (well_typed_at op i Hwt) as ([n Hn] & [e0 He0] & [q Hq] & [v Hv]).
  unfold _execute_single_operation, bind, try_except. rewrite utcnow_eq. cbv zeta.
  rewrite Hep in *. simpl call_get_endpoint.
  rewrite get_endpoint_eq by exact Hl.
  change (_endpoints (tick s)) with (_endpoints s). rewrite He.
  unfold execute_query.
  destruct (gateway _ (world (tick s))) as [[d errs|msg] w]; simpl fst.
  - rewrite utcnow_eq. simpl call_record_endpoint_access.
    match goal with
    | |- context [record_endpoint_access e ?ok ?s2] =>
        destruct (sat_Done _ _ _ (record_endpoint_access_frame e ok s2 Hl))
          as ([] & s3 & Hrec & Hl3 & Hg3 & He3 & _ & _ & _ & _ & _ & _ & Hthis); [tauto|];
        rewrite Hrec
    end.
    erewrite BatchOperationResult_new_ok by eassumption.
    do 2 eexists. split; [reflexivity|]. simpl.
    injection He0 as <-. split_and!; auto. eexists. exact Hthis.
  - unfold operation_handler, bind. rewrite utcnow_eq. cbv zeta.
    rewrite Hep.
    erewrite BatchOperationResult_new_ok by eassumption.
    do 2 eexists. split; [reflexivity|]. simpl.
    injection He0 as <-. split_and!; auto.
Qed.

(** X14: in parallel mode the flag continue_on_error changes nothing but
    its echo in the summary: with the same interleaving the two runs end in
    the same state with the same results, the same errors and the same
    counters. *)
Theorem parallel_ignores_continue_on_error sched ops t s :
  _lock s = false ->
  exists r1 r2 s',
    execute_batch_operations_async sched ops "parallel" true t s = Done r1 s' /\
    execute_batch_operations_async sched ops "parallel" false t s = Done r2 s' /\
    results r1 = results r2 /\ errors r1 = errors r2 /\
    total_operations (summary r1) = total_operations (summary r2) /\
    successful_operations (summary r1) = successful_operations (summary r2) /\
    failed_operations (summary r1) = failed_operations (summary r2) /\
    execution_mode (summary r1) = execution_mode (summary r2) /\
    started_at (summary r1) = started_at (summary r2) /\
    completed_at (summary r1) = completed_at (summary r2) /\
    (length (results r1) = length ops \/ results r1 = []).
Proof.
  intros Hl.
  destruct (sat_Done _ _ _ (execute_batch_spec sched ops "parallel" true t s Hl))
    as (r1 & s1 & Heq1 & _ & Hresp); [tauto|].
  assert (Hlen : length (results r1) = length ops \/ results r1 = []).
  { destruct Hresp as [(_ & _ & Hlen & _) | [(Hnil & _) _]]; [left|right; exact Hnil].
    apply Hlen. right. reflexivity. }
  revert Heq1.
  unfold execute_batch_operations_async, try_except, batch_body, bind.
  rewrite utcnow_eq, resolve_mode_parallel.
  destruct (gather t sched ops (tick s)) as [outs s2|e s2|];
    [destruct (convert_exceptions 0 ops outs s2) as [rs s3|e s3|]| |].
  - rewrite utcnow_eq. unfold ret. intros [= <- <-].
    do 3 eexists. split; [reflexivity|]. split; [reflexivity|].
    simpl in *. split_and!; auto.
  - unfold BatchSummary_default, bind. rewrite utcnow_eq. unfold ret. intros [= <- <-].
    do 3 eexists. split; [reflexivity|]. split; [reflexivity|].
    simpl. split_and!; auto.
  - discriminate.
  - unfold BatchSummary_default, bind. rewrite utcnow_eq. unfold ret. intros [= <- <-].
    do 3 eexists. split; [reflexivity|]. split; [reflexivity|].
    simpl. split_and!; auto.
  - discriminate.
Qed.

(** *** What a batch leaves untouched *)

Lemma batch_frame_refl s : _lock s = false -> batch_frame 0 s s.
Proof.
  intros Hl. unfold batch_frame. split_and!; auto.
  exists []. rewrite app_nil_r. auto.
Qed.

Lemma batch_frame_tick s : _lock s = false -> batch_frame 0 s (tick s).
Proof.
  intros Hl. unfold batch_frame. simpl. split_and!; auto.
  exists []. rewrite app_nil_r. auto.
Qed.

Lemma batch_frame_trans n m s s1 s2 :
  batch_frame n s s1 -> batch_frame m s1 s2 -> batch_frame (n + m) s s2.
Proof.
  intros (Hl1 & He1 & Hsc1 & Ht1 & Hs1 & Hu1 & Hd1 & c1 & Hg1 & Hn1)
         (Hl2 & He2 & Hsc2 & Ht2 & Hs2 & Hu2 & Hd2 & c2 & Hg2 & Hn2).
  unfold batch_frame. split_and!; try congruence.
  exists (c1 ++ c2). rewrite Hg2, Hg1, app_assoc, length_app. split; [reflexivity|lia].
Qed.

Lemma batch_frame_weaken n m s s' : (n <= m)%nat -> batch_frame n s s' -> batch_frame m s s'.
Proof.
  intros Hle (Hl1 & He1 & Hsc1 & Ht1 & Hs1 & Hu1 & Hd1 & c1 & Hg1 & Hn1).
  unfold batch_frame. split_and!; auto. exists c1. split; [exact Hg1|lia].
Qed.

Lemma batch_frame_unlocked n s s' : batch_frame n s s' -> _lock s' = false.
Proof. intros [Hl _]. exact Hl. Qed.

Lemma call_record_endpoint_access_frame v ok s :
  _lock s = false ->
  sat (call_record_endpoint_access v ok s)
    (fun _ s' => batch_frame 0 s s') (fun _ s' => batch_frame 0 s s').
Proof.
  intros Hl. unfold call_record_endpoint_access.
  destruct v;
    try (unfold with_lock; rewrite Hl; simpl; rewrite unlock_relock by exact Hl;
         apply batch_frame_refl, Hl).
  sat_use (record_endpoint_access_frame s0 ok s Hl); [|intros _ s' []].
  intros _ s' (Hl' & Hg & He & Hsc & Hlu & Ht2e & He2t & Hdom & _).
  unfold batch_frame. split_and!; auto.
  exists []. rewrite app_nil_r. auto.
Qed.

Lemma operation_handler_frame op i start e s :
  _lock s = false ->
  sat (operation_handler op i start e s)
    (fun _ s' => batch_frame 0 s s') (fun _ s' => batch_frame 0 s s').
Proof.
  intros Hl. unfold operation_handler. sat_step. sat_step. cbv zeta.
  sat_use BatchOperationResult_new_spec.
  - intros r s' (-> & _). apply batch_frame_tick, Hl.
  - intros e' s' (-> & _). apply batch_frame_tick, Hl.
Qed.

Lemma _execute_single_operation_frame op i t s :
  _lock s = false ->
  sat (_execute_single_operation op i t s)
    (fun _ s' => batch_frame 1 s s') (fun _ s' => batch_frame 1 s s').
Proof.
  intros Hl. unfold _execute_single_operation. sat_step. sat_step.
  pose proof (batch_frame_tick s Hl) as Hf0.
  assert (Hl1 : _lock (tick s) = false) by exact Hl.
  generalize dependent (tick s). intros s1 Hf0 Hl1.
  sat_step.
  eapply sat_or_mono with
    (Q := fun _ s' => batch_frame 1 s s') (E := fun _ s' => batch_frame 1 s s');
    cbv beta; cbv zeta; [|auto|].
  - sat_step. sat_use call_get_endpoint_spec; [exact Hl1| |].
    + intros o s' [-> _]. destruct o as [info|].
      * sat_step. apply sat_or_execute_query.
        -- intros d errs w. sat_step. sat_step. sat_step.
           match goal with
           | |- sat_or _ (call_record_endpoint_access _ _ ?s2) _ _ =>
               assert (Hf2 : batch_frame 1 s s2)
           end.
           { destruct Hf0 as (_ & He & Hsc & Ht & Hs & Hu & Hd & c & Hg & Hn).
             unfold batch_frame. simpl. split_and!; auto.
             eexists (c ++ [_]). rewrite Hg, app_assoc, length_app. split; [reflexivity|].
             simpl. lia. }
           sat_use call_record_endpoint_access_frame; [exact Hl1| |].
           ++ intros _ s3 Hf3.
              pose proof (batch_frame_trans _ _ _ _ _ Hf2 Hf3) as Hf.
              sat_use BatchOperationResult_new_spec.
              ** intros r s' (-> & _). exact Hf.
              ** intros e' s' (-> & _). exact Hf.
           ++ intros e' s3 Hf3. exact (batch_frame_trans _ _ _ _ _ Hf2 Hf3).
        -- intros msg w.
           destruct Hf0 as (_ & He & Hsc & Ht & Hs & Hu & Hd & c & Hg & Hn).
           unfold batch_frame. simpl. split_and!; auto.
           eexists (c ++ [_]). rewrite Hg, app_assoc, length_app. split; [reflexivity|].
           simpl. lia.
      * sat_use BatchOperationResult_new_spec.
        -- intros r s' (-> & _). eapply batch_frame_weaken; [|exact Hf0]. lia.
        -- intros e' s' (-> & _). eapply batch_frame_weaken; [|exact Hf0]. lia.
    + intros e' s' [-> _]. eapply batch_frame_weaken; [|exact Hf0]. lia.
  - intros e s2 Hf2.
    sat_use operation_handler_frame; [exact (batch_frame_unlocked _ _ _ Hf2)| |].
    + intros _ s3 Hf3. exact (batch_frame_trans _ _ _ _ _ Hf2 Hf3).
    + intros _ s3 Hf3. exact (batch_frame_trans _ _ _ _ _ Hf2 Hf3).
Qed.

Lemma attempt_operation_frame op i t s :
  _lock s = false ->
  sat (attempt_operation op i t s)
    (fun _ s' => batch_frame 1 s s') (fun _ s' => batch_frame 1 s s').
Proof.
  intros Hl. unfold attempt_operation. sat_step.
  sat_use _execute_single_operation_frame; [exact Hl|auto|].
  intros e s' Hf. sat_use exception_result_spec.
  - intros r s2 (-> & _). exact Hf.
  - intros e' s2 (-> & _). exact Hf.
Qed.

Lemma sequential_loop_frame coe t ops : forall i rs s,
  _lock s = false ->
  sat (sequential_loop coe t i ops rs s)
    (fun _ s' => batch_frame (length ops) s s')
    (fun _ s' => batch_frame (length ops) s s').
Proof.
  induction ops as [|op ops IH]; intros i rs s Hl.
  - simpl. apply batch_frame_refl, Hl.
  - rewrite sequential_loop_cons.
    pose proof (attempt_operation_frame op i t s Hl) as Ha.
    destruct (attempt_operation op i t s) as [r s1|e s1|]; simpl in Ha |- *.
    + destruct (negb (success r) && negb coe).
      * simpl. eapply batch_frame_weaken; [|exact Ha]. lia.
      * sat_use (IH (S i) (rs ++ [r]) s1); [exact (batch_frame_unlocked _ _ _ Ha)| |].
        -- intros ? s2 Hf. exact (batch_frame_trans _ _ _ _ _ Ha Hf).
        -- intros ? s2 Hf. exact (batch_frame_trans _ _ _ _ _ Ha Hf).
    + eapply batch_frame_weaken; [|exact Ha]. lia.
    + exact Ha.
Qed.

Lemma task_start_frame op i s :
  _lock s = false ->
  sat (task_start op i s)
    (fun _ s' => batch_frame 0 s s') (fun _ _ => False).
Proof.
  intros Hl. unfold task_start. sat_step. sat_step.
  pose proof (batch_frame_tick s Hl) as Hf0.
  assert (Hl1 : _lock (tick s) = false) by exact Hl.
  generalize (time_of s). generalize dependent (tick s). intros s1 Hf0 Hl1 start.
  sat_step. unfold catch. sat_step. sat_step.
  eapply sat_or_mono with
    (Q := fun _ s' => batch_frame 0 s s') (E := fun _ s' => batch_frame 0 s s'); cbv beta.
  - sat_step. cbv zeta.
    eapply sat_or_mono with
      (Q := fun _ s' => batch_frame 0 s s') (E := fun _ s' => batch_frame 0 s s');
      cbv beta; [|auto|].
    + sat_step. sat_use call_get_endpoint_spec; [exact Hl1| |].
      * intros o s' [-> _]. destruct o as [info|].
        -- sat_step. exact Hf0.
        -- sat_step. sat_use BatchOperationResult_new_spec.
           ++ intros r s' (-> & _). sat_step. exact Hf0.
           ++ intros e' s' (-> & _). exact Hf0.
      * intros e' s' [-> _]. exact Hf0.
    + intros e s2 Hf2. sat_step.
      sat_use operation_handler_frame; [exact (batch_frame_unlocked _ _ _ Hf2)| |].
      * intros ? s3 Hf3. sat_step. exact (batch_frame_trans _ _ _ _ _ Hf2 Hf3).
      * intros ? s3 Hf3. exact (batch_frame_trans _ _ _ _ _ Hf2 Hf3).
  - intros r s' Hf. sat_step. sat_step. exact Hf.
  - intros e s' Hf. sat_step. sat_step. exact Hf.
Qed.

Lemma task_resume_frame t sp s :
  _lock s = false ->
  sat (task_resume t sp s)
    (fun _ s' => batch_frame 1 s s') (fun _ _ => False).
Proof.
  intros Hl. unfold task_resume. cbv zeta. unfold catch. sat_step. sat_step.
  eapply sat_or_mono with
    (Q := fun _ s' => batch_frame 1 s s') (E := fun _ s' => batch_frame 1 s s'); cbv beta.
  - sat_step. cbv zeta.
    eapply sat_or_mono with
      (Q := fun _ s' => batch_frame 1 s s') (E := fun _ s' => batch_frame 1 s s');
      cbv beta; [|auto|].
    + sat_step. apply sat_or_execute_query.
      * intros d errs w. sat_step. sat_step. sat_step.
        match goal with
        | |- sat_or _ (call_record_endpoint_access _ _ ?s2) _ _ =>
            assert (Hf2 : batch_frame 1 s s2)
        end.
        { unfold batch_frame. simpl. split_and!; auto.
          eexists [_]. split; [reflexivity|]. simpl. lia. }
        sat_use call_record_endpoint_access_frame; [exact Hl| |].
        -- intros ? s3 Hf3.
           pose proof (batch_frame_trans _ _ _ _ _ Hf2 Hf3) as Hf.
           sat_use BatchOperationResult_new_spec.
           ++ intros r s' (-> & _). exact Hf.
           ++ intros e' s' (-> & _). exact Hf.
        -- intros e' s3 Hf3. exact (batch_frame_trans _ _ _ _ _ Hf2 Hf3).
      * intros msg w. unfold batch_frame. simpl. split_and!; auto.
        eexists [_]. split; [reflexivity|]. simpl. lia.
    + intros e s2 Hf2.
      sat_use operation_handler_frame; [exact (batch_frame_unlocked _ _ _ Hf2)| |].
      * intros ? s3 Hf3. exact (batch_frame_trans _ _ _ _ _ Hf2 Hf3).
      * intros ? s3 Hf3. exact (batch_frame_trans _ _ _ _ _ Hf2 Hf3).
  - intros r s' Hf. sat_step. exact Hf.
  - intros e s' Hf. sat_step. exact Hf.
Qed.

Lemma task_step_frame t tk s :
  _lock s = false ->
  sat (task_step t tk s)
    (fun tk' s' => exists n, batch_frame n s s' /\ (n + calls_left tk' <= calls_left tk)%nat)
    (fun _ _ => False).
Proof.
  intros Hl. destruct tk as [op i|sp|o]; simpl.
  - sat_step. sat_use task_start_frame; [exact Hl| |auto].
    intros r s' Hf. sat_step. exists 0%nat. split; [exact Hf|]. destruct r; simpl; lia.
  - sat_step. sat_use task_resume_frame; [exact Hl| |auto].
    intros r s' Hf. sat_step. exists 1%nat. split; [exact Hf|]. simpl. lia.
  - exists 0%nat. split; [apply batch_frame_refl, Hl|lia].
Qed.

Lemma task_await_frame t tk s :
  _lock s = false ->
  sat (task_await t tk s)
    (fun _ s' => batch_frame (calls_left tk) s s')
    (fun _ _ => False).
Proof.
  intros Hl. destruct tk as [op i|sp|o]; simpl.
  - sat_step. sat_use task_start_frame; [exact Hl| |auto].
    intros r s' Hf. destruct r as [o|sp].
    + sat_step. eapply batch_frame_weaken; [|exact Hf]. lia.
    + sat_use task_resume_frame; [exact (batch_frame_unlocked _ _ _ Hf)| |auto].
      intros ? s2 Hf2. exact (batch_frame_trans _ _ _ _ _ Hf Hf2).
  - apply task_resume_frame, Hl.
  - apply batch_frame_refl, Hl.
Qed.

Lemma sum_list_insert {A} (f : A -> nat) (l : list A) i x y :
  l !! i = Some x ->
  (sum_list (f <$> <[i := y]> l) + f x = sum_list (f <$> l) + f y)%nat.
Proof.
  revert i. induction l as [|a l IH]; intros [|i] Hi; simpl in *; try discriminate.
  - injection Hi as ->.
    generalize (sum_list (list_fmap A nat f l)) (f x) (f y). intros; lia.
  - specialize (IH i Hi). unfold fmap in IH. revert IH.
    generalize (sum_list (list_fmap A nat f (<[i:=y]> l)))
               (sum_list (list_fmap A nat f l)) (f a) (f x) (f y).
    intros; lia.
Qed.

Lemma run_schedule_frame t sched : forall tasks s,
  _lock s = false ->
  sat (run_schedule t sched tasks s)
    (fun tasks' s' =>
       exists n, batch_frame n s s' /\
         (n + sum_list (calls_left <$> tasks') <= sum_list (calls_left <$> tasks))%nat)
    (fun _ _ => False).
Proof.
  induction sched as [|i sched IH]; intros tasks s Hl; simpl.
  - exists 0%nat. split; [apply batch_frame_refl, Hl|lia].
  - destruct (tasks !! i) as [tk|] eqn:Htk; [|apply IH, Hl].
    sat_step. sat_use task_step_frame; [exact Hl| |auto].
    intros tk' s1 (n1 & Hf1 & Hn1).
    sat_use (IH (<[i := tk']> tasks) s1); [exact (batch_frame_unlocked _ _ _ Hf1)| |auto].
    intros tasks' s2 (n2 & Hf2 & Hn2).
    exists (n1 + n2)%nat. split; [exact (batch_frame_trans _ _ _ _ _ Hf1 Hf2)|].
    pose proof (sum_list_insert calls_left tasks i tk tk' Htk). lia.
Qed.

Lemma await_all_frame t : forall tasks s,
  _lock s = false ->
  sat (await_all t tasks s)
    (fun _ s' => batch_frame (sum_list (calls_left <$> tasks)) s s')
    (fun _ _ => False).
Proof.
  induction tasks as [|tk tasks IH]; intros s Hl; simpl.
  - apply batch_frame_refl, Hl.
  - sat_step. sat_use task_await_frame; [exact Hl| |auto].
    intros o s1 Hf1. sat_step.
    sat_use (IH s1); [exact (batch_frame_unlocked _ _ _ Hf1)| |auto].
    intros outs s2 Hf2. sat_step. exact (batch_frame_trans _ _ _ _ _ Hf1 Hf2).
Qed.

Lemma sum_calls_created (ops : list (list (string * pyval))) :
  forall k, sum_list (calls_left <$> imap (fun i op => Created op (k + i)) ops) = length ops.
Proof.
  induction ops as [|op ops IH]; intros k; [reflexivity|].
  simpl. f_equal. rewrite <- (IH (S k)). f_equal. f_equal.
  apply imap_ext. intros i x _. simpl. f_equal. lia.
Qed.

Lemma gather_frame t sched ops s :
  _lock s = false ->
  sat (gather t sched ops s)
    (fun _ s' => batch_frame (length ops) s s')
    (fun _ _ => False).
Proof.
  intros Hl. unfold gather. sat_step.
  sat_use run_schedule_frame; [exact Hl| |auto].
  intros tasks s1 (n & Hf1 & Hn).
  sat_use await_all_frame; [exact (batch_frame_unlocked _ _ _ Hf1)| |auto].
  intros outs s2 Hf2.
  eapply batch_frame_weaken; [|exact (batch_frame_trans _ _ _ _ _ Hf1 Hf2)].
  pose proof (sum_calls_created ops 0) as Hc. simpl in Hc. rewrite Hc in Hn. lia.
Qed.

Lemma convert_exceptions_same_state : forall outs i ops s,
  sat (convert_exceptions i ops outs s) (fun _ s' => s' = s) (fun _ s' => s' = s).
Proof.
  induction outs as [|o outs IH]; intros i ops s.
  - destruct ops; reflexivity.
  - destruct o as [e|r], ops as [|op ops]; simpl; try reflexivity.
    + sat_step. sat_use exception_result_spec.
      * intros r s1 (-> & _). sat_step. sat_use (IH (S i) ops s); [|auto].
        intros rs s2 ->. sat_step. reflexivity.
      * intros e' s1 (-> & _). reflexivity.
    + sat_step. sat_use (IH (S i) ops s); [|auto].
      intros rs s2 ->. sat_step. reflexivity.
Qed.

(** X15: a batch, in any mode and with any interleaving, returns with the
    lock free and leaves the endpoints, the cached schemas, the tool index
    and the update times of the registry as they were; it keeps statistics
    for the same endpoints, and it makes at most one gateway call per
    operation of the input. *)
Theorem batch_touches_only_statistics sched ops mode coe t s :
  _lock s = false ->
  exists resp s' calls,
    execute_batch_operations_async sched ops mode coe t s = Done resp s' /\
    _lock s' = false /\
    _endpoints s' = _endpoints s /\
    _endpoint_schemas s' = _endpoint_schemas s /\
    _tool_to_endpoint s' = _tool_to_endpoint s /\
    _endpoint_to_tools s' = _endpoint_to_tools s /\
    _last_updated s' = _last_updated s /\
    dom (_endpoint_stats s') = dom (_endpoint_stats s) /\
    gateway_log s' = gateway_log s ++ calls /\
    (length calls <= length ops)%nat.
Proof.
  intros Hl.
  assert (Hbody : sat (batch_body sched ops mode coe t s)
            (fun _ s' => batch_frame (length ops) s s')
            (fun _ s' => batch_frame (length ops) s s')).
  { unfold batch_body. sat_step. sat_step. cbv zeta.
    pose proof (batch_frame_tick s Hl) as Hf0.
    assert (Hl1 : _lock (tick s) = false) by exact Hl.
    generalize (time_of s). generalize dependent (tick s). intros s1 Hf0 Hl1 start.
    sat_step.
    eapply sat_or_mono with
      (Q := fun _ s' => batch_frame (length ops) s s')
      (E := fun _ s' => batch_frame (length ops) s s'); cbv beta; [| |auto].
    - destruct (resolve_mode mode).
      + sat_use (sequential_loop_frame coe t ops); [exact Hl1| |].
        * intros ? s2 Hf. exact (batch_frame_trans _ _ _ _ _ Hf0 Hf).
        * intros ? s2 Hf. exact (batch_frame_trans _ _ _ _ _ Hf0 Hf).
      + sat_step. sat_use gather_frame; [exact Hl1| |intros ? s2 []].
        intros outs s2 Hf.
        pose proof (batch_frame_trans _ _ _ _ _ Hf0 Hf) as Hf2.
        sat_use convert_exceptions_same_state.
        * intros ? s3 ->. exact Hf2.
        * intros ? s3 ->. exact Hf2.
    - intros rs s2 Hf. sat_step. sat_step. sat_step.
      replace (length ops) with (length ops + 0)%nat by lia.
      eapply batch_frame_trans; [exact Hf|].
      apply batch_frame_tick. exact (batch_frame_unlocked _ _ _ Hf). }
  assert (Hall : sat (execute_batch_operations_async sched ops mode coe t s)
            (fun _ s' => batch_frame (length ops) s s') (fun _ _ => False)).
  { unfold execute_batch_operations_async. sat_step.
    eapply sat_or_mono; [exact Hbody|auto|]. cbv beta.
    intros e s1 Hf. unfold BatchSummary_default. repeat sat_step.
    replace (length ops) with (length ops + 0)%nat by lia.
    eapply batch_frame_trans; [exact Hf|].
    apply batch_frame_tick. exact (batch_frame_unlocked _ _ _ Hf). }
  destruct (sat_Done _ _ _ Hall)
    as (resp & s' & Heq & Hl' & He & Hsc & Ht2e & He2t & Hlu & Hdom & calls & Hg & Hn);
    [tauto|].
  exists resp, s', calls. split_and!; auto.
Qed.

(** ** Schema complexity *)

Lemma total_fields_nonneg types : 0 <= total_fields types.
Proof. induction types as [|t types IH]; simpl; lia. Qed.

Lemma root_operations_nonneg types root : 0 <= root_operations types root.
Proof.
  unfold root_operations. destruct root as [ref|]; [|lia].
  destruct (find_type types ref); lia.
Qed.

Lemma total_fields_app types t :
  total_fields (types ++ [t]) = total_fields types + Z.of_nat (length (ti_fields t)).
Proof. induction types as [|x types IH]; simpl; lia. Qed.

Lemma find_app_first {A} (f : A -> bool) (l l' : list A) :
  List.find f (l ++ l') =
  match List.find f l with Some x => Some x | None => List.find f l' end.
Proof.
  induction l as [|a l IH]; simpl; [reflexivity|].
  destruct (f a); [reflexivity|exact IH].
Qed.

Lemma root_operations_app types t root :
  root_operations types root <= root_operations (types ++ [t]) root.
Proof.
  unfold root_operations. destruct root as [ref|]; [|lia].
  unfold find_type. rewrite find_app_first.
  destruct (List.find _ types) as [x|]; [lia|].
  destruct (List.find _ [t]); lia.
Qed.

(** X16: the complexity score of a schema lies between 0 and 100; a schema
    without types scores 0 and is rated "Simple"; a schema with 40 types
    or more is rated "Very Complex" whatever its fields. *)
Theorem complexity_score_bounds types q m :
  0 <= complexity_score types q m <= 100 /\
  (types = [] -> complexity_score types q m = 0 /\
                 _get_complexity_rating (complexity_score types q m) = "Simple"%string) /\
  ((40 <= length types)%nat ->
     _get_complexity_rating (complexity_score types q m) = "Very Complex"%string).
Proof.
  pose proof (total_fields_nonneg types) as Hf.
  pose proof (root_operations_nonneg types q) as Hq.
  pose proof (root_operations_nonneg types m) as Hm.
  assert (Hdiv : 0 <= total_fields types / 10) by (apply Z.div_pos; lia).
  unfold complexity_score, schema_operations, total_types. split_and!.
  - lia.
  - lia.
  - intros ->.
    assert (Hq0 : root_operations [] q = 0) by (destruct q; reflexivity).
    assert (Hm0 : root_operations [] m = 0) by (destruct m; reflexivity).
    rewrite Hq0, Hm0. split; reflexivity.
  - intros Hlen. unfold _get_complexity_rating.
    assert (Hs : 80 <= Z.min 100 (Z.of_nat (length types) * 2 + total_fields types / 10 +
                   (root_operations types q + root_operations types m) * 3)) by lia.
    rewrite !(proj2 (Z.ltb_ge _ _)) by lia. reflexivity.
Qed.

(** X17: the rating follows the score: "Simple" below 20, "Moderate" from
    20 to 49, "Complex" from 50 to 79, "Very Complex" from 80 on; and a
    type descriptor appended to a schema never lowers the score. *)
Theorem complexity_rating_thresholds score types t q m :
  (_get_complexity_rating score = "Simple"%string <-> score < 20) /\
  (_get_complexity_rating score = "Moderate"%string <-> 20 <= score < 50) /\
  (_get_complexity_rating score = "Complex"%string <-> 50 <= score < 80) /\
  (_get_complexity_rating score = "Very Complex"%string <-> 80 <= score) /\
  complexity_score types q m <= complexity_score (types ++ [t]) q m.
Proof.
  split_and!.
  - unfold _get_complexity_rating.
    destruct (Z.ltb_spec score 20); [split; [lia|reflexivity]|].
    destruct (Z.ltb_spec score 50); [split; [discriminate|lia]|].
    destruct (Z.ltb_spec score 80); split; (discriminate || lia).
  - unfold _get_complexity_rating.
    destruct (Z.ltb_spec score 20); [split; [discriminate|lia]|].
    destruct (Z.ltb_spec score 50); [split; [lia|reflexivity]|].
    destruct (Z.ltb_spec score 80); split; (discriminate || lia).
  - unfold _get_complexity_rating.
    destruct (Z.ltb_spec score 20); [split; [discriminate|lia]|].
    destruct (Z.ltb_spec score 50); [split; [discriminate|lia]|].
    destruct (Z.ltb_spec score 80); split; (discriminate || lia || reflexivity).
  - unfold _get_complexity_rating.
    destruct (Z.ltb_spec score 20); [split; [discriminate|lia]|].
    destruct (Z.ltb_spec score 50); [split; [discriminate|lia]|].
    destruct (Z.ltb_spec score 80); split; (discriminate || lia || reflexivity).
  - unfold complexity_score, schema_operations, total_types.
    pose proof (root_operations_app types t q) as Hq.
    pose proof (root_operations_app types t m) as Hm.
    rewrite total_fields_app, length_app. simpl.
    assert (Hdiv : total_fields types / 10 <=
                   (total_fields types + Z.of_nat (length (ti_fields t))) / 10)
      by (apply Z.div_le_mono; lia).
    lia.
Qed.

(** ** Schema retrieval through the cache *)

Lemma helper_get_schema_eq info d s :
  helper_get_schema info d s =
    Done (introspect info d (world s)).1 (set_world (introspect info d (world s)).2 s).
Proof. unfold helper_get_schema. destruct (introspect info d (world s)); reflexivity. Qed.

(** X18: with the cache in use, a cached schema is returned as it is:
    the endpoint is not introspected and nothing changes, whether or not
    the endpoint is (still) registered. *)
Theorem get_schema_async_cache_hit e d cached s :
  _lock s = false ->
  _endpoint_schemas s !! e = Some cached ->
  get_schema_async e d true s = Done (Some cached) s.
Proof.
  intros Hl Hc. unfold get_schema_async, try_except, bind.
  rewrite get_endpoint_schema_eq by exact Hl. rewrite Hc. reflexivity.
Qed.

(** X19: for a name that is not registered (and, when the cache is in use,
    has no cached schema) the answer is [None]; nothing is introspected and
    nothing changes. *)
Theorem get_schema_async_unknown_endpoint e d use_cache s :
  _lock s = false ->
  _endpoints s !! e = None ->
  (use_cache = true -> _endpoint_schemas s !! e = None) ->
  get_schema_async e d use_cache s = Done None s.
Proof.
  intros Hl He Hc. unfold get_schema_async, try_except, bind.
  destruct use_cache.
  - rewrite get_endpoint_schema_eq by exact Hl. rewrite (Hc eq_refl).
    rewrite get_endpoint_eq by exact Hl. rewrite He. reflexivity.
  - unfold ret at 1. rewrite get_endpoint_eq by exact Hl. rewrite He. reflexivity.
Qed.

(** X20: for a registered endpoint without a cached schema, the schema
    that the introspection yields is returned and, with the cache in use,
    stored: the next call returns it from the cache without introspecting
    again.  Without the cache the registry is left as it was. *)
Theorem get_schema_async_fetches_and_caches e d d' info si s :
  _lock s = false ->
  _endpoints s !! e = Some info ->
  _endpoint_schemas s !! e = None ->
  (introspect info d (world s)).1 = Some si ->
  (exists s1,
     get_schema_async e d true s = Done (Some si) s1 /\
     _lock s1 = false /\
     _endpoint_schemas s1 = <[e := si]> (_endpoint_schemas s) /\
     _endpoints s1 = _endpoints s /\
     get_schema_async e d' true s1 = Done (Some si) s1) /\
  (exists s2,
     get_schema_async e d false s = Done (Some si) s2 /\
     s2 = set_world (introspect info d (world s)).2 s).
Proof.
  intros Hl He Hc Hi. split.
  - set (s0 := set_world (introspect info d (world s)).2 s).
    assert (Hl0 : _lock s0 = false) by exact Hl.
    assert (He0 : _endpoints s0 !! e = Some info) by exact He.
    destruct (sat_Done _ _ _ (update_endpoint_schema_spec e info si s0 Hl0 He0))
      as (b & s1 & Hupd & -> & Hl1 & _ & He1 & Hsc1 & _); [tauto|].
    exists s1.
    assert (Hrun : get_schema_async e d true s = Done (Some si) s1).
    { unfold get_schema_async, try_except, bind.
      rewrite get_endpoint_schema_eq by exact Hl. rewrite Hc.
      rewrite get_endpoint_eq by exact Hl. rewrite He.
      rewrite helper_get_schema_eq, Hi. fold s0. rewrite Hupd. reflexivity. }
    split_and!; auto.
    unfold get_schema_async, try_except, bind.
    rewrite get_endpoint_schema_eq by exact Hl1.
    rewrite Hsc1, lookup_insert_eq. reflexivity.
  - eexists. split; [|reflexivity].
    unfold get_schema_async, try_except, bind. unfold ret at 1.
    rewrite get_endpoint_eq by exact Hl. rewrite He.
    rewrite helper_get_schema_eq, Hi. reflexivity.
Qed.

Lemma get_schema_async_spec e d use_cache s :
  _lock s = false ->
  sat (get_schema_async e d use_cache s)
    (fun r s' => _lock s' = false /\ _endpoints s' = _endpoints s /\
                 (r = None -> _endpoint_schemas s' = _endpoint_schemas s))
    (fun _ _ => False).
Proof.
  intros Hl.
  unfold get_schema_async. sat_step.
  eapply sat_or_mono with
    (Q := fun r s' => _lock s' = false /\ _endpoints s' = _endpoints s /\
                      (r = None -> _endpoint_schemas s' = _endpoint_schemas s))
    (E := fun _ _ => False); cbv beta; [|auto|intros ? ? []].
  sat_step.
  eapply sat_or_mono with
    (Q := fun c s' => s' = s) (E := fun _ _ => False); cbv beta; [| |auto].
  { destruct use_cache; [|reflexivity].
    rewrite get_endpoint_schema_eq by exact Hl. reflexivity. }
  intros c s' ->. destruct c as [c|]; [sat_step; split_and!; auto; discriminate|].
  sat_step. rewrite get_endpoint_eq by exact Hl. cbn [sat_or].
  destruct (_endpoints s !! e) as [info|] eqn:He; [|sat_step; auto].
  sat_step. rewrite helper_get_schema_eq. cbn [sat_or].
  set (s0 := set_world (introspect info d (world s)).2 s).
  assert (Hl0 : _lock s0 = false) by exact Hl.
  assert (He0 : _endpoints s0 !! e = Some info) by exact He.
  destruct (introspect info d (world s)).1 as [si|].
  - destruct use_cache.
    + sat_step. sat_step.
      sat_use (update_endpoint_schema_spec e info si s0 Hl0 He0); [|auto].
      intros b s1 (_ & Hl1 & _ & He1 & _). sat_step. sat_step.
      split_and!; auto; discriminate.
    + sat_step. sat_step. sat_step. split_and!; auto; discriminate.
  - sat_step. sat_step. sat_step. auto.
Qed.

(** X21: [get_schema_async] always returns (with the lock free again): it
    raises nothing, and when the introspection yields no schema it returns
    [None] and stores nothing. *)
Theorem get_schema_async_returns e d use_cache s :
  _lock s = false ->
  exists r s',
    get_schema_async e d use_cache s = Done r s' /\
    _lock s' = false /\
    _endpoints s' = _endpoints s /\
    (r = None -> _endpoint_schemas s' = _endpoint_schemas s).
Proof.
  intros Hl.
  destruct (sat_Done _ _ _ (get_schema_async_spec e d use_cache s Hl))
    as (r & s' & Heq & Hrest); [tauto|].
  exists r, s'. split; [exact Heq|exact Hrest].
Qed.

(** ** The alias generator *)

Lemma lower_not_upper c : is_upper (lower c) = false.
Proof. destruct c as [[] [] [] [] [] [] [] []]; reflexivity. Qed.

Lemma lower_id c : is_upper c = false -> lower c = c.
Proof. unfold lower. intros ->. reflexivity. Qed.

Lemma underscore_not_upper : is_upper "_"%char = false.
Proof. reflexivity. Qed.

Lemma alias_from_no_upper n : forall i, no_upper (alias_from i n) = true.
Proof.
  induction n as [|c n IH]; intros i; simpl; [reflexivity|].
  destruct (is_upper c && (0 <? i)%nat); simpl;
    rewrite ?underscore_not_upper, lower_not_upper, IH; reflexivity.
Qed.

Lemma alias_from_fixed n : forall i, no_upper n = true -> alias_from i n = n.
Proof.
  induction n as [|c n IH]; intros i Hn; simpl in *; [reflexivity|].
  apply andb_true_iff in Hn. destruct Hn as [Hc Hn].
  apply negb_true_iff in Hc. rewrite Hc. simpl.
  rewrite (lower_id c Hc), (IH (S i) Hn). reflexivity.
Qed.

Lemma alias_from_length n : forall i,
  (String.length n <= String.length (alias_from i n) <= 2 * String.length n)%nat.
Proof.
  induction n as [|c n IH]; intros i; simpl; [lia|].
  specialize (IH (S i)). destruct (is_upper c && (0 <? i)%nat); simpl; lia.
Qed.

(** X22: the alias of an ASCII field name has no upper-case letter and is
    at most twice as long as the name; a name without upper-case letters
    (every field of the models is one) is its own alias, so that generating
    the alias twice is the same as generating it once; and an upper-case
    first letter is lowered without an underscore. *)
Theorem alias_generator_snake_case n :
  ascii_name n = true ->
  no_upper (alias_generator n) = true /\
  (no_upper n = true -> alias_generator n = n) /\
  alias_generator (alias_generator n) = alias_generator n /\
  (String.length n <= String.length (alias_generator n) <= 2 * String.length n)%nat /\
  (forall c rest, n = String c rest ->
     exists rest', alias_generator n = String (lower c) rest').
Proof.
  intros _. unfold alias_generator. split_and!.
  - apply alias_from_no_upper.
  - apply alias_from_fixed.
  - apply alias_from_fixed, alias_from_no_upper.
  - apply alias_from_length.
  - apply alias_from_length.
  - intros c rest ->. simpl. rewrite andb_false_r. eauto.
Qed.

(** ** Schema comparison *)

(** The two direct cases of [get_schema_async], as the comparison meets
    them. *)
Lemma get_schema_async_cached e d cached s :
  _lock s = false ->
  _endpoint_schemas s !! e = Some cached ->
  get_schema_async e d true s = Done (Some cached) s.
Proof.
  intros Hl Hc. unfold get_schema_async, try_except, bind.
  rewrite get_endpoint_schema_eq by exact Hl. rewrite Hc. reflexivity.
Qed.

Lemma get_schema_async_unknown e d use_cache s :
  _lock s = false ->
  _endpoints s !! e = None ->
  (use_cache = true -> _endpoint_schemas s !! e = None) ->
  get_schema_async e d use_cache s = Done None s.
Proof.
  intros Hl He Hc. unfold get_schema_async, try_except, bind.
  destruct use_cache.
  - rewrite get_endpoint_schema_eq by exact Hl. rewrite (Hc eq_refl).
    rewrite get_endpoint_eq by exact Hl. rewrite He. reflexivity.
  - unfold ret at 1. rewrite get_endpoint_eq by exact Hl. rewrite He. reflexivity.
Qed.

Lemma size_inter_difference (A B : gset string) :
  (size (A ∩ B) + size (A ∖ B) = size A)%nat.
Proof.
  rewrite <- size_union by set_solver.
  f_equal. apply set_eq. intros x. destruct (decide (x ∈ B)); set_solver.
Qed.

Lemma size_list_to_set_le (l : list string) :
  (size (list_to_set l : gset string) <= length l)%nat.
Proof.
  induction l as [|x l IH].
  - rewrite list_to_set_nil, size_empty. simpl. lia.
  - rewrite list_to_set_cons, size_union_alt, size_singleton. simpl.
    pose proof (subseteq_size (list_to_set l ∖ {[x]}) (list_to_set l : gset string)) as Hle.
    assert (Hs : (size (list_to_set l ∖ {[x]} : gset string) <= size (list_to_set l : gset string))%nat)
      by (apply Hle; set_solver).
    lia.
Qed.

Lemma type_names_empty schema : type_names schema = ∅ <-> schema_types schema = [].
Proof.
  unfold type_names. split.
  - destruct (schema_types schema) as [|x l]; [reflexivity|].
    intros Hs. exfalso. assert (Hx : x ∈ (∅ : gset string)) by (rewrite <- Hs; set_solver).
    set_solver.
  - intros ->. reflexivity.
Qed.

(** X23: the comparison of two endpoints whose schemas are cached.  When
    neither schema has a type, the division by the larger count raises and
    the answer is the error [division by zero], with nothing changed;
    otherwise the answer is a comparison, stamped with the clock, whose
    counts add up: the common and the unique names of each side make up
    its total, which counts every name once.  An endpoint compared with
    itself has nothing unique. *)
Theorem compare_cached_schemas ea eb a b s :
  _lock s = false ->
  _endpoint_schemas s !! ea = Some a ->
  _endpoint_schemas s !! eb = Some b ->
  (schema_types a = [] -> schema_types b = [] ->
     compare_endpoint_schemas_async ea eb s = Done (ComparisonFailed "division by zero") s) /\
  (schema_types a <> [] \/ schema_types b <> [] ->
     exists c,
       compare_endpoint_schemas_async ea eb s = Done (Compared c) (tick s) /\
       cmp_endpoint_a c = ea /\ cmp_endpoint_b c = eb /\
       comparison_timestamp c = time_of s /\
       common_types c + unique_to_a c = total_types_a c /\
       common_types c + unique_to_b c = total_types_b c /\
       0 <= common_types c /\ 0 <= unique_to_a c /\ 0 <= unique_to_b c /\
       0 < Z.max (total_types_a c) (total_types_b c) /\
       total_types_a c <= Z.of_nat (length (schema_types a)) /\
       total_types_b c <= Z.of_nat (length (schema_types b)) /\
       (ea = eb -> unique_to_a c = 0 /\ unique_to_b c = 0 /\
                   common_types c = total_types_a c)).
Proof.
  intros Hl Ha Hb.
  assert (Hrun : forall k : option SchemaInfo -> option SchemaInfo -> M comparison_result,
    try_except
      (bind (get_schema_async ea 3 true) (fun schema_a =>
       bind (get_schema_async eb 3 true) (fun schema_b => k schema_a schema_b)))
      (fun e => ret (ComparisonFailed (str_exn e))) s =
    try_except (k (Some a) (Some b)) (fun e => ret (ComparisonFailed (str_exn e))) s).
  { intros k. unfold try_except, bind.
    rewrite (get_schema_async_cached ea 3 a s Hl Ha).
    rewrite (get_schema_async_cached eb 3 b s Hl Hb). reflexivity. }
  unfold compare_endpoint_schemas_async.
  rewrite (Hrun (fun schema_a schema_b => match schema_a, schema_b with
                 | Some a, Some b => _ | _, _ => _ end)).
  cbv beta iota.
  split.
  - intros Ea Eb.
    apply type_names_empty in Ea. apply type_names_empty in Eb.
    rewrite Ea, Eb. reflexivity.
  - intros Hne.
    assert (Hpos : 0 < Z.max (Z.of_nat (size (type_names a))) (Z.of_nat (size (type_names b)))).
    { destruct Hne as [Hne|Hne].
      - assert (size (type_names a) <> 0%nat)
          by (intros Hz; apply size_empty_inv in Hz; apply leibniz_equiv in Hz;
              apply Hne, type_names_empty, Hz).
        lia.
      - assert (size (type_names b) <> 0%nat)
          by (intros Hz; apply size_empty_inv in Hz; apply leibniz_equiv in Hz;
              apply Hne, type_names_empty, Hz).
        lia. }
    destruct (Z.eqb_spec (Z.max (Z.of_nat (size (type_names a)))
                                (Z.of_nat (size (type_names b)))) 0) as [Hz|_]; [lia|].
    eexists. split.
    { unfold try_except, bind. rewrite utcnow_eq. reflexivity. }
    cbn [cmp_endpoint_a cmp_endpoint_b comparison_timestamp common_types unique_to_a
         unique_to_b total_types_a total_types_b].
    pose proof (size_inter_difference (type_names a) (type_names b)) as Hab.
    pose proof (size_inter_difference (type_names b) (type_names a)) as Hba.
    assert (Hcomm : type_names b ∩ type_names a = type_names a ∩ type_names b)
      by (apply set_eq; set_solver).
    rewrite Hcomm in Hba.
    pose proof (size_list_to_set_le (schema_types a)) as Hla.
    pose proof (size_list_to_set_le (schema_types b)) as Hlb.
    fold (type_names a) in Hla. fold (type_names b) in Hlb.
    split_and!; try reflexivity; try lia.
    intros ->. rewrite Ha in Hb. injection Hb as <-.
    assert (Hd : type_names a ∖ type_names a = ∅) by (apply set_eq; set_solver).
    assert (Hi : type_names a ∩ type_names a = type_names a) by (apply set_eq; set_solver).
    rewrite Hd, Hi, size_empty. split_and!; reflexivity.
Qed.


(** X24: when the first endpoint is neither registered nor cached, the
    answer says that its schema is unavailable; the schema of the second
    endpoint has been looked for all the same, and is cached if it was
    found.  The lock is free again and no endpoint has changed. *)
Theorem compare_unavailable_schema ea eb s :
  _lock s = false ->
  _endpoints s !! ea = None ->
  _endpoint_schemas s !! ea = None ->
  exists r s',
    get_schema_async eb 3 true s = Done r s' /\
    compare_endpoint_schemas_async ea eb s =
      Done (SchemasUnavailable false (bool_decide (is_Some r))) s' /\
    _lock s' = false /\ _endpoints s' = _endpoints s /\
    (r = None -> _endpoint_schemas s' = _endpoint_schemas s).
Proof.
  intros Hl He Hc.
  destruct (sat_Done _ _ _ (get_schema_async_spec eb 3 true s Hl))
    as (r & s' & Hrun & Hl' & He' & Hs'); [tauto|].
  exists r, s'. split; [exact Hrun|]. split; [|auto].
  unfold compare_endpoint_schemas_async, try_except, bind.
  rewrite (get_schema_async_unknown ea 3 true s Hl He (fun _ => Hc)).
  rewrite Hrun. destruct r; reflexivity.
Qed.

End Proofs.

(** * The claims on concrete inputs *)

Section Examples.
#[local] Existing Instance demo_platform.
#[local] Existing Instance demo_schema_helper.

(** Facts about the example states, by evaluation. *)
Ltac by_evaluation := vm_compute; reflexivity.

Lemma demo_two_endpoints_reachable : reachable demo_two_endpoints.
Proof.
  apply (run_calls_reachable demo_two_calls (@init_state demo_platform 0)); [apply reachable_init|by_evaluation].
Qed.

Lemma demo_two_endpoints_unlocked : _lock demo_two_endpoints = false.
Proof. by_evaluation. Qed.

Lemma demo_busy_reachable : reachable demo_busy.
Proof.
  apply (run_calls_reachable demo_busy_calls (@init_state demo_platform 0)); [apply reachable_init|by_evaluation].
Qed.

Lemma demo_busy_unlocked : _lock demo_busy = false.
Proof. by_evaluation. Qed.

(** C1: a tool registered for endpoint A and then registered again for
    endpoint B stays in the tool set of A while the reverse map sends it to
    B: the state is reachable and the two directions of the index
    disagree. *)
Theorem reassociated_tool_breaks_index :
  run_calls demo_reassociation (init_state 0) = Some demo_reassociated /\
  reachable demo_reassociated /\
  "t" ∈ tools_of (_endpoint_to_tools demo_reassociated) "A" /\
  _tool_to_endpoint demo_reassociated !! "t" = Some "B" /\
  ~ tool_index_consistent demo_reassociated.
Proof.
  assert (Hrun : run_calls demo_reassociation (init_state 0) = Some demo_reassociated)
    by by_evaluation.
  assert (Hin : "t" ∈ tools_of (_endpoint_to_tools demo_reassociated) "A").
  { apply (bool_decide_unpack _). vm_compute. exact I. }
  assert (Hmap : _tool_to_endpoint demo_reassociated !! "t" = Some "B")
    by by_evaluation.
  split; [exact Hrun|]. split; [|split; [exact Hin|split; [exact Hmap|]]].
  - exact (run_calls_reachable _ _ _ (@reachable_init demo_platform 0) Hrun).
  - intros Hc. apply Hc in Hin. rewrite Hmap in Hin. discriminate Hin.
Qed.

(** C5: with one endpoint registered at time 0 and never accessed,
    [cleanup_stale_endpoints 1] called two hours later finds it stale and
    then waits for the lock it holds itself: it does not return, and the
    endpoint is not removed. *)
Theorem cleanup_of_a_stale_endpoint_blocks :
  reachable demo_two_hours_later /\
  (exists st, _endpoint_stats demo_two_hours_later !! "E" = Some st /\
              registered_at st = 0 /\ last_accessed st = None) /\
  time_of demo_two_hours_later = hours 2 /\
  cleanup_stale_endpoints 1 demo_two_hours_later = Blocked.
Proof.
  split; [|split; [|split]].
  - apply reachable_world.
    apply (run_calls_reachable [CallRegisterEndpoint (demo_endpoint "E" "http://up") None]
             (@init_state demo_platform 0)); [apply reachable_init|by_evaluation].
  - exists (fresh_stats 0 None). split; [by_evaluation|]. split; reflexivity.
  - by_evaluation.
  - by_evaluation.
Qed.

Lemma stats_access_invariant_witness :
  reachable demo_busy /\
  (exists st, _endpoint_stats demo_busy !! "A" = Some st /\
              access_count st = 2 /\ success_count st = 1 /\ error_count st = 1) /\
  (forall e st, _endpoint_stats demo_busy !! e = Some st ->
     access_count st = success_count st + error_count st) /\
  exists s' st,
    register_endpoint (demo_endpoint "A" "http://up") None demo_busy = Done true s' /\
    _endpoint_stats s' !! "A" = Some st /\
    access_count st = 0 /\ success_count st = 0 /\ error_count st = 0.
Proof.
  split; [exact demo_busy_reachable|].
  split.
  { exists (record_access 3 false (record_access 2 true
              (set_tool_count 1 (fresh_stats 0 (Some demo_schema))))).
    split; [by_evaluation|]. split; [|split]; reflexivity. }
  pose proof (stats_access_invariant demo_busy demo_busy_reachable) as (Hinv & Hreg & _).
  split; [exact Hinv|].
  exact (Hreg (demo_endpoint "A" "http://up") None).
Defined.

Lemma reregister_resets_stats_keeps_schema_witness :
  _lock demo_busy = false /\
  _endpoints demo_busy !! "A" = Some (demo_endpoint "A" "http://up") /\
  _endpoint_schemas demo_busy !! "A" = Some demo_schema /\
  (exists st, _endpoint_stats demo_busy !! "A" = Some st /\
              access_count st = 2 /\ tool_count st = 1 /\ schema_version st = "v1"%string) /\
  (exists s' st,
    register_endpoint (demo_endpoint "A" "http://new") None demo_busy = Done true s' /\
    _endpoints s' !! "A" = Some (demo_endpoint "A" "http://new") /\
    get_endpoint "A" s' = Done (Some (demo_endpoint "A" "http://new")) s' /\
    _endpoint_stats s' !! "A" = Some st /\
    access_count st = 0 /\ success_count st = 0 /\ error_count st = 0 /\
    tool_count st = 0 /\ schema_version st = ""%string /\
    last_accessed st = None /\ last_introspection st = None /\
    _endpoint_schemas s' = _endpoint_schemas demo_busy /\
    _endpoint_to_tools s' = _endpoint_to_tools demo_busy /\
    _tool_to_endpoint s' = _tool_to_endpoint demo_busy /\
    get_endpoint_schema "A" s' = Done (Some demo_schema) s') /\
  (exists s' st,
    register_endpoint (demo_endpoint "A" "http://new") (Some demo_schema_v2) demo_busy =
      Done true s' /\
    _endpoints s' !! "A" = Some (demo_endpoint "A" "http://new") /\
    get_endpoint "A" s' = Done (Some (demo_endpoint "A" "http://new")) s' /\
    _endpoint_stats s' !! "A" = Some st /\
    access_count st = 0 /\ success_count st = 0 /\ error_count st = 0 /\
    tool_count st = 0 /\ schema_version st = "v2"%string /\
    last_accessed st = None /\ last_introspection st = None /\
    _endpoint_schemas s' = <["A" := demo_schema_v2]> (_endpoint_schemas demo_busy) /\
    _endpoint_to_tools s' = _endpoint_to_tools demo_busy /\
    _tool_to_endpoint s' = _tool_to_endpoint demo_busy /\
    get_endpoint_schema "A" s' = Done (Some demo_schema_v2) s').
Proof.
  assert (H1 : _endpoints demo_busy !! "A" = Some (demo_endpoint "A" "http://up"))
    by by_evaluation.
  assert (H2 : _endpoint_schemas demo_busy !! "A" = Some demo_schema) by by_evaluation.
  split; [exact demo_busy_unlocked|]. split; [exact H1|]. split; [exact H2|].
  split.
  { exists (record_access 3 false (record_access 2 true
              (set_tool_count 1 (fresh_stats 0 (Some demo_schema))))).
    split; [by_evaluation|]. split; [|split]; reflexivity. }
  split.
  - exact (reregister_resets_stats_keeps_schema demo_busy
             (demo_endpoint "A" "http://new") (demo_endpoint "A" "http://up")
             None (Some demo_schema) demo_busy_unlocked H1 H2).
  - exact (reregister_resets_stats_keeps_schema demo_busy
             (demo_endpoint "A" "http://new") (demo_endpoint "A" "http://up")
             (Some demo_schema_v2) (Some demo_schema) demo_busy_unlocked H1 H2).
Defined.

Lemma sequential_early_stop_witness :
  _lock demo_two_endpoints = false /\
  exists rs s1,
    all_succeed 30 0 [demo_operation "A"] (tick demo_two_endpoints) rs s1 /\
    (exists rk s2,
       attempt_operation (demo_operation "ghost") 1 30 s1 = Done rk s2 /\
       success rk = false /\
       exists resp,
         execute_batch_operations_async []
           ([demo_operation "A"] ++ demo_operation "ghost" :: [demo_operation "A"])
           "sequential" false 30 demo_two_endpoints = Done resp (tick s2) /\
         results resp = rs ++ [rk] /\
         length (results resp) = 2%nat /\
         errors resp = [] /\
         total_operations (summary resp) = 3 /\
         successful_operations (summary resp) = 1 /\
         failed_operations (summary resp) =
           Z.of_nat (length (results resp)) - successful_operations (summary resp)) /\
    (exists e s2,
       attempt_operation demo_malformed 1 30 s1 = Raised e s2 /\
       ~ reportable demo_malformed /\
       exists sm,
         execute_batch_operations_async []
           ([demo_operation "A"] ++ demo_malformed :: [demo_operation "A"])
           "sequential" false 30 demo_two_endpoints =
           Done {| results := []; summary := sm; errors := [str_exn e]; warnings := [] |}
                (tick s2) /\
         total_operations sm = 0 /\ successful_operations sm = 0 /\
         failed_operations sm = 0).
Proof.
  split; [exact demo_two_endpoints_unlocked|].
  do 2 eexists. split.
  { eapply all_succeed_cons; [by_evaluation|reflexivity|apply all_succeed_nil]. }
  split.
  - do 2 eexists. split; [by_evaluation|]. split; [reflexivity|].
    refine (proj1 (sequential_early_stop [] [demo_operation "A"] (demo_operation "ghost")
                     [demo_operation "A"] 30 demo_two_endpoints _ _
                     demo_two_endpoints_unlocked _) _ _ _ _).
    + eapply all_succeed_cons; [by_evaluation|reflexivity|apply all_succeed_nil].
    + by_evaluation.
    + reflexivity.
  - do 2 eexists. split; [by_evaluation|].
    refine (proj1 (proj2 (sequential_early_stop [] [demo_operation "A"] demo_malformed
                     [demo_operation "A"] 30 demo_two_endpoints _ _
                     demo_two_endpoints_unlocked _)) _ _ _).
    + eapply all_succeed_cons; [by_evaluation|reflexivity|apply all_succeed_nil].
    + by_evaluation.
Defined.

(** C2, as stated, fails: with the operations [A], [demo_malformed], [A]
    in sequential mode without continue_on_error, operation 0 succeeds and
    operation 1 is the first to fail (it raises, and so does the [except]
    clause of the loop); the response holds no result instead of two, and
    total_operations is 0 instead of 3. *)
Lemma early_stop_without_results :
  exists r0 s1 e s2 resp,
    attempt_operation (demo_operation "A") 0 30 (tick demo_two_endpoints) = Done r0 s1 /\
    success r0 = true /\
    attempt_operation demo_malformed 1 30 s1 = Raised e s2 /\
    execute_batch_operations_async []
      [demo_operation "A"; demo_malformed; demo_operation "A"]
      "sequential" false 30 demo_two_endpoints = Done resp (tick s2) /\
    results resp = [] /\
    length (results resp) <> 2%nat /\
    total_operations (summary resp) = 0 /\
    total_operations (summary resp) <> 3 /\
    errors resp = ["validation error for BatchOperationResult: name"%string].
Proof.
  do 5 eexists. split; [by_evaluation|]. split; [reflexivity|].
  split; [by_evaluation|]. split; [by_evaluation|].
  split; [reflexivity|]. split; [discriminate|]. split; [reflexivity|].
  split; [discriminate|reflexivity].
Qed.

Lemma batch_returns_and_reports_failures_witness :
  _lock demo_two_endpoints = false /\
  exists resp s',
    execute_batch_operations_async [2; 0; 1]%nat
      [demo_operation "A"; demo_operation "B"; demo_operation "ghost"]
      "parallel" false 30 demo_two_endpoints = Done resp s' /\
    (forall i r, results resp !! i = Some r ->
       exists op,
         [demo_operation "A"; demo_operation "B"; demo_operation "ghost"] !! i = Some op /\
         (success r = false -> exists msg, error r = Some msg) /\
         (well_typed op -> reports (_endpoints demo_two_endpoints) 30 op r) /\
         (~ well_typed op -> success r = false)) /\
    (Forall reportable [demo_operation "A"; demo_operation "B"; demo_operation "ghost"] ->
       errors resp = [] /\
       (false = true \/ resolve_mode "parallel" = PARALLEL ->
        length (results resp) = 3%nat) /\
       ((length (results resp) < 3)%nat ->
        exists r, last (results resp) = Some r /\ success r = false)) /\
    (errors resp <> [] ->
       results resp = [] /\
       ~ Forall reportable [demo_operation "A"; demo_operation "B"; demo_operation "ghost"]).
Proof.
  split; [exact demo_two_endpoints_unlocked|].
  exact (batch_returns_and_reports_failures [2; 0; 1]%nat
           [demo_operation "A"; demo_operation "B"; demo_operation "ghost"]
           "parallel" false 30 demo_two_endpoints demo_two_endpoints_unlocked).
Defined.

(** C3, as stated, fails: the operation [demo_malformed] fails when it runs
    (it raises, and so does the [except] clause of the sequential loop), yet
    the response has no result for it: the result list is empty and the
    fault is reported in [errors]. *)
Lemma failed_operation_without_result :
  (exists e s1,
     attempt_operation demo_malformed 0 30 (tick (init_state 0)) = Raised e s1) /\
  exists resp s',
    execute_batch_operations_async [] [demo_malformed] "sequential" true 30 (init_state 0)
      = Done resp s' /\
    results resp = [] /\
    errors resp = ["validation error for BatchOperationResult: name"%string].
Proof.
  split.
  - do 2 eexists. by_evaluation.
  - do 2 eexists. split; [by_evaluation|]. split; reflexivity.
Qed.


Lemma result_index_is_position_witness :
  _lock demo_two_endpoints = false /\
  exists resp s',
    execute_batch_operations_async [2; 0; 1]%nat
      [demo_operation "A"; demo_operation "B"; demo_operation "ghost"]
      "parallel" true 30 demo_two_endpoints = Done resp s' /\
    (forall i r, results resp !! i = Some r ->
      index r = i /\
      exists op,
        [demo_operation "A"; demo_operation "B"; demo_operation "ghost"] !! i = Some op /\
        dict_get op "name" (default_name i) = PyStr (res_name r) /\
        dict_get op "endpoint" (PyStr "") = PyStr (res_endpoint r) /\
        (well_typed op -> reports (_endpoints demo_two_endpoints) 30 op r)) /\
    (length (results resp) <= 3)%nat /\
    (Forall reportable [demo_operation "A"; demo_operation "B"; demo_operation "ghost"] ->
       (true = true \/ resolve_mode "parallel" = PARALLEL ->
        length (results resp) = 3%nat) /\
       ((length (results resp) < 3)%nat ->
        true = false /\ resolve_mode "parallel" = SEQUENTIAL /\
        (exists r, last (results resp) = Some r /\ success r = false) /\
        forall j r, results resp !! j = Some r ->
          (S j < length (results resp))%nat -> success r = true)).
Proof.
  split; [exact demo_two_endpoints_unlocked|].
  exact (result_index_is_position [2; 0; 1]%nat
           [demo_operation "A"; demo_operation "B"; demo_operation "ghost"]
           "parallel" true 30 demo_two_endpoints demo_two_endpoints_unlocked).
Defined.

Lemma unrecognized_mode_is_sequential_witness :
  "PARALLEL"%string <> "sequential"%string /\
  "PARALLEL"%string <> "parallel"%string /\
  _lock demo_two_endpoints = false /\
  execute_batch_operations_async [1; 0]%nat [demo_operation "A"; demo_operation "B"]
    "PARALLEL" true 30 demo_two_endpoints =
  execute_batch_operations_async [] [demo_operation "A"; demo_operation "B"]
    "sequential" true 30 demo_two_endpoints /\
  exists resp s',
    execute_batch_operations_async [1; 0]%nat [demo_operation "A"; demo_operation "B"]
      "PARALLEL" true 30 demo_two_endpoints = Done resp s' /\
    execution_mode (summary resp) = SEQUENTIAL.
Proof.
  assert (H1 : "PARALLEL"%string <> "sequential"%string) by discriminate.
  assert (H2 : "PARALLEL"%string <> "parallel"%string) by discriminate.
  split; [exact H1|]. split; [exact H2|]. split; [exact demo_two_endpoints_unlocked|].
  exact (unrecognized_mode_is_sequential [1; 0]%nat [] [demo_operation "A"; demo_operation "B"]
           "PARALLEL" true 30 demo_two_endpoints H1 H2 demo_two_endpoints_unlocked).
Defined.

Lemma outer_fault_gives_empty_response_witness :
  exists e s1,
    batch_body [] [demo_malformed; demo_operation "A"] "sequential" true 30
      demo_two_endpoints = Raised e s1 /\
    exists sm,
      execute_batch_operations_async [] [demo_malformed; demo_operation "A"]
        "sequential" true 30 demo_two_endpoints =
        Done {| results := []; summary := sm; errors := [str_exn e]; warnings := [] |}
             (tick s1) /\
      total_operations sm = 0 /\ successful_operations sm = 0 /\
      failed_operations sm = 0 /\ total_execution_time sm = 0 /\
      execution_mode sm = SEQUENTIAL /\ started_at sm = time_of s1 /\
      completed_at sm = None /\ continue_on_error sm = true.
Proof.
  do 2 eexists. split.
  - by_evaluation.
  - eapply (outer_fault_gives_empty_response [] [demo_malformed; demo_operation "A"]
              "sequential" true 30 demo_two_endpoints).
    by_evaluation.
Defined.

(** ** The registry at the example states *)

Lemma demo_busy_endpoint :
  _endpoints demo_busy !! "A" = Some (demo_endpoint "A" "http://up").
Proof. by_evaluation. Qed.

Lemma demo_two_endpoints_A :
  _endpoints demo_two_endpoints !! "A" = Some (demo_endpoint "A" "http://up").
Proof. by_evaluation. Qed.

Lemma demo_two_endpoints_ghost : _endpoints demo_two_endpoints !! "ghost" = None.
Proof. by_evaluation. Qed.

Lemma registry_domains_agree_witness :
  reachable demo_busy /\
  (is_Some (_endpoint_stats demo_busy !! "A") <-> is_Some (_endpoints demo_busy !! "A")) /\
  (is_Some (_last_updated demo_busy !! "A") <-> is_Some (_endpoints demo_busy !! "A")) /\
  (is_Some (_endpoint_schemas demo_busy !! "A") -> is_Some (_endpoints demo_busy !! "A")).
Proof.
  split; [exact demo_busy_reachable|].
  exact (registry_domains_agree demo_busy "A" demo_busy_reachable).
Defined.

Lemma tool_map_is_backed_witness :
  reachable demo_busy /\
  _tool_to_endpoint demo_busy !! "t" = Some "A" /\
  "t" ∈ tools_of (_endpoint_to_tools demo_busy) "A" /\
  is_Some (_endpoints demo_busy !! "A") /\
  get_endpoint_for_tool "t" demo_busy = Done (Some "A") demo_busy.
Proof.
  assert (Ht : _tool_to_endpoint demo_busy !! "t" = Some "A") by by_evaluation.
  split; [exact demo_busy_reachable|]. split; [exact Ht|].
  exact (tool_map_is_backed demo_busy "t" "A" demo_busy_reachable Ht).
Defined.

Lemma register_endpoint_last_write_wins_witness :
  _lock demo_two_endpoints = false /\
  name (demo_endpoint "A" "http://new") = name (demo_endpoint "A" "http://up") /\
  exists s1 s2 n,
    register_endpoint (demo_endpoint "A" "http://up") None demo_two_endpoints = Done true s1 /\
    register_endpoint (demo_endpoint "A" "http://new") (Some demo_schema) s1 = Done true s2 /\
    get_endpoint "A" s2 = Done (Some (demo_endpoint "A" "http://new")) s2 /\
    get_endpoint_count s1 = Done n s1 /\
    get_endpoint_count s2 = Done n s2 /\
    forall e, e <> "A" -> _endpoints s2 !! e = _endpoints demo_two_endpoints !! e.
Proof.
  split; [exact demo_two_endpoints_unlocked|]. split; [reflexivity|].
  exact (register_endpoint_last_write_wins
           (demo_endpoint "A" "http://up") (demo_endpoint "A" "http://new")
           None (Some demo_schema) demo_two_endpoints
           demo_two_endpoints_unlocked eq_refl).
Defined.

Lemma mutators_reject_unknown_endpoint_witness :
  _lock demo_two_endpoints = false /\
  _endpoints demo_two_endpoints !! "ghost" = None /\
  unregister_endpoint "ghost" demo_two_endpoints = Done false demo_two_endpoints /\
  register_tool "t" "ghost" demo_two_endpoints = Done false demo_two_endpoints /\
  update_endpoint_schema "ghost" demo_schema demo_two_endpoints =
    Done false demo_two_endpoints.
Proof.
  split; [exact demo_two_endpoints_unlocked|]. split; [exact demo_two_endpoints_ghost|].
  exact (mutators_reject_unknown_endpoint "ghost" "t" demo_schema demo_two_endpoints
           demo_two_endpoints_unlocked demo_two_endpoints_ghost).
Defined.

Lemma unregister_endpoint_cascades_witness :
  _lock demo_busy = false /\
  _endpoints demo_busy !! "A" = Some (demo_endpoint "A" "http://up") /\
  "t" ∈ tools_of (_endpoint_to_tools demo_busy) "A" /\
  exists s',
    unregister_endpoint "A" demo_busy = Done true s' /\
    get_endpoint "A" s' = Done None s' /\
    get_endpoint_schema "A" s' = Done None s' /\
    (forall st, _endpoint_stats demo_busy !! "A" = Some st ->
       get_endpoint_stats "A" demo_busy = Done (Stats st) demo_busy) /\
    get_endpoint_stats "A" s' = Done EmptyDict s' /\
    get_tools_for_endpoint "A" s' = Done ∅ s' /\
    (forall t, t ∈ tools_of (_endpoint_to_tools demo_busy) "A" ->
       get_endpoint_for_tool t s' = Done None s') /\
    (forall e', e' <> "A"%string ->
       _endpoints s' !! e' = _endpoints demo_busy !! e' /\
       _endpoint_schemas s' !! e' = _endpoint_schemas demo_busy !! e').
Proof.
  split; [exact demo_busy_unlocked|]. split; [exact demo_busy_endpoint|].
  split; [apply (bool_decide_unpack _); vm_compute; exact I|].
  exact (unregister_endpoint_cascades "A" (demo_endpoint "A" "http://up") demo_busy
           demo_busy_unlocked demo_busy_endpoint).
Defined.

Lemma register_tool_registers_once_witness :
  _lock demo_busy = false /\
  _endpoints demo_busy !! "A" = Some (demo_endpoint "A" "http://up") /\
  exists s',
    register_tool "u" "A" demo_busy = Done true s' /\
    get_endpoint_for_tool "u" s' = Done (Some "A") s' /\
    "u" ∈ tools_of (_endpoint_to_tools s') "A" /\
    (forall st', _endpoint_stats s' !! "A" = Some st' ->
       tool_count st' = Z.of_nat (size (tools_of (_endpoint_to_tools s') "A"))) /\
    register_tool "u" "A" s' = Done true s'.
Proof.
  split; [exact demo_busy_unlocked|]. split; [exact demo_busy_endpoint|].
  exact (register_tool_registers_once "u" "A" (demo_endpoint "A" "http://up") demo_busy
           demo_busy_unlocked demo_busy_endpoint).
Defined.

Lemma update_endpoint_schema_caches_witness :
  _lock demo_two_endpoints = false /\
  _endpoints demo_two_endpoints !! "A" = Some (demo_endpoint "A" "http://up") /\
  exists s',
    update_endpoint_schema "A" demo_schema demo_two_endpoints = Done true s' /\
    get_endpoint_schema "A" s' = Done (Some demo_schema) s' /\
    get_endpoint "A" s' = Done (Some (demo_endpoint "A" "http://up")) s' /\
    forall st, _endpoint_stats demo_two_endpoints !! "A" = Some st ->
      exists st', _endpoint_stats s' !! "A" = Some st' /\
        schema_version st' = version demo_schema /\
        is_Some (last_introspection st') /\
        access_count st' = access_count st /\
        success_count st' = success_count st /\
        error_count st' = error_count st /\
        tool_count st' = tool_count st /\
        last_accessed st' = last_accessed st /\
        registered_at st' = registered_at st.
Proof.
  split; [exact demo_two_endpoints_unlocked|]. split; [exact demo_two_endpoints_A|].
  exact (update_endpoint_schema_caches "A" (demo_endpoint "A" "http://up") demo_schema
           demo_two_endpoints demo_two_endpoints_unlocked demo_two_endpoints_A).
Defined.

Lemma demo_long_idle_stats :
  _endpoint_stats demo_long_idle = {[ "E"%string := fresh_stats 0 None ]}.
Proof. by_evaluation. Qed.

Lemma cleanup_returns_iff_nothing_stale_witness :
  _lock demo_long_idle = false /\
  time_of demo_long_idle = hours 10000000 + 1 /\
  (forall e st, _endpoint_stats demo_long_idle !! e = Some st ->
     is_stale (time_of demo_long_idle) 10000000 st = false) /\
  cleanup_stale_endpoints 10000000 demo_long_idle = Done 0 (tick demo_long_idle) /\
  (forall e st, _endpoint_stats demo_long_idle !! e = Some st ->
     is_stale (time_of demo_long_idle) 9999999 st = true) /\
  cleanup_stale_endpoints 9999999 demo_long_idle = Blocked.
Proof.
  assert (Hl : _lock demo_long_idle = false) by by_evaluation.
  assert (Hfresh : forall e st, _endpoint_stats demo_long_idle !! e = Some st ->
            is_stale (time_of demo_long_idle) 10000000 st = false).
  { intros e st. rewrite demo_long_idle_stats. intros Hst.
    apply lookup_singleton_Some in Hst. destruct Hst as [_ <-]. by_evaluation. }
  assert (Hstale : forall e st, _endpoint_stats demo_long_idle !! e = Some st ->
            is_stale (time_of demo_long_idle) 9999999 st = true).
  { intros e st. rewrite demo_long_idle_stats. intros Hst.
    apply lookup_singleton_Some in Hst. destruct Hst as [_ <-]. by_evaluation. }
  assert (HE : _endpoint_stats demo_long_idle !! "E" = Some (fresh_stats 0 None))
    by (rewrite demo_long_idle_stats; apply lookup_singleton_eq).
  split; [exact Hl|]. split; [by_evaluation|]. split; [exact Hfresh|].
  split; [|split; [exact Hstale|]].
  - exact (proj1 (cleanup_returns_iff_nothing_stale 10000000 demo_long_idle Hl) Hfresh).
  - exact (proj1 (proj2 (cleanup_returns_iff_nothing_stale 9999999 demo_long_idle Hl))
             "E" (fresh_stats 0 None) HE (Hstale "E" _ HE)).
Defined.

Lemma record_endpoint_access_touches_one_witness :
  _lock demo_busy = false /\
  exists s',
    record_endpoint_access "A" true demo_busy = Done tt s' /\
    _lock s' = false /\ gateway_log s' = gateway_log demo_busy /\
    _endpoints s' = _endpoints demo_busy /\
    _endpoint_schemas s' = _endpoint_schemas demo_busy /\
    _tool_to_endpoint s' = _tool_to_endpoint demo_busy /\
    _endpoint_to_tools s' = _endpoint_to_tools demo_busy /\
    (forall e', e' <> "A"%string ->
       _endpoint_stats s' !! e' = _endpoint_stats demo_busy !! e') /\
    (forall st, _endpoint_stats demo_busy !! "A" = Some st ->
       exists st', _endpoint_stats s' !! "A" = Some st' /\
         last_accessed st' = Some (time_of demo_busy) /\
         registered_at st' = registered_at st /\ tool_count st' = tool_count st /\
         schema_version st' = schema_version st) /\
    (_endpoint_stats demo_busy !! "A" = None -> s' = demo_busy).
Proof.
  split; [exact demo_busy_unlocked|].
  exact (record_endpoint_access_touches_one "A" true demo_busy demo_busy_unlocked).
Defined.

Lemma registry_summary_consistent_witness :
  reachable demo_busy /\
  total_endpoints (get_registry_summary demo_busy) = 1 /\
  endpoints_with_schema (get_registry_summary demo_busy) = 1 /\
  0 <= endpoints_with_schema (get_registry_summary demo_busy) <=
    total_endpoints (get_registry_summary demo_busy) /\
  (last_registry_update (get_registry_summary demo_busy) = None <->
   total_endpoints (get_registry_summary demo_busy) = 0) /\
  (forall e t, _last_updated demo_busy !! e = Some t ->
     exists u, last_registry_update (get_registry_summary demo_busy) = Some u /\ t <= u) /\
  (forall u, last_registry_update (get_registry_summary demo_busy) = Some u ->
     exists e, _last_updated demo_busy !! e = Some u /\ is_Some (_endpoints demo_busy !! e)).
Proof.
  split; [exact demo_busy_reachable|].
  split; [by_evaluation|]. split; [by_evaluation|].
  exact (registry_summary_consistent demo_busy demo_busy_reachable).
Defined.


(** ** Batches and schema retrieval at the example states *)

Lemma summary_counts_add_up_witness :
  _lock demo_two_endpoints = false /\
  exists resp s',
    execute_batch_operations_async []
      [demo_operation "A"; demo_operation "ghost"; demo_operation "B"]
      "sequential" true 30 demo_two_endpoints = Done resp s' /\
    successful_operations (summary resp) =
      Z.of_nat (length (filter (fun r => success r = true) (results resp))) /\
    failed_operations (summary resp) =
      Z.of_nat (length (filter (fun r => success r <> true) (results resp))) /\
    successful_operations (summary resp) + failed_operations (summary resp) =
      Z.of_nat (length (results resp)) /\
    (length (results resp) <= 3)%nat /\
    (errors resp = [] -> total_operations (summary resp) = 3).
Proof.
  split; [exact demo_two_endpoints_unlocked|].
  exact (summary_counts_add_up []
           [demo_operation "A"; demo_operation "ghost"; demo_operation "B"]
           "sequential" true 30 demo_two_endpoints demo_two_endpoints_unlocked).
Defined.

Lemma demo_operation_well_typed e : well_typed (demo_operation e).
Proof. repeat split; eexists; reflexivity. Qed.

Lemma registered_operation_calls_gateway_once_witness :
  _lock demo_two_endpoints = false /\
  well_typed (demo_operation "A") /\
  dict_get (demo_operation "A") "endpoint" (PyStr "") = PyStr "A" /\
  _endpoints demo_two_endpoints !! "A" = Some (demo_endpoint "A" "http://up") /\
  exists r s',
    _execute_single_operation (demo_operation "A") 0 30 demo_two_endpoints = Done r s' /\
    _lock s' = false /\ index r = 0%nat /\ res_endpoint r = "A"%string /\
    gateway_log s' =
      gateway_log demo_two_endpoints ++
        [{| gw_url := "http://up"; gw_query := PyStr "{ ping }";
            gw_variables := PyDict []; gw_headers := []; gw_timeout := 30 |}].
Proof.
  split; [exact demo_two_endpoints_unlocked|].
  split; [exact (demo_operation_well_typed "A")|].
  split; [reflexivity|]. split; [exact demo_two_endpoints_A|].
  destruct (registered_operation_calls_gateway_once (demo_operation "A") 0 30 "A"
              (demo_endpoint "A" "http://up") demo_two_endpoints
              demo_two_endpoints_unlocked (demo_operation_well_typed "A") eq_refl
              demo_two_endpoints_A)
    as (r & s' & Hrun & Hl & _ & Hi & He & Hlog & _).
  exists r, s'. split; [exact Hrun|]. split; [exact Hl|]. split; [exact Hi|].
  split; [exact He|exact Hlog].
Defined.

Lemma parallel_ignores_continue_on_error_witness :
  _lock demo_two_endpoints = false /\
  exists r1 r2 s',
    execute_batch_operations_async [2; 0; 1]%nat
      [demo_operation "A"; demo_operation "B"; demo_operation "ghost"]
      "parallel" true 30 demo_two_endpoints = Done r1 s' /\
    execute_batch_operations_async [2; 0; 1]%nat
      [demo_operation "A"; demo_operation "B"; demo_operation "ghost"]
      "parallel" false 30 demo_two_endpoints = Done r2 s' /\
    results r1 = results r2 /\ errors r1 = errors r2 /\
    total_operations (summary r1) = total_operations (summary r2) /\
    successful_operations (summary r1) = successful_operations (summary r2) /\
    failed_operations (summary r1) = failed_operations (summary r2) /\
    execution_mode (summary r1) = execution_mode (summary r2) /\
    started_at (summary r1) = started_at (summary r2) /\
    completed_at (summary r1) = completed_at (summary r2) /\
    (length (results r1) = 3%nat \/ results r1 = []).
Proof.
  split; [exact demo_two_endpoints_unlocked|].
  exact (parallel_ignores_continue_on_error [2; 0; 1]%nat
           [demo_operation "A"; demo_operation "B"; demo_operation "ghost"]
           30 demo_two_endpoints demo_two_endpoints_unlocked).
Defined.

Lemma batch_touches_only_statistics_witness :
  _lock demo_two_endpoints = false /\
  exists resp s' calls,
    execute_batch_operations_async [1; 0]%nat
      [demo_operation "A"; demo_operation "ghost"; demo_operation "B"]
      "parallel" true 30 demo_two_endpoints = Done resp s' /\
    _lock s' = false /\
    _endpoints s' = _endpoints demo_two_endpoints /\
    _endpoint_schemas s' = _endpoint_schemas demo_two_endpoints /\
    _tool_to_endpoint s' = _tool_to_endpoint demo_two_endpoints /\
    _endpoint_to_tools s' = _endpoint_to_tools demo_two_endpoints /\
    _last_updated s' = _last_updated demo_two_endpoints /\
    dom (_endpoint_stats s') = dom (_endpoint_stats demo_two_endpoints) /\
    gateway_log s' = gateway_log demo_two_endpoints ++ calls /\
    (length calls <= 3)%nat.
Proof.
  split; [exact demo_two_endpoints_unlocked|].
  exact (batch_touches_only_statistics [1; 0]%nat
           [demo_operation "A"; demo_operation "ghost"; demo_operation "B"]
           "parallel" true 30 demo_two_endpoints demo_two_endpoints_unlocked).
Defined.

Lemma demo_busy_schema : _endpoint_schemas demo_busy !! "A" = Some demo_schema.
Proof. by_evaluation. Qed.

Lemma get_schema_async_cache_hit_witness :
  _lock demo_busy = false /\
  _endpoint_schemas demo_busy !! "A" = Some demo_schema /\
  get_schema_async "A" 30 true demo_busy = Done (Some demo_schema) demo_busy.
Proof.
  split; [exact demo_busy_unlocked|]. split; [exact demo_busy_schema|].
  exact (get_schema_async_cache_hit "A" 30 demo_schema demo_busy
           demo_busy_unlocked demo_busy_schema).
Defined.

Lemma demo_two_endpoints_no_schema e : _endpoint_schemas demo_two_endpoints !! e = None.
Proof. apply lookup_empty. Qed.

Lemma get_schema_async_unknown_endpoint_witness :
  _lock demo_two_endpoints = false /\
  _endpoints demo_two_endpoints !! "ghost" = None /\
  _endpoint_schemas demo_two_endpoints !! "ghost" = None /\
  get_schema_async "ghost" 30 true demo_two_endpoints = Done None demo_two_endpoints.
Proof.
  split; [exact demo_two_endpoints_unlocked|]. split; [exact demo_two_endpoints_ghost|].
  split; [exact (demo_two_endpoints_no_schema "ghost")|].
  exact (get_schema_async_unknown_endpoint "ghost" 30 true demo_two_endpoints
           demo_two_endpoints_unlocked demo_two_endpoints_ghost
           (fun _ => demo_two_endpoints_no_schema "ghost")).
Defined.

Lemma get_schema_async_fetches_and_caches_witness :
  _lock demo_two_endpoints = false /\
  _endpoints demo_two_endpoints !! "A" = Some (demo_endpoint "A" "http://up") /\
  _endpoint_schemas demo_two_endpoints !! "A" = None /\
  (introspect (demo_endpoint "A" "http://up") 30 (world demo_two_endpoints)).1 =
    Some demo_schema /\
  (exists s1,
     get_schema_async "A" 30 true demo_two_endpoints = Done (Some demo_schema) s1 /\
     _lock s1 = false /\
     _endpoint_schemas s1 = <["A" := demo_schema]> (_endpoint_schemas demo_two_endpoints) /\
     _endpoints s1 = _endpoints demo_two_endpoints /\
     get_schema_async "A" 5 true s1 = Done (Some demo_schema) s1) /\
  (exists s2,
     get_schema_async "A" 30 false demo_two_endpoints = Done (Some demo_schema) s2 /\
     s2 = set_world
            (introspect (demo_endpoint "A" "http://up") 30 (world demo_two_endpoints)).2
            demo_two_endpoints).
Proof.
  assert (Hi : (introspect (demo_endpoint "A" "http://up") 30
                  (world demo_two_endpoints)).1 = Some demo_schema) by reflexivity.
  split; [exact demo_two_endpoints_unlocked|]. split; [exact demo_two_endpoints_A|].
  split; [exact (demo_two_endpoints_no_schema "A")|]. split; [exact Hi|].
  exact (get_schema_async_fetches_and_caches "A" 30 5 (demo_endpoint "A" "http://up")
           demo_schema demo_two_endpoints demo_two_endpoints_unlocked
           demo_two_endpoints_A (demo_two_endpoints_no_schema "A") Hi).
Defined.

Lemma get_schema_async_returns_witness :
  _lock demo_two_endpoints = false /\
  get_schema_async "B" 30 true demo_two_endpoints =
    Done None (set_world (world demo_two_endpoints + 1) demo_two_endpoints) /\
  exists r s',
    get_schema_async "B" 30 true demo_two_endpoints = Done r s' /\
    _lock s' = false /\
    _endpoints s' = _endpoints demo_two_endpoints /\
    (r = None -> _endpoint_schemas s' = _endpoint_schemas demo_two_endpoints).
Proof.
  split; [exact demo_two_endpoints_unlocked|]. split; [by_evaluation|].
  exact (get_schema_async_returns "B" 30 true demo_two_endpoints
           demo_two_endpoints_unlocked).
Defined.

Lemma alias_generator_snake_case_witness :
  ascii_name "lastModified" = true /\
  alias_generator "lastModified" = "last_modified"%string /\
  alias_generator "HTTPStatus" = "h_t_t_p_status"%string /\
  no_upper (alias_generator "lastModified") = true /\
  (no_upper "lastModified" = true -> alias_generator "lastModified" = "lastModified"%string) /\
  alias_generator (alias_generator "lastModified") = alias_generator "lastModified" /\
  (String.length "lastModified" <= String.length (alias_generator "lastModified")
     <= 2 * String.length "lastModified")%nat /\
  (forall c rest, "lastModified"%string = String c rest ->
     exists rest', alias_generator "lastModified" = String (lower c) rest').
Proof.
  split; [reflexivity|]. split; [reflexivity|]. split; [reflexivity|].
  exact (alias_generator_snake_case "lastModified" eq_refl).
Defined.


Lemma compare_cached_schemas_witness :
  _lock demo_busy = false /\
  _endpoint_schemas demo_busy !! "A" = Some demo_schema /\
  schema_types demo_schema <> [] /\
  exists c,
    compare_endpoint_schemas_async "A" "A" demo_busy = Done (Compared c) (tick demo_busy) /\
    cmp_endpoint_a c = "A"%string /\ cmp_endpoint_b c = "A"%string /\
    comparison_timestamp c = time_of demo_busy /\
    common_types c + unique_to_a c = total_types_a c /\
    common_types c + unique_to_b c = total_types_b c /\
    0 <= common_types c /\ 0 <= unique_to_a c /\ 0 <= unique_to_b c /\
    0 < Z.max (total_types_a c) (total_types_b c) /\
    total_types_a c <= Z.of_nat (length (schema_types demo_schema)) /\
    total_types_b c <= Z.of_nat (length (schema_types demo_schema)) /\
    ("A"%string = "A"%string ->
       unique_to_a c = 0 /\ unique_to_b c = 0 /\ common_types c = total_types_a c).
Proof.
  assert (Hne : schema_types demo_schema <> []) by discriminate.
  split; [exact demo_busy_unlocked|]. split; [exact demo_busy_schema|].
  split; [exact Hne|].
  exact (proj2 (compare_cached_schemas "A" "A" demo_schema demo_schema demo_busy
                  demo_busy_unlocked demo_busy_schema demo_busy_schema)
               (or_introl Hne)).
Defined.

Lemma compare_unavailable_schema_witness :
  _lock demo_two_endpoints = false /\
  _endpoints demo_two_endpoints !! "ghost" = None /\
  _endpoint_schemas demo_two_endpoints !! "ghost" = None /\
  exists r s',
    get_schema_async "A" 3 true demo_two_endpoints = Done r s' /\
    compare_endpoint_schemas_async "ghost" "A" demo_two_endpoints =
      Done (SchemasUnavailable false (bool_decide (is_Some r))) s' /\
    _lock s' = false /\ _endpoints s' = _endpoints demo_two_endpoints /\
    (r = None -> _endpoint_schemas s' = _endpoint_schemas demo_two_endpoints).
Proof.
  split; [exact demo_two_endpoints_unlocked|]. split; [exact demo_two_endpoints_ghost|].
  split; [exact (demo_two_endpoints_no_schema "ghost")|].
  exact (compare_unavailable_schema "ghost" "A" demo_two_endpoints
           demo_two_endpoints_unlocked demo_two_endpoints_ghost
           (demo_two_endpoints_no_schema "ghost")).
Defined.


End Examples.
